(** * watermarker: the page ingestion, ordering and bundling pipeline

    A shallow embedding of [main.go] of Cryptkeeper/watermarker and the
    properties of its pipeline: path discovery, page indexing by file name,
    ordering, concurrent per-page transformation, bundling and cleanup.

    Go strings are byte strings; they are modelled by [string] (a list of
    8-bit [ascii] characters).  Go's [int] is the 64-bit signed integer of the
    usual platforms; it is modelled by [Z] with the wrap-around written out
    where the program computes with it. *)

From Stdlib Require Import ZArith Lia Ascii String DecimalString.
From Stdlib Require DecimalPos DecimalFacts.
From stdpp Require Import base tactics option list strings sorting.

Local Open Scope string_scope.
Local Open Scope list_scope.
Local Open Scope nat_scope.

(** ** Part I: the program *)

(** *** Results of fallible code

    A Go function of the pipeline either returns a value, returns an [error],
    or panics (which, unrecovered, ends the whole process). *)

Inductive outcome (A : Type) : Type :=
| Ok (a : A)
| Error (msg : string)
| Panic (msg : string).

Arguments Ok {A} a.
Arguments Error {A} msg.
Arguments Panic {A} msg.

(** *** Library functions the program calls *)

Module strings.

(** [strings.Split(s, sep)] for a one-byte separator: the fields around every
    occurrence of [sep]; a string without [sep] is its own single field, and
    the empty string has the single field [""]. *)
Fixpoint Split (s : string) (sep : ascii) : list string :=
  match s with
  | EmptyString => [ EmptyString ]
  | String c s' =>
      if Ascii.eqb c sep then EmptyString :: Split s' sep
      else match Split s' sep with
           | f :: fs => String c f :: fs
           | [] => [ String c EmptyString ]
           end
  end.

End strings.

Module slices.

(** [slices.Contains(s, v)] on strings. *)
Definition Contains (s : list string) (v : string) : bool :=
  existsb (String.eqb v) s.

End slices.

Module filepath.

(** Unix: the only path separator is the slash. *)
Definition IsPathSeparator (c : ascii) : bool := Ascii.eqb c "/".

(** The loop of [filepath.Ext]: [for i := len(path)-1; i >= 0 &&
    !IsPathSeparator(path[i]); i--], with [n = i + 1]. *)
Fixpoint Ext_loop (path : string) (n : nat) : string :=
  match n with
  | O => EmptyString
  | S i =>
      match String.get i path with
      | Some c =>
          if IsPathSeparator c then EmptyString
          else if Ascii.eqb c "." then substring i (String.length path - i) path
          else Ext_loop path i
      | None => EmptyString
      end
  end.

(** [filepath.Ext(path)]: the suffix beginning at the final dot of the final
    element of [path]; empty when there is no dot. *)
Definition Ext (path : string) : string := Ext_loop path (String.length path).

(** [path] without its trailing slashes (the first loop of [filepath.Base]),
    on the reversed list of bytes. *)
Fixpoint strip_slashes (rev_path : list ascii) : list ascii :=
  match rev_path with
  | c :: rest => if IsPathSeparator c then strip_slashes rest else rev_path
  | [] => []
  end.

(** The bytes after the last slash (the second loop of [filepath.Base]), on
    the reversed list of bytes. *)
Fixpoint last_element (rev_path : list ascii) : list ascii :=
  match rev_path with
  | c :: rest => if IsPathSeparator c then [] else c :: last_element rest
  | [] => []
  end.

(** [filepath.Base(path)]: the last element of [path]; ["."] for the empty
    path and ["/"] for a path of slashes only. *)
Definition Base (path : string) : string :=
  if String.eqb path "" then "."
  else
    let elem := last_element (strip_slashes (rev (list_ascii_of_string path))) in
    match elem with
    | [] => "/"
    | _ => string_of_list_ascii (rev elem)
    end.

Definition is_dot (c : ascii) : bool := Ascii.eqb c ".".

(** [r == n || IsPathSeparator(path[r])]: the element ends here. *)
Definition element_ends (path : list ascii) : bool :=
  match path with
  | [] => true
  | c :: _ => IsPathSeparator c
  end.

(** The [..] element of [filepath.Clean] when it can backtrack: after
    [out.w--], the loop [for out.w > dotdot && !IsPathSeparator(out.index(out.w))
    { out.w-- }].  The buffer [out] is kept last byte first; [top] is the
    byte at index [out.w]. *)
Fixpoint back_up (dotdot : nat) (top : ascii) (out : list ascii) : list ascii :=
  match out with
  | c :: out' =>
      if (dotdot <? length out) && negb (IsPathSeparator top) then back_up dotdot c out'
      else out
  | [] => []
  end.

(** The loop of [filepath.Clean] over the bytes of the path that are left.
    [copying] says that the loop is inside a path element that it copies;
    otherwise it is at the start of an element.  [out] is the buffer, last
    byte first, and [dotdot] the index where a [..] must stop. *)
Fixpoint Clean_loop (rooted copying : bool) (path out : list ascii) (dotdot : nat)
    : list ascii :=
  match path with
  | [] => out
  | c :: rest =>
      if copying then
        if IsPathSeparator c then Clean_loop rooted false rest out dotdot
        else Clean_loop rooted true rest (c :: out) dotdot
      else if IsPathSeparator c then
        (* empty path element *)
        Clean_loop rooted false rest out dotdot
      else if is_dot c && element_ends rest then
        (* . element *)
        Clean_loop rooted false rest out dotdot
      else
        (* real path element: add a slash if needed, then copy the element *)
        let real :=
          let out :=
            if (rooted && negb (length out =? 1)) || (negb rooted && negb (length out =? 0))
            then "/"%char :: out else out in
          Clean_loop rooted true rest (c :: out) dotdot in
        match rest with
        | c2 :: rest2 =>
            if is_dot c && is_dot c2 && element_ends rest2 then
              (* .. element: remove to the last separator *)
              if dotdot <? length out then
                match out with
                | top :: out' => Clean_loop rooted false rest2 (back_up dotdot top out') dotdot
                | [] => Clean_loop rooted false rest2 out dotdot
                end
              else if negb rooted then
                (* cannot backtrack, but not rooted: append the .. element *)
                let out := if 0 <? length out then "/"%char :: out else out in
                Clean_loop rooted false rest2 ("."%char :: "."%char :: out)
                  (length out + 2)
              else Clean_loop rooted false rest2 out dotdot
            else real
        | [] => real
        end
  end.

(** [filepath.Clean(path)]: the shortest path name equivalent to [path] by
    purely lexical processing. *)
Definition Clean (path : string) : string :=
  match list_ascii_of_string path with
  | [] => "."
  | c :: rest =>
      let out :=
        if IsPathSeparator c then Clean_loop true false rest [ "/"%char ] 1
        else Clean_loop false false (c :: rest) [] 0 in
      match out with
      | [] => "."
      | _ => string_of_list_ascii (rev out)
      end
  end.

(** [filepath.Join(dir, name)]: the elements that are not empty, joined by
    a slash and cleaned; [filepath.WalkDir] makes the path of every entry
    with it, from the path of its directory and its name. *)
Definition Join (dir name : string) : string :=
  if negb (String.eqb dir "") then Clean (dir +:+ "/" +:+ name)
  else if negb (String.eqb name "") then Clean name
  else "".

End filepath.

Module os.

(** [bytealg.LastIndexByteString(s, c)]: the index of the last [c] in [s]. *)
Fixpoint LastIndexByte (s : string) (c : ascii) : option nat :=
  match s with
  | EmptyString => None
  | String d s' =>
      match LastIndexByte s' c with
      | Some i => Some (S i)
      | None => if Ascii.eqb d c then Some 0 else None
      end
  end.

Definition errPatternHasSeparator : string := "pattern contains path separator".

(** [prefixAndSuffix(pattern)]: the pattern split at its last [*]; a pattern
    with a path separator is refused. *)
Definition prefixAndSuffix (pattern : string) : string * string + string :=
  if existsb filepath.IsPathSeparator (list_ascii_of_string pattern)
  then inr errPatternHasSeparator
  else
    match LastIndexByte pattern "*" with
    | Some pos =>
        inl (substring 0 pos pattern,
             substring (S pos) (String.length pattern - S pos) pattern)
    | None => inl (pattern, EmptyString)
    end.

(** [joinPath(dir, name)] *)
Definition joinPath (dir name : string) : string :=
  match String.get (String.length dir - 1) dir with
  | Some c =>
      if (0 <? String.length dir) && filepath.IsPathSeparator c then dir +:+ name
      else dir +:+ "/" +:+ name
  | None => dir +:+ "/" +:+ name
  end.

(** The name that [os.CreateTemp(dir, pattern)] gives the file when
    [nextRandom()] returns [random] (decimal digits), or the error of the
    pattern; [tempDir] is what [os.TempDir()] returns. *)
Definition CreateTemp_name (tempDir dir pattern random : string) : string + string :=
  let dir := if String.eqb dir "" then tempDir else dir in
  match prefixAndSuffix pattern with
  | inr err => inr ("createtemp " +:+ pattern +:+ ": " +:+ err)
  | inl (prefix, suffix) => inl (joinPath dir prefix +:+ random +:+ suffix)
  end.

End os.

Module regexp.

(** The fragment of Go's regular expression syntax that the program's one
    pattern uses.  A repetition applies to a character class. *)
Inductive charclass : Type :=
| AnyCharNotNL            (* .   : any character but the line feed *)
| Digit                   (* \d  : an ASCII digit *)
| Literal (c : ascii).    (* \.  : that character *)

Inductive Regexp : Type :=
| OpCharClass (cc : charclass)
| OpPlus (cc : charclass)             (* cc+ , greedy *)
| OpQuest (r : Regexp)                (* r?  , greedy *)
| OpCapture (r : Regexp)              (* (r) , the pattern's only group *)
| OpConcat (r1 r2 : Regexp).

Definition is_digit (c : ascii) : bool :=
  let n := nat_of_ascii c in (48 <=? n)%nat && (n <=? 57)%nat.

Definition class_matches (cc : charclass) (c : ascii) : bool :=
  match cc with
  | AnyCharNotNL => negb (Ascii.eqb c "010")
  | Digit => is_digit c
  | Literal d => Ascii.eqb c d
  end.

(** A group is the pair of byte offsets [start, end) of its text, as in Go's
    [FindStringSubmatchIndex]. *)
Definition group : Type := option (nat * nat).

(** A greedy [cc+] that has already taken one character: one more character
    is tried before the continuation [k] is. *)
Fixpoint plus_loop {A : Type} (cc : charclass) (k : list ascii -> nat -> option A)
    (s : list ascii) (pos : nat) : option A :=
  match s with
  | c :: s' =>
      if class_matches cc c then
        match plus_loop cc k s' (S pos) with
        | Some m => Some m
        | None => k s pos
        end
      else k s pos
  | [] => k s pos
  end.

(** The backtracking search that defines Go's leftmost-first match: [s] is
    the input from offset [pos] on, [g] the group so far, and [k] what is left
    to match; alternatives are tried in the order of their priority. *)
Fixpoint backtrack {A : Type} (r : Regexp) (s : list ascii) (pos : nat) (g : group)
    (k : list ascii -> nat -> group -> option A) : option A :=
  match r with
  | OpCharClass cc =>
      match s with
      | c :: s' => if class_matches cc c then k s' (S pos) g else None
      | [] => None
      end
  | OpPlus cc =>
      match s with
      | c :: s' =>
          if class_matches cc c
          then plus_loop cc (fun s2 p2 => k s2 p2 g) s' (S pos)
          else None
      | [] => None
      end
  | OpQuest r1 =>
      match backtrack r1 s pos g k with
      | Some m => Some m
      | None => k s pos g
      end
  | OpCapture r1 =>
      backtrack r1 s pos g (fun s2 p2 _ => k s2 p2 (Some (pos, p2)))
  | OpConcat r1 r2 =>
      backtrack r1 s pos g (fun s2 p2 g2 => backtrack r2 s2 p2 g2 k)
  end.

(** The match of [r] that starts at the least offset: (start, end, group). *)
Fixpoint search (r : Regexp) (s : list ascii) (pos : nat) : option (nat * nat * group) :=
  match backtrack r s pos None (fun _ e g => Some (pos, e, g)) with
  | Some m => Some m
  | None =>
      match s with
      | _ :: s' => search r s' (S pos)
      | [] => None
      end
  end.

(** [re.FindStringSubmatch(s)]: the text of the leftmost match and of its
    group; [nil] (the empty slice) when there is no match. *)
Definition FindStringSubmatch (r : Regexp) (s : string) : list string :=
  match search r (list_ascii_of_string s) 0 with
  | None => []
  | Some (b, e, g) =>
      [ substring b (e - b) s;
        match g with
        | Some (gb, ge) => substring gb (ge - gb) s
        | None => EmptyString
        end ]
  end.

End regexp.

Module strconv.

Definition digit_value (c : ascii) : Z := (Z.of_nat (nat_of_ascii c) - 48)%Z.

(** The value of a string of decimal digits; [None] when a character is not
    a digit. *)
Fixpoint digits_value (acc : Z) (s : string) : option Z :=
  match s with
  | EmptyString => Some acc
  | String c s' =>
      if regexp.is_digit c then digits_value (acc * 10 + digit_value c)%Z s'
      else None
  end.

Definition MinInt : Z := (- 2 ^ 63)%Z.
Definition MaxInt : Z := (2 ^ 63 - 1)%Z.

(** The double quote that [strconv.Quote] puts around the offending text. *)
Definition dquote : string := String (ascii_of_nat 34) EmptyString.

Definition syntax_error (s : string) : string :=
  "strconv.Atoi: parsing " +:+ dquote +:+ s +:+ dquote +:+ ": invalid syntax".
Definition range_error (s : string) : string :=
  "strconv.Atoi: parsing " +:+ dquote +:+ s +:+ dquote +:+ ": value out of range".

(** [strconv.Atoi(s)]: an optional sign and one or more decimal digits, whose
    value fits the 64-bit [int]. *)
Definition Atoi (s : string) : Z + string :=
  let '(neg, body) :=
    match s with
    | String "-" rest => (true, rest)
    | String "+" rest => (false, rest)
    | _ => (false, s)
    end in
  match body with
  | EmptyString => inr (syntax_error s)
  | _ =>
      match digits_value 0 body with
      | None => inr (syntax_error s)
      | Some v =>
          let n := if neg then (- v)%Z else v in
          if (MinInt <=? n)%Z && (n <=? MaxInt)%Z then inl n
          else inr (range_error s)
      end
  end.

(** [lower(c)]: [c | ('x' - 'X')], the lower case of an ASCII letter. *)
Definition lower (c : ascii) : nat := Nat.lor (nat_of_ascii c) 32.

Definition MaxUint64 : Z := (2 ^ 64 - 1)%Z.

(** [int64(x)] of an unsigned or signed 64-bit value: the wrap-around. *)
Definition int64 (z : Z) : Z := ((z + 2 ^ 63) mod 2 ^ 64 - 2 ^ 63)%Z.

Inductive NumError : Type :=
| ErrSyntax     (* invalid syntax *)
| ErrRange.     (* value out of range *)

(** What [underscoreOK] saw last: the beginning of the number, a digit or
    the base prefix, an underscore, or none of these. *)
Inductive saw : Type := SawStart | SawDigit | SawUnderscore | SawOther.

(** The loop of [underscoreOK] over the number proper. *)
Fixpoint underscore_loop (hex : bool) (last : saw) (s : string) : bool :=
  match s with
  | EmptyString => match last with SawUnderscore => false | _ => true end
  | String c s' =>
      if regexp.is_digit c || (hex && (97 <=? lower c)%nat && (lower c <=? 102)%nat)
      then underscore_loop hex SawDigit s'
      else if Ascii.eqb c "_" then
        match last with
        | SawDigit => underscore_loop hex SawUnderscore s'
        | _ => false
        end
      else
        match last with
        | SawUnderscore => false
        | _ => underscore_loop hex SawOther s'
        end
  end.

(** [underscoreOK(s)]: underscores only between digits, or between the base
    prefix and a digit. *)
Definition underscoreOK (s : string) : bool :=
  let s := match s with
           | String "-" rest => rest
           | String "+" rest => rest
           | _ => s
           end in
  match s with
  | String "0" (String c rest) =>
      if (lower c =? 98)%nat || (lower c =? 111)%nat || (lower c =? 120)%nat
      then underscore_loop (lower c =? 120)%nat SawDigit rest
      else underscore_loop false SawStart s
  | _ => underscore_loop false SawStart s
  end.

(** The loop of [ParseUint(s, 0, 64)] over the digits, for the base that
    the prefix gave: [n] is the value so far, in 64 unsigned bits. *)
Fixpoint uint_loop (base n : Z) (underscores : bool) (s : string)
    : Z * bool + NumError :=
  match s with
  | EmptyString => inl (n, underscores)
  | String c s' =>
      if Ascii.eqb c "_" then uint_loop base n true s'
      else
        let d := if regexp.is_digit c then Some (digit_value c)
                 else if (97 <=? lower c)%nat && (lower c <=? 122)%nat
                      then Some (Z.of_nat (lower c) - 97 + 10)%Z
                      else None in
        match d with
        | None => inr ErrSyntax
        | Some d =>
            if (base <=? d)%Z then inr ErrSyntax
            else if (MaxUint64 / base + 1 <=? n)%Z then inr ErrRange
            else
              let n := (n * base)%Z in
              let n1 := ((n + d) mod 2 ^ 64)%Z in
              if (n1 <? n)%Z || (MaxUint64 <? n1)%Z then inr ErrRange
              else uint_loop base n1 underscores s'
        end
  end.

(** [strconv.ParseUint(s, 0, 64)]: the value (the greatest one when out of
    range) and the error. *)
Definition ParseUint (s : string) : Z * option NumError :=
  match s with
  | EmptyString => (0%Z, Some ErrSyntax)
  | String c0 tl =>
      let '(base, body) :=
        if Ascii.eqb c0 "0" then
          match tl with
          | String c1 body =>
              if (3 <=? String.length s)%nat && (lower c1 =? 98)%nat then (2%Z, body)
              else if (3 <=? String.length s)%nat && (lower c1 =? 111)%nat then (8%Z, body)
              else if (3 <=? String.length s)%nat && (lower c1 =? 120)%nat then (16%Z, body)
              else (8%Z, tl)
          | EmptyString => (8%Z, tl)
          end
        else (10%Z, s) in
      match uint_loop base 0 false body with
      | inr ErrSyntax => (0%Z, Some ErrSyntax)
      | inr ErrRange => (MaxUint64, Some ErrRange)
      | inl (n, underscores) =>
          if underscores && negb (underscoreOK s) then (0%Z, Some ErrSyntax)
          else (n, None)
      end
  end.

(** [strconv.ParseInt(s, 0, 64)]: a sign, a base prefix ([0b], [0o], [0x]
    or [0]) and digits that underscores may separate. *)
Definition ParseInt (s : string) : Z + NumError :=
  match s with
  | EmptyString => inr ErrSyntax
  | _ =>
      let '(neg, body) :=
        match s with
        | String "+" rest => (false, rest)
        | String "-" rest => (true, rest)
        | _ => (false, s)
        end in
      let '(un, err) := ParseUint body in
      match err with
      | Some ErrSyntax => inr ErrSyntax
      | _ =>
          if negb neg && (2 ^ 63 <=? un)%Z then inr ErrRange
          else if neg && (2 ^ 63 <? un)%Z then inr ErrRange
          else
            let n := int64 un in
            inl (if neg then int64 (- n) else n)
      end
  end.

End strconv.

(** [fmt.Sprintf("%d", n)]. *)
Definition itoa (n : Z) : string :=
  NilZero.string_of_int (Z.to_int n).

Module bits.

(** [bits.Len(x)]: the number of bits needed to write [x]; 0 for 0. *)
Definition Len (x : nat) : nat :=
  match x with
  | O => O
  | S _ => S (Nat.log2 x)
  end.

End bits.

(** *** [slices.SortFunc] of golang.org/x/exp/slices

    The pattern-defeating quicksort of the library's [zsortanyfunc.go], on a
    slice modelled as a list that is read and written by index.  The loops
    are written as recursive functions over the number of iterations left.
    An index outside of the slice, on which Go panics, reads the default
    element here and writes nothing. *)

Module pdq.
Section Sort.

Context {E : Type} `{Inhabited E}.
Variable cmp : E -> E -> Z.

(** [cmp(data[i], data[j]) < 0] *)
Definition less (data : list E) (i j : nat) : bool :=
  (cmp (data !!! i) (data !!! j) <? 0)%Z.

(** [data[i], data[j] = data[j], data[i]] *)
Definition swap (data : list E) (i j : nat) : list E :=
  <[i := data !!! j]> (<[j := data !!! i]> data).

(** The inner loop of the insertion sort:
    [for j := i; j > a && less(data[j], data[j-1]); j--]. *)
Fixpoint insert_down (data : list E) (a j : nat) : list E :=
  match j with
  | O => data
  | S j' =>
      if (a <? j) && less data j j' then insert_down (swap data j j') a j'
      else data
  end.

(** [insertionSortCmpFunc(data, a, b)]: [for i := a + 1; i < b; i++]. *)
Definition insertionSortCmpFunc (data : list E) (a b : nat) : list E :=
  fold_left (fun d i => insert_down d a i) (seq (a + 1) (b - (a + 1))) data.

(** The loop of [siftDownCmpFunc]; [root] grows at every turn, so [hi] turns
    are enough. *)
Fixpoint siftDown_loop (fuel : nat) (data : list E) (root hi first : nat) : list E :=
  match fuel with
  | O => data
  | S fuel' =>
      let child := 2 * root + 1 in
      if hi <=? child then data
      else
        let child :=
          if (child + 1 <? hi) && less data (first + child) (first + child + 1)
          then child + 1 else child in
        if negb (less data (first + root) (first + child)) then data
        else siftDown_loop fuel' (swap data (first + root) (first + child)) child hi first
  end.

Definition siftDownCmpFunc (data : list E) (lo hi first : nat) : list E :=
  siftDown_loop hi data lo hi first.

(** [heapSortCmpFunc(data, a, b)]: build the heap ([for i := (hi-1)/2; i >= 0;
    i--]), then pop its greatest element to the end ([for i := hi-1; i >= 0;
    i--]). *)
Definition heapSortCmpFunc (data : list E) (a b : nat) : list E :=
  let first := a in
  let lo := 0 in
  let hi := b - a in
  let data :=
    fold_left (fun d i => siftDownCmpFunc d i hi first)
      (rev (seq 0 (S ((hi - 1) / 2)))) data in
  fold_left (fun d i => siftDownCmpFunc (swap d first (first + i)) lo i first)
    (rev (seq 0 hi)) data.

(** The first loop of [partitionCmpFunc]: [for i <= j && less(data[i],
    data[a]) { i++ }]. *)
Fixpoint skip_less (fuel : nat) (data : list E) (a i j : nat) : nat :=
  match fuel with
  | O => i
  | S fuel' => if (i <=? j) && less data i a then skip_less fuel' data a (S i) j else i
  end.

(** The second loop of [partitionCmpFunc]: [for i <= j && !less(data[j],
    data[a]) { j-- }]; [i] is above [a], so [j] stays a natural number. *)
Fixpoint skip_not_less (data : list E) (a i j : nat) : nat :=
  match j with
  | O => j
  | S j' => if (i <=? j) && negb (less data j a) then skip_not_less data a i j' else j
  end.

(** The main loop of [partitionCmpFunc]; it returns the slice and the final
    [j]. *)
Fixpoint partition_loop (fuel : nat) (data : list E) (a i j : nat) : list E * nat :=
  match fuel with
  | O => (data, j)
  | S fuel' =>
      let i := skip_less (S j - i) data a i j in
      let j := skip_not_less data a i j in
      if j <? i then (data, j)
      else partition_loop fuel' (swap data i j) a (i + 1) (j - 1)
  end.

(** [partitionCmpFunc(data, a, b, pivot)]: (slice, newpivot,
    alreadyPartitioned). *)
Definition partitionCmpFunc (data : list E) (a b pivot : nat) : list E * nat * bool :=
  let data := swap data a pivot in
  let i := a + 1 in
  let j := b - 1 in
  let i := skip_less (S j - i) data a i j in
  let j := skip_not_less data a i j in
  if j <? i then (swap data j a, j, true)
  else
    let data := swap data i j in
    let '(data, j) := partition_loop (b - a) data a (i + 1) (j - 1) in
    (swap data j a, j, false).

(** The loops of [partitionEqualCmpFunc]: [for i <= j && !less(data[a],
    data[i]) { i++ }] and [for i <= j && less(data[a], data[j]) { j-- }]. *)
Fixpoint skip_not_greater (fuel : nat) (data : list E) (a i j : nat) : nat :=
  match fuel with
  | O => i
  | S fuel' =>
      if (i <=? j) && negb (less data a i) then skip_not_greater fuel' data a (S i) j else i
  end.

Fixpoint skip_greater (data : list E) (a i j : nat) : nat :=
  match j with
  | O => j
  | S j' => if (i <=? j) && less data a j then skip_greater data a i j' else j
  end.

Fixpoint partitionEqual_loop (fuel : nat) (data : list E) (a i j : nat) : list E * nat :=
  match fuel with
  | O => (data, i)
  | S fuel' =>
      let i := skip_not_greater (S j - i) data a i j in
      let j := skip_greater data a i j in
      if j <? i then (data, i)
      else partitionEqual_loop fuel' (swap data i j) a (i + 1) (j - 1)
  end.

(** [partitionEqualCmpFunc(data, a, b, pivot)]: (slice, newpivot). *)
Definition partitionEqualCmpFunc (data : list E) (a b pivot : nat) : list E * nat :=
  let data := swap data a pivot in
  partitionEqual_loop (S (b - a)) data a (a + 1) (b - 1).

(** The scan of [partialInsertionSortCmpFunc]: [for i < b && !less(data[i],
    data[i-1]) { i++ }]. *)
Fixpoint scan_ordered (fuel : nat) (data : list E) (i b : nat) : nat :=
  match fuel with
  | O => i
  | S fuel' =>
      if (i <? b) && negb (less data i (i - 1)) then scan_ordered fuel' data (S i) b else i
  end.

(** [for j := i - 1; j >= 1; j-- { if !less(data[j], data[j-1]) { break };
    swap }], from [j]. *)
Fixpoint shift_left (data : list E) (j : nat) : list E :=
  match j with
  | O => data
  | S j' => if less data j j' then shift_left (swap data j j') j' else data
  end.

(** [for j := i + 1; j < b; j++ { if !less(data[j], data[j-1]) { break };
    swap }], from [j], with [fuel = b - j] turns left. *)
Fixpoint shift_right (fuel : nat) (data : list E) (j : nat) : list E :=
  match fuel with
  | O => data
  | S fuel' =>
      if less data j (j - 1) then shift_right fuel' (swap data j (j - 1)) (S j) else data
  end.

Definition maxSteps : nat := 5.
Definition shortestShifting : nat := 50.

(** The outer loop of [partialInsertionSortCmpFunc], with [steps] turns
    left. *)
Fixpoint partial_loop (steps : nat) (data : list E) (a b i : nat) : list E * bool :=
  match steps with
  | O => (data, false)
  | S steps' =>
      let i := scan_ordered (b - i) data i b in
      if i =? b then (data, true)
      else if b - a <? shortestShifting then (data, false)
      else
        let data := swap data i (i - 1) in
        let data := if 2 <=? i - a then shift_left data (i - 1) else data in
        let data := if 2 <=? b - i then shift_right (b - (i + 1)) data (i + 1) else data in
        partial_loop steps' data a b i
  end.

(** [partialInsertionSortCmpFunc(data, a, b)]: (slice, sorted?). *)
Definition partialInsertionSortCmpFunc (data : list E) (a b : nat) : list E * bool :=
  partial_loop maxSteps data a b (a + 1).

(** The generator of [breakPatternsCmpFunc]: xorshift on 64 bits. *)
Definition xorshift_next (r : Z) : Z :=
  let r := Z.lxor r (Z.shiftl r 13 mod 2 ^ 64) in
  let r := Z.lxor r (Z.shiftr r 7) in
  Z.lxor r (Z.shiftl r 17 mod 2 ^ 64).

Definition nextPowerOfTwo (length : nat) : Z := Z.shiftl 1 (Z.of_nat (bits.Len length)).

(** One turn of the loop of [breakPatternsCmpFunc], for the random number
    [random]. *)
Definition break_one (data : list E) (a length idx i : nat) (random : Z) : list E :=
  let modulus := nextPowerOfTwo length in
  let other := Z.to_nat (Z.land random (modulus - 1)) in
  let other := if length <=? other then other - length else other in
  swap data (idx - 1 + i) (a + other).

(** [breakPatternsCmpFunc(data, a, b)] *)
Definition breakPatternsCmpFunc (data : list E) (a b : nat) : list E :=
  let length := b - a in
  if 8 <=? length then
    let idx := a + (length / 4) * 2 - 1 in
    let r1 := xorshift_next (Z.of_nat length) in
    let r2 := xorshift_next r1 in
    let r3 := xorshift_next r2 in
    let data := break_one data a length idx 0 r1 in
    let data := break_one data a length idx 1 r2 in
    break_one data a length idx 2 r3
  else data.

Inductive sortedHint : Type := unknownHint | increasingHint | decreasingHint.

(** [order2CmpFunc(data, a, b, swaps)]: (x, y, swaps). *)
Definition order2CmpFunc (data : list E) (a b swaps : nat) : nat * nat * nat :=
  if less data b a then (b, a, S swaps) else (a, b, swaps).

(** [medianCmpFunc(data, a, b, c, swaps)]: (median, swaps). *)
Definition medianCmpFunc (data : list E) (a b c swaps : nat) : nat * nat :=
  let '(a, b, swaps) := order2CmpFunc data a b swaps in
  let '(b, c, swaps) := order2CmpFunc data b c swaps in
  let '(a, b, swaps) := order2CmpFunc data a b swaps in
  (b, swaps).

Definition medianAdjacentCmpFunc (data : list E) (a swaps : nat) : nat * nat :=
  medianCmpFunc data (a - 1) a (a + 1) swaps.

Definition shortestNinther : nat := 50.
Definition maxSwaps : nat := 4 * 3.

(** [choosePivotCmpFunc(data, a, b)]: (pivot, hint). *)
Definition choosePivotCmpFunc (data : list E) (a b : nat) : nat * sortedHint :=
  let l := b - a in
  let swaps := 0 in
  let i := a + l / 4 * 1 in
  let j := a + l / 4 * 2 in
  let k := a + l / 4 * 3 in
  let '(j, swaps) :=
    if 8 <=? l then
      let '(i, j, k, swaps) :=
        if shortestNinther <=? l then
          let '(i, swaps) := medianAdjacentCmpFunc data i swaps in
          let '(j, swaps) := medianAdjacentCmpFunc data j swaps in
          let '(k, swaps) := medianAdjacentCmpFunc data k swaps in
          (i, j, k, swaps)
        else (i, j, k, swaps) in
      medianCmpFunc data i j k swaps
    else (j, swaps) in
  if swaps =? 0 then (j, increasingHint)
  else if swaps =? maxSwaps then (j, decreasingHint)
  else (j, unknownHint).

(** The loop of [reverseRangeCmpFunc]: [for i < j { swap; i++; j-- }]. *)
Fixpoint reverse_loop (fuel : nat) (data : list E) (i j : nat) : list E :=
  match fuel with
  | O => data
  | S fuel' =>
      if i <? j then reverse_loop fuel' (swap data i j) (i + 1) (j - 1)
      else data
  end.

Definition reverseRangeCmpFunc (data : list E) (a b : nat) : list E :=
  reverse_loop (b - a) data a (b - 1).

Definition maxInsertion : nat := 12.

Definition is_increasing (h : sortedHint) : bool :=
  match h with increasingHint => true | _ => false end.
Definition is_decreasing (h : sortedHint) : bool :=
  match h with decreasingHint => true | _ => false end.

(** [pdqsortCmpFunc(data, a, b, limit)]: one turn of its loop per unit of
    [fuel]; the recursive call of the source starts with both flags set. *)
Fixpoint pdqsort_loop (fuel : nat) (data : list E) (a b limit : nat)
    (wasBalanced wasPartitioned : bool) : list E :=
  match fuel with
  | O => data
  | S fuel' =>
      let length := b - a in
      if length <=? maxInsertion then insertionSortCmpFunc data a b
      else if limit =? 0 then heapSortCmpFunc data a b
      else
        let '(data, limit) :=
          if negb wasBalanced then (breakPatternsCmpFunc data a b, limit - 1)
          else (data, limit) in
        let '(pivot, hint) := choosePivotCmpFunc data a b in
        let '(data, pivot, hint) :=
          if is_decreasing hint
          then (reverseRangeCmpFunc data a b, (b - 1) - (pivot - a), increasingHint)
          else (data, pivot, hint) in
        let '(data, sorted) :=
          if wasBalanced && wasPartitioned && is_increasing hint
          then partialInsertionSortCmpFunc data a b
          else (data, false) in
        if sorted then data
        else if (0 <? a) && negb (less data (a - 1) pivot) then
          let '(data, mid) := partitionEqualCmpFunc data a b pivot in
          pdqsort_loop fuel' data mid b limit wasBalanced wasPartitioned
        else
          let '(data, mid, alreadyPartitioned) := partitionCmpFunc data a b pivot in
          let leftLen := mid - a in
          let rightLen := b - mid in
          let balanceThreshold := length / 8 in
          if leftLen <? rightLen then
            let data := pdqsort_loop fuel' data a mid limit true true in
            pdqsort_loop fuel' data (mid + 1) b limit
              (balanceThreshold <=? leftLen) alreadyPartitioned
          else
            let data := pdqsort_loop fuel' data (mid + 1) b limit true true in
            pdqsort_loop fuel' data a mid limit
              (balanceThreshold <=? rightLen) alreadyPartitioned
  end.

Definition pdqsortCmpFunc (data : list E) (a b limit : nat) : list E :=
  pdqsort_loop (S (b - a)) data a b limit true true.

(** [slices.SortFunc(x, cmp)] *)
Definition SortFunc (x : list E) : list E :=
  let n := length x in
  pdqsortCmpFunc x 0 n (bits.Len n).

End Sort.
End pdq.

(** *** The run configuration

    The package-level variables that [parseArgs] sets from the command line
    and that nothing writes afterwards. *)

Record Config : Type := {
  directorySearchPath : string;
  fileExtensions : string;
  watermarkFilePath : string;
  watermarkImageScale : Z;
  outputDimensionHeight : Z;
  outputDimensionWidth : Z;
  outputFilePath : string;
  workDirectory : string
}.

(** *** The command line

    [parseArgs] defines eight flags on the command-line flag set of package
    [flag], whose error handling is [ExitOnError], and parses [os.Args[1:]]. *)

Module flag.

(** Why parsing stopped with an error: the messages of [FlagSet.parseOne],
    by kind. *)
Inductive failure : Type :=
| BadSyntax (arg : string)                     (* bad flag syntax: arg *)
| ErrHelp                                      (* flag: help requested *)
| NotDefined (name : string)                   (* flag provided but not defined: -name *)
| NeedsArgument (name : string)                (* flag needs an argument: -name *)
| InvalidValue (value name err : string).      (* invalid value "value" for flag -name: err *)

(** [numError(err)]: the text for a number that does not parse. *)
Definition numError (err : strconv.NumError) : string :=
  match err with
  | strconv.ErrSyntax => "parse error"
  | strconv.ErrRange => "value out of range"
  end.

(** One argument as [parseOne] reads it. *)
Inductive token : Type :=
| NonFlag                                     (* shorter than two bytes, or no leading minus *)
| Terminator                                  (* [--] *)
| Malformed                                   (* [-=x], [---x] *)
| Flag (name : string) (value : option string).

(** The text before the first [=] and, if there is one, the text after. *)
Fixpoint split_equals (s : string) : string * option string :=
  match s with
  | EmptyString => (EmptyString, None)
  | String c s' =>
      if Ascii.eqb c "=" then (EmptyString, Some s')
      else let '(name, value) := split_equals s' in (String c name, value)
  end.

Definition classify (s : string) : token :=
  match s with
  | String "-" (String c1 rest) =>
      if Ascii.eqb c1 "-" && (String.length s =? 2) then Terminator
      else
        let name := if Ascii.eqb c1 "-" then rest else String c1 rest in
        match name with
        | EmptyString => Malformed
        | String c0 name' =>
            if Ascii.eqb c0 "-" || Ascii.eqb c0 "=" then Malformed
            else
              (* an equals sign cannot be the first byte of the name *)
              let '(n, value) := split_equals name' in
              Flag (String c0 n) value
        end
  | _ => NonFlag
  end.

(** [intValue.Set(s)] *)
Definition intSet (s : string) : Z + string :=
  match strconv.ParseInt s with
  | inl v => inl v
  | inr err => inr (numError err)
  end.

(** The flags that [parseArgs] defines, each with what its [Value.Set] does
    to the variables. *)
Definition formal (name : string) : option (string -> Config -> Config + string) :=
  if String.eqb name "dir" then
    Some (fun v c => inl
      {| directorySearchPath := v; fileExtensions := fileExtensions c;
         watermarkFilePath := watermarkFilePath c;
         watermarkImageScale := watermarkImageScale c;
         outputDimensionHeight := outputDimensionHeight c;
         outputDimensionWidth := outputDimensionWidth c;
         outputFilePath := outputFilePath c; workDirectory := workDirectory c |})
  else if String.eqb name "ext" then
    Some (fun v c => inl
      {| directorySearchPath := directorySearchPath c; fileExtensions := v;
         watermarkFilePath := watermarkFilePath c;
         watermarkImageScale := watermarkImageScale c;
         outputDimensionHeight := outputDimensionHeight c;
         outputDimensionWidth := outputDimensionWidth c;
         outputFilePath := outputFilePath c; workDirectory := workDirectory c |})
  else if String.eqb name "watermark" then
    Some (fun v c => inl
      {| directorySearchPath := directorySearchPath c;
         fileExtensions := fileExtensions c; watermarkFilePath := v;
         watermarkImageScale := watermarkImageScale c;
         outputDimensionHeight := outputDimensionHeight c;
         outputDimensionWidth := outputDimensionWidth c;
         outputFilePath := outputFilePath c; workDirectory := workDirectory c |})
  else if String.eqb name "size" then
    Some (fun v c =>
      match intSet v with
      | inr err => inr err
      | inl n => inl
          {| directorySearchPath := directorySearchPath c;
             fileExtensions := fileExtensions c;
             watermarkFilePath := watermarkFilePath c; watermarkImageScale := n;
             outputDimensionHeight := outputDimensionHeight c;
             outputDimensionWidth := outputDimensionWidth c;
             outputFilePath := outputFilePath c; workDirectory := workDirectory c |}
      end)
  else if String.eqb name "height" then
    Some (fun v c =>
      match intSet v with
      | inr err => inr err
      | inl n => inl
          {| directorySearchPath := directorySearchPath c;
             fileExtensions := fileExtensions c;
             watermarkFilePath := watermarkFilePath c;
             watermarkImageScale := watermarkImageScale c;
             outputDimensionHeight := n;
             outputDimensionWidth := outputDimensionWidth c;
             outputFilePath := outputFilePath c; workDirectory := workDirectory c |}
      end)
  else if String.eqb name "width" then
    Some (fun v c =>
      match intSet v with
      | inr err => inr err
      | inl n => inl
          {| directorySearchPath := directorySearchPath c;
             fileExtensions := fileExtensions c;
             watermarkFilePath := watermarkFilePath c;
             watermarkImageScale := watermarkImageScale c;
             outputDimensionHeight := outputDimensionHeight c;
             outputDimensionWidth := n;
             outputFilePath := outputFilePath c; workDirectory := workDirectory c |}
      end)
  else if String.eqb name "output" then
    Some (fun v c => inl
      {| directorySearchPath := directorySearchPath c;
         fileExtensions := fileExtensions c;
         watermarkFilePath := watermarkFilePath c;
         watermarkImageScale := watermarkImageScale c;
         outputDimensionHeight := outputDimensionHeight c;
         outputDimensionWidth := outputDimensionWidth c;
         outputFilePath := v; workDirectory := workDirectory c |})
  else if String.eqb name "workdir" then
    Some (fun v c => inl
      {| directorySearchPath := directorySearchPath c;
         fileExtensions := fileExtensions c;
         watermarkFilePath := watermarkFilePath c;
         watermarkImageScale := watermarkImageScale c;
         outputDimensionHeight := outputDimensionHeight c;
         outputDimensionWidth := outputDimensionWidth c;
         outputFilePath := outputFilePath c; workDirectory := v |})
  else None.

(** How [flag.Parse()] ends: the variables and the arguments that are left,
    or [os.Exit(code)] after the message and the usage on standard error. *)
Inductive parsed : Type :=
| Parsed (cfg : Config) (args : list string)
| Exit (code : Z) (why : failure).

(** [flag.Parse()]: [parseOne] as long as it sees a flag. *)
Fixpoint Parse (cfg : Config) (args : list string) : parsed :=
  match args with
  | [] => Parsed cfg []
  | s :: rest =>
      match classify s with
      | NonFlag => Parsed cfg args
      | Terminator => Parsed cfg rest
      | Malformed => Exit 2 (BadSyntax s)
      | Flag name value =>
          match formal name with
          | None =>
              if String.eqb name "help" || String.eqb name "h" then Exit 0 ErrHelp
              else Exit 2 (NotDefined name)
          | Some set =>
              match value with
              | Some v =>
                  match set v cfg with
                  | inl cfg' => Parse cfg' rest
                  | inr err => Exit 2 (InvalidValue v name err)
                  end
              | None =>
                  (* the value is the next argument, whatever it looks like *)
                  match rest with
                  | v :: rest' =>
                      match set v cfg with
                      | inl cfg' => Parse cfg' rest'
                      | inr err => Exit 2 (InvalidValue v name err)
                      end
                  | [] => Exit 2 (NeedsArgument name)
                  end
              end
          end
      end
  end.

End flag.

(** The values of the variables before [flag.Parse()]: the defaults of the
    flags. *)
Definition defaults : Config :=
  {| directorySearchPath := "";
     fileExtensions := ".jpg,.jpeg";
     watermarkFilePath := "";
     watermarkImageScale := 4;
     outputDimensionHeight := 1500;
     outputDimensionWidth := 1500;
     outputFilePath := "";
     workDirectory := ".watermarker-workdir" |}.

(** [parseArgs()], for the arguments [os.Args[1:]]. *)
Definition parseArgs (args : list string) : flag.parsed :=
  flag.Parse defaults args.

(** *** What the program does to the outside world

    The program reads nothing back from what it writes, so its effects are
    kept as a trace, oldest event first. *)

Inductive event : Type :=
| Println (line : string)           (* a line on standard output *)
| Exec (argv : list string)         (* an external command, run to its end *)
| Mkdir (path : string)             (* os.Mkdir, its error ignored *)
| CreateTemp (name : string)        (* os.CreateTemp made this file *)
| Remove (path : string).           (* os.Remove, its error ignored *)

Definition trace : Type := list event.

(** The temporary files that exist after a trace. *)
Fixpoint temp_files (present : list string) (t : trace) : list string :=
  match t with
  | [] => present
  | CreateTemp name :: t' => temp_files (present ++ [name]) t'
  | Remove path :: t' =>
      temp_files (filter (fun f => negb (String.eqb f path)) present) t'
  | _ :: t' => temp_files present t'
  end.

(** What the operating system and the external tools answer.  The answers
    are those of one run: [osCreateTemp who dir pattern] is the answer to the
    call made for the page whose source path is [who].  [CombinedOutput]
    gives every command an output and an error or none: an [Env] describes a
    run in which every command that is started comes back.  A run in which
    [convert] or [magick] never returns has no [Env], and nothing below
    speaks of one. *)
Record Env : Type := {
  osCreateTemp : string -> string -> string -> string + string;
  CombinedOutput : list string -> string * option string
}.

(** *** The directory tree under the search path *)

Local Unset Elimination Schemes.

Inductive entry : Type :=
| File (name : string)                       (* anything but a directory *)
| Dir (name : string) (children : list entry)  (* in the order of os.ReadDir *)
| UnreadableDir (name : string) (err : string).

Local Set Elimination Schemes.

Definition entry_name (d : entry) : string :=
  match d with
  | File n => n
  | Dir n _ => n
  | UnreadableDir n _ => n
  end.

(** [d.IsDir()] *)
Definition IsDir (d : entry) : bool :=
  match d with
  | File _ => false
  | _ => true
  end.

(** The search path itself: missing (os.Lstat fails), or an entry whose own
    name is not used. *)
Inductive root : Type :=
| Missing (err : string)
| Root (d : entry).

(** [walkDir(path, d, fn)] of path/filepath, for a callback that threads a
    state and returns an optional error; the callback of this program never
    returns [SkipDir] or [SkipAll]. *)
Fixpoint walkDir {S : Type}
    (fn : string -> bool -> option string -> S -> S * option string)
    (path : string) (d : entry) (st : S) : S * option string :=
  match fn path (IsDir d) None st with
  | (st1, Some e) => (st1, Some e)
  | (st1, None) =>
      match d with
      | File _ => (st1, None)
      | UnreadableDir _ e => fn path true (Some e) st1
      | Dir _ children =>
          (fix walk_children (ds : list entry) (st : S) : S * option string :=
             match ds with
             | [] => (st, None)
             | d1 :: ds' =>
                 match walkDir fn (filepath.Join path (entry_name d1)) d1 st with
                 | (st2, Some e) => (st2, Some e)
                 | (st2, None) => walk_children ds' st2
                 end
             end) children st1
      end
  end.

(** [filepath.WalkDir(root, fn)] *)
Definition WalkDir {S : Type}
    (fn : string -> bool -> option string -> S -> S * option string)
    (path : string) (r : root) (st : S) : S * option string :=
  match r with
  | Missing e => fn path false (Some e) st
  | Root d => walkDir fn path d st
  end.

(** The walker's state: the paths sent on the [ingest] channel and the lines
    it printed, oldest first. *)
Record walker : Type := {
  sent : list string;
  skipped : list string
}.

(** The function literal passed to [filepath.WalkDir]. *)
Definition walkFn (exts : list string) (path : string) (isDir : bool)
    (err : option string) (w : walker) : walker * option string :=
  match err with
  | Some e => (w, Some e)
  | None =>
      if isDir then (w, None)
      else if negb (slices.Contains exts (filepath.Ext path)) then
        ({| sent := sent w; skipped := skipped w ++ [ "skipping: " +:+ path ] |}, None)
      else ({| sent := sent w ++ [ path ]; skipped := skipped w |}, None)
  end.

(** [walkDirectorySearchPath(ingest)]: what was sent and printed, and the
    error it panics with, if any. *)
Definition walkDirectorySearchPath (cfg : Config) (fs : root) : walker * option string :=
  let exts := strings.Split (fileExtensions cfg) "," in
  WalkDir (walkFn exts) (directorySearchPath cfg) fs {| sent := []; skipped := [] |}.

(** *** Pages *)

Record page : Type := {
  filepath : string;
  number : Z;
  tmpPath : string
}.

#[global] Instance page_inhabited : Inhabited page :=
  populate {| filepath := ""; number := 0; tmpPath := "" |}.

(** The 64-bit [int]: a result wraps around. *)
Definition wrap_int (z : Z) : Z := (z + 2 ^ 63) mod 2 ^ 64 - 2 ^ 63.

(** [var pageNumberRegex = regexp.MustCompile(`.+(\d+)\.?`)] *)
Definition pageNumberRegex : regexp.Regexp :=
  regexp.OpConcat (regexp.OpPlus regexp.AnyCharNotNL)
    (regexp.OpConcat (regexp.OpCapture (regexp.OpPlus regexp.Digit))
       (regexp.OpQuest (regexp.OpCharClass (regexp.Literal ".")))).

(** The body of the loop of [ingestPages] for one path received from the
    channel: the page it appends. *)
Definition indexPage (path : string) : outcome page :=
  let filename := filepath.Base path in
  let matches := regexp.FindStringSubmatch pageNumberRegex filename in
  match matches !! 1 with
  | None =>
      Panic ("runtime error: index out of range [1] with length "
             +:+ itoa (Z.of_nat (length matches)))
  | Some m1 =>
      if String.length m1 =? 0 then
        Error ("no page number found in filename: " +:+ filename)
      else
        match strconv.Atoi m1 with
        | inr err => Error err
        | inl n => Ok {| filepath := path; number := n; tmpPath := "" |}
        end
  end.

(** The loop of [ingestPages] over the paths received: the pages appended and
    the lines printed. *)
Fixpoint ingest_loop (paths : list string) (pages : list page) (out : trace)
    : outcome (list page) * trace :=
  match paths with
  | [] => (Ok pages, out)
  | path :: paths' =>
      match indexPage path with
      | Ok p => ingest_loop paths' (pages ++ [ p ]) (out ++ [ Println ("found page: " +:+ path) ])
      | Error msg => (Error msg, out)
      | Panic msg => (Panic msg, out)
      end
  end.

(** The comparison passed to [slices.SortFunc]: [i.number - j.number]. *)
Definition page_cmp (i j : page) : Z := wrap_int (number i - number j).

(** [ingestPages()]: the walker runs in its own goroutine and hands every
    path over an unbuffered channel; a failure of the walk panics there and
    ends the process.  The walk is taken to its end before the receiving
    loop: the trace lists the walker's lines before the loop's, and of the
    two panics that can race (the walker's and the loop's) it keeps the
    loop's failure.  In a run that ends without a failure, which lines are
    printed and which paths become pages does not depend on this; the order
    in which the lines of the two goroutines reach standard output, and
    which lines of the walker still appear once the loop has failed, are not
    described. *)
Definition ingestPages (cfg : Config) (fs : root) : outcome (list page) * trace :=
  let '(w, walk_err) := walkDirectorySearchPath cfg fs in
  match ingest_loop (sent w) [] (map Println (skipped w)) with
  | (Ok pages, out) =>
      match walk_err with
      | Some e => (Panic e, out)
      | None => (Ok (pdq.SortFunc page_cmp pages), out)
      end
  | other => other
  end.

(** *** The per-page transform *)

(** [printCommandOutput(b, err)] *)
Definition printCommandOutput (b : string) (err : option string) : trace :=
  match err with
  | Some _ => [ Println b ]
  | None => []
  end.

Definition with_tmpPath (p : page) (name : string) : page :=
  {| filepath := filepath p; number := number p; tmpPath := name |}.

(** [p.createTempFile()]: the page as the method leaves it, the error
    returned and the effects. *)
Definition createTempFile (env : Env) (cfg : Config) (p : page)
    : page * option string * trace :=
  let ext := filepath.Ext (filepath p) in
  match osCreateTemp env (filepath p) (workDirectory cfg) ("watermarker-*" +:+ ext) with
  | inr err => (p, Some err, [ Mkdir (workDirectory cfg) ])
  | inl name =>
      (with_tmpPath p name, None, [ Mkdir (workDirectory cfg); CreateTemp name ])
  end.

Definition convert_argv (cfg : Config) (p : page) : list string :=
  let dims := itoa (outputDimensionWidth cfg) +:+ "x" +:+ itoa (outputDimensionHeight cfg) in
  [ "convert"; filepath p; "-auto-orient"; "-resize"; dims; "-density"; "150";
    "-strip"; tmpPath p ].

(** [p.convert()] *)
Definition convert (env : Env) (cfg : Config) (p : page) : option string * trace :=
  let argv := convert_argv cfg p in
  let '(b, err) := CombinedOutput env argv in
  (err, Exec argv :: printCommandOutput b err).

Definition watermark_argv (cfg : Config) (p : page) : list string :=
  let scale := itoa (watermarkImageScale cfg) in
  [ "magick"; tmpPath p; "-colorspace"; "sRGB"; "-set"; "option:WMSIZE";
    "%[fx:w/" +:+ scale +:+ "]x%[fx:h/" +:+ scale +:+ "]";
    "("; watermarkFilePath cfg; "-resize"; "%[WMSIZE]"; ")";
    "-geometry"; "+25+25"; "-composite"; tmpPath p ].

(** [p.watermark()] *)
Definition watermark (env : Env) (cfg : Config) (p : page) : option string * trace :=
  let argv := watermark_argv cfg p in
  let '(b, err) := CombinedOutput env argv in
  (err, Exec argv :: printCommandOutput b err).

(** [len(watermarkFilePath) > 0] *)
Definition watermark_enabled (cfg : Config) : bool :=
  0 <? String.length (watermarkFilePath cfg).

(** [p.generate()] *)
Definition generate (env : Env) (cfg : Config) (p : page)
    : page * option string * trace :=
  let '(p, err, t1) := createTempFile env cfg p in
  match err with
  | Some e => (p, Some e, t1)
  | None =>
      let '(err, t2) := convert env cfg p in
      match err with
      | Some e => (p, Some e, t1 ++ t2)
      | None =>
          if watermark_enabled cfg then
            let '(err, t3) := watermark env cfg p in
            (p, err, t1 ++ t2 ++ t3)
          else (p, None, t1 ++ t2)
      end
  end.

(** What the goroutine of [genProcessedPages] prints after [p.generate()]. *)
Definition report (p : page) (err : option string) : trace :=
  match err with
  | Some _ => [ Println ("error processing page: " +:+ filepath p) ]
  | None => [ Println ("processed page: " +:+ filepath p) ]
  end.

(** *** The transform dispatcher

    [genProcessedPages] starts one goroutine per page and waits for all of
    them on a [sync.WaitGroup].  A goroutine is followed through the steps of
    its body; the scheduler picks, at every step, the thread that moves. *)

Inductive pc : Type :=
| pcCreateTemp                     (* about to call p.createTempFile() *)
| pcConvert                        (* about to call p.convert() *)
| pcWatermark                      (* about to call p.watermark() *)
| pcReport (err : option string)   (* p.generate() returned err *)
| pcDone                           (* about to run the deferred wg.Done() *)
| pcExit.                          (* the goroutine has ended *)

Definition task_step (env : Env) (cfg : Config) (c : pc) (p : page) : pc * page * trace :=
  match c with
  | pcCreateTemp =>
      let '(p', err, t) := createTempFile env cfg p in
      (match err with Some e => pcReport (Some e) | None => pcConvert end, p', t)
  | pcConvert =>
      let '(err, t) := convert env cfg p in
      (match err with
       | Some e => pcReport (Some e)
       | None => if watermark_enabled cfg then pcWatermark else pcReport None
       end, p, t)
  | pcWatermark =>
      let '(err, t) := watermark env cfg p in
      (pcReport err, p, t)
  | pcReport err => (pcDone, p, report p err)
  | pcDone => (pcExit, p, [])
  | pcExit => (pcExit, p, [])
  end.

Inductive mainpc : Type :=
| mSpawn (i : nat)      (* in the loop, about to start the goroutine of page i *)
| mWait                 (* in wg.Wait() *)
| mReturned.            (* genProcessedPages has returned *)

Record dispatch : Type := {
  d_pages : list page;            (* the slice the goroutines point into *)
  d_tasks : list (option pc);     (* None: goroutine not started yet *)
  d_wg : Z;                       (* the counter of the WaitGroup *)
  d_main : mainpc;
  d_trace : trace
}.

(** The state after [wg.Add(len(pages))]. *)
Definition dispatch_init (pages : list page) : dispatch :=
  {| d_pages := pages;
     d_tasks := replicate (length pages) None;
     d_wg := Z.of_nat (length pages);
     d_main := mSpawn 0;
     d_trace := [] |}.

Inductive thread : Type :=
| Main
| Task (i : nat).

(** One step of the thread [who]; [None] when it cannot move. *)
Definition dispatch_step (env : Env) (cfg : Config) (who : thread) (s : dispatch)
    : option dispatch :=
  match who with
  | Main =>
      match d_main s with
      | mSpawn i =>
          if i <? length (d_pages s) then
            Some {| d_pages := d_pages s;
                    d_tasks := <[i := Some pcCreateTemp]> (d_tasks s);
                    d_wg := d_wg s;
                    d_main := mSpawn (S i);
                    d_trace := d_trace s |}
          else
            Some {| d_pages := d_pages s; d_tasks := d_tasks s; d_wg := d_wg s;
                    d_main := mWait; d_trace := d_trace s |}
      | mWait =>
          if (d_wg s =? 0)%Z then
            Some {| d_pages := d_pages s; d_tasks := d_tasks s; d_wg := d_wg s;
                    d_main := mReturned; d_trace := d_trace s |}
          else None
      | mReturned => None
      end
  | Task i =>
      match d_tasks s !! i, d_pages s !! i with
      | Some (Some c), Some p =>
          match c with
          | pcExit => None
          | pcDone =>
              Some {| d_pages := d_pages s;
                      d_tasks := <[i := Some pcExit]> (d_tasks s);
                      d_wg := (d_wg s - 1)%Z;
                      d_main := d_main s;
                      d_trace := d_trace s |}
          | _ =>
              let '(c', p', t) := task_step env cfg c p in
              Some {| d_pages := <[i := p']> (d_pages s);
                      d_tasks := <[i := Some c']> (d_tasks s);
                      d_wg := d_wg s;
                      d_main := d_main s;
                      d_trace := d_trace s ++ t |}
          end
      | _, _ => None
      end
  end.

(** A run under a schedule; [None] when the schedule picks a thread that
    cannot move. *)
Fixpoint dispatch_run (env : Env) (cfg : Config) (sched : list thread) (s : dispatch)
    : option dispatch :=
  match sched with
  | [] => Some s
  | who :: sched' =>
      match dispatch_step env cfg who s with
      | Some s' => dispatch_run env cfg sched' s'
      | None => None
      end
  end.

(** [genProcessedPages(pages)] under a schedule that lets it return: the
    slice as the goroutines left it, and the effects. *)
Definition genProcessedPages (env : Env) (cfg : Config) (pages : list page)
    (sched : list thread) : option (list page * trace) :=
  match dispatch_run env cfg sched (dispatch_init pages) with
  | Some s =>
      match d_main s with
      | mReturned => Some (d_pages s, d_trace s)
      | _ => None
      end
  | None => None
  end.

(** The steps of the goroutine of page [i] from [c] to its end. *)
Fixpoint task_schedule (env : Env) (cfg : Config) (fuel i : nat) (c : pc) (p : page)
    : list thread :=
  match fuel with
  | O => []
  | S fuel' =>
      match c with
      | pcExit => []
      | _ =>
          let '(c', p', _) := task_step env cfg c p in
          Task i :: task_schedule env cfg fuel' i c' p'
      end
  end.

(** A schedule that starts every goroutine, runs them one after the other and
    then lets [wg.Wait()] return. *)
Definition sequential_schedule (env : Env) (cfg : Config) (pages : list page)
    : list thread :=
  replicate (S (length pages)) Main
  ++ concat (imap (fun i p => task_schedule env cfg 5 i pcCreateTemp p) pages)
  ++ [ Main ].

(** *** Bundling and the whole run *)

Definition bundle_argv (cfg : Config) (pages : list page) : list string :=
  "img2pdf" :: [ "--output"; outputFilePath cfg ] ++ map tmpPath pages.

(** [bundlePages(pages)] *)
Definition bundlePages (env : Env) (cfg : Config) (pages : list page)
    : option string * trace :=
  let argv := bundle_argv cfg pages in
  let '(b, err) := CombinedOutput env argv in
  (err, Exec argv :: printCommandOutput b err).

(** How the process ends. *)
Inductive ending : Type :=
| Returned (t : trace)                  (* main returned *)
| Crashed (msg : string) (t : trace)    (* an unrecovered panic *)
| Stuck (t : trace).                    (* the schedule does not pass wg.Wait() *)

Definition usage : string :=
  "Usage: watermarker -dir <directory> -output <output path> [options]".

(** [main()], for the configuration that [parseArgs] read; the defaults that
    [flag.PrintDefaults] lists go to standard error. *)
Definition main (env : Env) (cfg : Config) (fs : root) (sched : list thread) : ending :=
  if (String.length (directorySearchPath cfg) =? 0)
     || (String.length (outputFilePath cfg) =? 0)
  then Returned [ Println usage ]
  else
    match ingestPages cfg fs with
    | (Panic msg, t) => Crashed msg t
    | (Error msg, t) => Returned (t ++ [ Println ("error ingesting pages: " +:+ msg) ])
    | (Ok pages, t) =>
        match genProcessedPages env cfg pages sched with
        | None => Stuck t
        | Some (pages, t2) =>
            let t := t ++ t2 ++ [ Println "bundling..." ] in
            let '(err, t3) := bundlePages env cfg pages in
            match err with
            | Some e => Returned (t ++ t3 ++ [ Println ("error bundling pages: " +:+ e) ])
            | None => Returned (t ++ t3 ++ map (fun p => Remove (tmpPath p)) pages)
            end
        end
    end.

(** *** Vocabulary of the properties *)

(** What is left of the page-number pattern after its [.+], for a match that
    started at offset [b]: the group [(\d+)] and the optional dot. *)
Definition pattern_tail (b : nat) (s : list ascii) (pos : nat)
    : option (nat * nat * regexp.group) :=
  regexp.backtrack
    (regexp.OpConcat (regexp.OpCapture (regexp.OpPlus regexp.Digit))
       (regexp.OpQuest (regexp.OpCharClass (regexp.Literal "."))))
    s pos None (fun _ e g => Some (b, e, g)).

(** A tree all of whose directories can be listed. *)
Fixpoint readable (d : entry) : bool :=
  match d with
  | File _ => true
  | Dir _ children => forallb readable children
  | UnreadableDir _ _ => false
  end.

(** Every entry of a tree with its path and whether it is a directory, in
    the order of the walk. *)
Fixpoint entries_under (path : string) (d : entry) : list (string * bool) :=
  (path, IsDir d) ::
  match d with
  | Dir _ children =>
      flat_map (fun d1 => entries_under (filepath.Join path (entry_name d1)) d1) children
  | _ => []
  end.

(** A file whose extension is one of [exts]; a file whose extension is not. *)
Definition accepted (exts : list string) (e : string * bool) : bool :=
  negb (snd e) && slices.Contains exts (filepath.Ext (fst e)).

Definition rejected (exts : list string) (e : string * bool) : bool :=
  negb (snd e) && negb (slices.Contains exts (filepath.Ext (fst e))).

(** The goroutines that have not ended yet. *)
Definition is_exit (t : option pc) : bool :=
  match t with
  | Some pcExit => true
  | _ => false
  end.

Definition pending (tasks : list (option pc)) : nat :=
  length (List.filter (fun t => negb (is_exit t)) tasks).

(** How far the goroutine of a page that started as [p0] has come, when its
    program counter is [t], the page is [p] and the trace is [tr]. *)
Definition task_inv (env : Env) (cfg : Config) (p0 : page) (t : option pc) (p : page)
    (tr : trace) : Prop :=
  match t with
  | None | Some pcCreateTemp => p = p0
  | Some pcConvert => exists t1, createTempFile env cfg p0 = (p, None, t1)
  | Some pcWatermark =>
      exists t1 t2, createTempFile env cfg p0 = (p, None, t1)
                    /\ convert env cfg p = (None, t2)
                    /\ watermark_enabled cfg = true
  | Some (pcReport err) => exists t1, generate env cfg p0 = (p, err, t1)
  | Some pcDone | Some pcExit =>
      exists err t1, generate env cfg p0 = (p, err, t1)
                     /\ Forall (fun e => In e tr) (report p err)
  end.

(** What holds of the dispatcher in every state it can reach from
    [dispatch_init pages0]. *)
Record dispatch_inv (env : Env) (cfg : Config) (pages0 : list page) (s : dispatch)
    : Prop := {
  inv_len_tasks : length (d_tasks s) = length pages0;
  inv_len_pages : length (d_pages s) = length pages0;
  inv_wg : d_wg s = Z.of_nat (pending (d_tasks s));
  inv_spawn : forall k i, d_main s = mSpawn k -> k <= i -> i < length pages0 ->
              d_tasks s !! i = Some None;
  inv_returned : d_main s = mReturned -> d_wg s = 0%Z;
  inv_task : forall i p0, pages0 !! i = Some p0 ->
             exists t p, d_tasks s !! i = Some t /\ d_pages s !! i = Some p
                         /\ task_inv env cfg p0 t p (d_trace s)
}.

(** Whether a trace holds a run of ImageMagick's [magick], the watermark
    sub-step. *)
Definition is_magick (e : event) : bool :=
  match e with
  | Exec (cmd :: _) => String.eqb cmd "magick"
  | _ => false
  end.

Definition invokes_watermark (t : trace) : bool := existsb is_magick t.

Definition is_remove (e : event) : bool :=
  match e with
  | Remove _ => true
  | _ => false
  end.

(** Vocabulary for the sort: slices are compared through a key. *)
Module pdq_spec.
Section Spec.

Context {E : Type} `{Inhabited E}.
Variable key : E -> Z.

(** [l'] is [l] after exchanges of elements with indices in [a, b). *)
Inductive rperm (a b : nat) : list E -> list E -> Prop :=
| rperm_refl (l : list E) : rperm a b l l
| rperm_swap (l l' : list E) (i j : nat) :
    a <= i -> i < b -> a <= j -> j < b -> b <= length l ->
    rperm a b (pdq.swap l i j) l' -> rperm a b l l'.

(** [l[a:b]] is in ascending order of the keys. *)
Definition sorted_range (a b : nat) (l : list E) : Prop :=
  forall i j, a <= i -> i <= j -> j < b -> (key (l !!! i) <= key (l !!! j))%Z.

(** Every element of [l[a:b]] satisfies [Q]. *)
Definition all_in (a b : nat) (Q : E -> Prop) (l : list E) : Prop :=
  forall k, a <= k -> k < b -> Q (l !!! k).

(** The element before [l[a:b]], if there is one, is not above any element
    of it. *)
Definition lower_bounded (a b : nat) (l : list E) : Prop :=
  a = 0 \/ all_in a b (fun x => (key (l !!! (a - 1)%nat) <= key x)%Z) l.

(** The binary heap that the heap sort lays over [l[first:first+hi]]: node
    [r] has the children [2r+1] and [2r+2], and from node [lo] on no child is
    above its parent. *)
Definition is_child (c r : nat) : Prop := c = 2 * r + 1 \/ c = 2 * r + 2.

Definition heap_from (first lo hi : nat) (l : list E) : Prop :=
  forall r c, lo <= r -> c < hi -> is_child c r ->
  (key (l !!! (first + c)%nat) <= key (l !!! (first + r)%nat))%Z.

(** The elements of any one key come in the same order in [l] and [l']. *)
Definition stable (l l' : list E) : Prop :=
  forall k, List.filter (fun x => (key x =? k)%Z) l'
            = List.filter (fun x => (key x =? k)%Z) l.

End Spec.
End pdq_spec.

(** *** Vocabulary for file names *)

(** The last decimal digit of a text, if it has one. *)
Fixpoint last_digit (s : list ascii) : option ascii :=
  match s with
  | [] => None
  | c :: s' =>
      match last_digit s' with
      | Some d => Some d
      | None => if regexp.is_digit c then Some c else None
      end
  end.

(** A file name without a line feed. *)
Definition no_line_feed (s : list ascii) : Prop :=
  Forall (fun c => Ascii.eqb c "010" = false) s.

(** A name without a slash: the name of a directory entry. *)
Definition no_slash (s : list ascii) : Prop :=
  Forall (fun c => filepath.IsPathSeparator c = false) s.

(** The buffer of [filepath.Clean] (last byte first) where a new element
    starts: a slash is written first unless the buffer holds nothing, or
    only the slash of a rooted path. *)
Definition with_slash (rooted : bool) (out : list ascii) : list ascii :=
  if (rooted && negb (length out =? 1)) || (negb rooted && negb (length out =? 0))
  then "/"%char :: out else out.

(** For a rooted path, the buffer of [filepath.Clean] always starts with the
    slash of the root, and [..] never backs up over it. *)
Definition rooted_inv (rooted : bool) (out : list ascii) (dotdot : nat) : Prop :=
  rooted = true -> dotdot = 1 /\ exists r, out = r ++ [ "/"%char ].

(** Text without a dot and without a slash: what follows the dot of an
    extension. *)
Definition plain (s : list ascii) : Prop :=
  Forall (fun c => filepath.IsPathSeparator c = false /\ Ascii.eqb c "." = false) s.

(** The errors of the directories of a tree that cannot be listed, in the
    order of the walk. *)
Fixpoint unreadable_errors (d : entry) : list string :=
  match d with
  | File _ => []
  | Dir _ children => flat_map unreadable_errors children
  | UnreadableDir _ err => [ err ]
  end.

(** For every entry of a tree, in the order of the walk, whether the walk
    can go on after it: not after a directory that cannot be listed. *)
Fixpoint listable (d : entry) : list bool :=
  match d with
  | File _ => [ true ]
  | Dir _ children => true :: flat_map listable children
  | UnreadableDir _ _ => [ false ]
  end.

(** How many flags there are up to and including the first [false]; all of
    them when there is none. *)
Fixpoint through_first_false (l : list bool) : nat :=
  match l with
  | [] => 0
  | b :: l' => S (if b then through_first_false l' else 0)
  end.

(** How many entries of a tree the walk reaches: those up to and including
    the first directory that cannot be listed. *)
Definition reach (d : entry) : nat := through_first_false (listable d).

(** A line on standard output, as opposed to an effect on the file system
    or a command. *)
Definition is_print (e : event) : Prop := exists line, e = Println line.

(** The extensions that cannot be those of any file: not empty, yet without
    the dot at the start. *)
Definition dotless (ext : string) : Prop :=
  exists c rest, ext = String c rest /\ c <> "."%char.

(** A search path that cannot be walked to its end: it is missing, or some
    directory under it cannot be listed. *)
Definition walk_fails (fs : root) : Prop :=
  match fs with
  | Missing _ => True
  | Root d => readable d = false
  end.

(** A run that has both the search path and the output path. *)
Definition has_paths (cfg : Config) : Prop :=
  (String.length (directorySearchPath cfg) =? 0)
  || (String.length (outputFilePath cfg) =? 0) = false.

(** *** Vocabulary for the dispatcher *)

(** The moves of the dispatcher, by kind: the loop starts a goroutine, the
    loop ends, [wg.Wait()] returns, a goroutine runs its deferred
    [wg.Done()], a goroutine does a step of its body. *)
Inductive step_of (env : Env) (cfg : Config) (s : dispatch) : thread -> dispatch -> Prop :=
| step_spawn (k : nat) :
    d_main s = mSpawn k -> k < length (d_pages s) ->
    step_of env cfg s Main
      {| d_pages := d_pages s; d_tasks := <[k := Some pcCreateTemp]> (d_tasks s);
         d_wg := d_wg s; d_main := mSpawn (S k); d_trace := d_trace s |}
| step_wait (k : nat) :
    d_main s = mSpawn k -> length (d_pages s) <= k ->
    step_of env cfg s Main
      {| d_pages := d_pages s; d_tasks := d_tasks s; d_wg := d_wg s;
         d_main := mWait; d_trace := d_trace s |}
| step_return :
    d_main s = mWait -> d_wg s = 0%Z ->
    step_of env cfg s Main
      {| d_pages := d_pages s; d_tasks := d_tasks s; d_wg := d_wg s;
         d_main := mReturned; d_trace := d_trace s |}
| step_done (i : nat) (p : page) :
    d_tasks s !! i = Some (Some pcDone) -> d_pages s !! i = Some p ->
    step_of env cfg s (Task i)
      {| d_pages := d_pages s; d_tasks := <[i := Some pcExit]> (d_tasks s);
         d_wg := (d_wg s - 1)%Z; d_main := d_main s; d_trace := d_trace s |}
| step_work (i : nat) (c c' : pc) (p p' : page) (t : trace) :
    d_tasks s !! i = Some (Some c) -> d_pages s !! i = Some p ->
    c <> pcDone -> c <> pcExit ->
    task_step env cfg c p = (c', p', t) ->
    step_of env cfg s (Task i)
      {| d_pages := <[i := p']> (d_pages s); d_tasks := <[i := Some c']> (d_tasks s);
         d_wg := d_wg s; d_main := d_main s; d_trace := d_trace s ++ t |}.

(** The number of steps a goroutine has left at most, and the loop and the
    wait of [genProcessedPages] over [n] pages. *)
Definition task_left (t : option pc) : nat :=
  match t with
  | None | Some pcCreateTemp => 5
  | Some pcConvert => 4
  | Some pcWatermark => 3
  | Some (pcReport _) => 2
  | Some pcDone => 1
  | Some pcExit => 0
  end.

Definition main_left (n : nat) (m : mainpc) : nat :=
  match m with
  | mSpawn k => n - k + 2
  | mWait => 1
  | mReturned => 0
  end.

Definition steps_left (s : dispatch) : nat :=
  main_left (length (d_pages s)) (d_main s) + sum_list (map task_left (d_tasks s)).

(** A goroutine that has not been started is one the loop has not reached. *)
Definition unstarted_inv (s : dispatch) : Prop :=
  forall i, d_tasks s !! i = Some None -> exists k, d_main s = mSpawn k /\ k <= i.

(** Everything the goroutine of a page does, in its order: the effects of
    [p.generate()] and the line it prints afterwards. *)
Definition page_events (env : Env) (cfg : Config) (p : page) : trace :=
  let '(p', err, t) := generate env cfg p in t ++ report p' err.

(** What a goroutine still has to do, from where it is. *)
Definition rest_watermark (env : Env) (cfg : Config) (p : page) : trace :=
  let '(err, t) := watermark env cfg p in t ++ report p err.

Definition rest_convert (env : Env) (cfg : Config) (p : page) : trace :=
  let '(err, t) := convert env cfg p in
  t ++ match err with
       | Some e => report p (Some e)
       | None => if watermark_enabled cfg then rest_watermark env cfg p else report p None
       end.

Definition task_rest (env : Env) (cfg : Config) (t : option pc) (p : page) : trace :=
  match t with
  | None | Some pcCreateTemp => page_events env cfg p
  | Some pcConvert => rest_convert env cfg p
  | Some pcWatermark => rest_watermark env cfg p
  | Some (pcReport err) => report p err
  | Some pcDone | Some pcExit => []
  end.

Definition rests (env : Env) (cfg : Config) (s : dispatch) : list trace :=
  zip_with (task_rest env cfg) (d_tasks s) (d_pages s).

(** [t] is an interleaving of the sequences [ls]: it takes, one at a time,
    the first element that is left of one of them, until none is left. *)
Inductive interleaving {A : Type} : list (list A) -> list A -> Prop :=
| interleaving_nil (ls : list (list A)) :
    Forall (fun l => l = []) ls -> interleaving ls []
| interleaving_cons (ls : list (list A)) (i : nat) (x : A) (l t : list A) :
    ls !! i = Some (x :: l) -> interleaving (<[i := l]> ls) t ->
    interleaving ls (x :: t).

(** *** Vocabulary for the list of extensions *)

(** The fields with the separator put back between them. *)
Fixpoint joined (sep : ascii) (fields : list string) : string :=
  match fields with
  | [] => ""
  | [ f ] => f
  | f :: fs => f +:+ String sep (joined sep fs)
  end.

(** A field that does not hold the separator. *)
Definition sep_free (sep : ascii) (f : string) : Prop :=
  Forall (fun c => Ascii.eqb c sep = false) (list_ascii_of_string f).

(** *** Vocabulary for temporary files *)

(** Text without the [*] that [os.CreateTemp] looks for in a pattern. *)
Definition star_free (s : string) : Prop :=
  Forall (fun c => Ascii.eqb c "*" = false) (list_ascii_of_string s).

(** A world whose [os.CreateTemp] names the files as Go's does: the name is
    made from the directory, the pattern and a string of decimal digits. *)
Definition go_temp (tempDir : string) (env : Env) : Prop :=
  forall who dir pattern name,
  osCreateTemp env who dir pattern = inl name ->
  exists random,
    Forall (fun c => regexp.is_digit c = true) (list_ascii_of_string random)
    /\ os.CreateTemp_name tempDir dir pattern random = inl name.

(** *** Vocabulary for the command line *)

(** The names of the flags of the program. *)
Definition flag_names : list string :=
  [ "dir"; "ext"; "watermark"; "size"; "height"; "width"; "output"; "workdir" ].

(** A value of Go's 64-bit [int]. *)
Definition is_int (n : Z) : Prop := (strconv.MinInt <= n <= strconv.MaxInt)%Z.

(** A command line that gives every flag, each as [-name=value], the
    numbers in decimal. *)
Definition command_line (cfg : Config) : list string :=
  [ "-dir=" +:+ directorySearchPath cfg;
    "-ext=" +:+ fileExtensions cfg;
    "-watermark=" +:+ watermarkFilePath cfg;
    "-size=" +:+ itoa (watermarkImageScale cfg);
    "-height=" +:+ itoa (outputDimensionHeight cfg);
    "-width=" +:+ itoa (outputDimensionWidth cfg);
    "-output=" +:+ outputFilePath cfg;
    "-workdir=" +:+ workDirectory cfg ].

(** *** A configuration and three worlds, for the examples *)

Definition example_cfg : Config :=
  {| directorySearchPath := "scans";
     fileExtensions := ".jpg,.jpeg";
     watermarkFilePath := "wm.png";
     watermarkImageScale := 4;
     outputDimensionHeight := 1500;
     outputDimensionWidth := 1500;
     outputFilePath := "out.pdf";
     workDirectory := "work" |}.

(** A temporary file per page, named after the page. *)
Definition example_temp (who dir pattern : string) : string + string :=
  inl (dir +:+ "/watermarker-" +:+ filepath.Base who).

(** Every tool succeeds. *)
Definition env_ok : Env :=
  {| osCreateTemp := example_temp;
     CombinedOutput := fun _ => ("", None) |}.

(** ImageMagick's [convert] fails. *)
Definition env_convert_fails : Env :=
  {| osCreateTemp := example_temp;
     CombinedOutput := fun argv =>
       match argv with
       | cmd :: _ =>
           if String.eqb cmd "convert" then ("convert: no decode delegate", Some "exit status 1")
           else ("", None)
       | [] => ("", None)
       end |}.

(** [img2pdf] fails. *)
Definition env_bundle_fails : Env :=
  {| osCreateTemp := example_temp;
     CombinedOutput := fun argv =>
       match argv with
       | cmd :: _ =>
           if String.eqb cmd "img2pdf" then ("img2pdf: error", Some "exit status 2")
           else ("", None)
       | [] => ("", None)
       end |}.

Definition example_tree : entry :=
  Dir "scans" [ File "a3.jpg"; File "a1.jpg"; Dir "sub" [ File "a2.jpg"; File "notes.txt" ];
                File "b.JPG" ].

Definition page_a1 : page :=
  {| filepath := "scans/a1.jpg"; number := 1; tmpPath := "" |}.

(** A schedule of two goroutines that interleaves them with each other and
    with the loop that starts them. *)
Definition barrier_schedule : list thread :=
  [ Main; Task 0; Main; Task 1; Task 0; Main; Task 1; Task 1; Task 0; Task 1;
    Task 0; Task 0; Task 1; Main ].

(** Thirteen files of one directory, in the order in which [os.ReadDir] lists
    them: twelve whose names end in the digit 1 and one that ends in 0. *)
Definition thirteen_files : entry :=
  Dir "scans"
    [ File "a1.jpg"; File "b1.jpg"; File "c1.jpg"; File "d1.jpg"; File "e1.jpg";
      File "f1.jpg"; File "g1.jpg"; File "h1.jpg"; File "i1.jpg"; File "j1.jpg";
      File "k1.jpg"; File "l1.jpg"; File "m0.jpg" ].

(** The pages of [thirteen_files], in the order of their discovery. *)
Definition thirteen_pages : list page :=
  map (fun f => {| filepath := "scans/" +:+ fst f; number := snd f; tmpPath := "" |})
    [ ("a1.jpg", 1%Z); ("b1.jpg", 1%Z); ("c1.jpg", 1%Z); ("d1.jpg", 1%Z);
      ("e1.jpg", 1%Z); ("f1.jpg", 1%Z); ("g1.jpg", 1%Z); ("h1.jpg", 1%Z);
      ("i1.jpg", 1%Z); ("j1.jpg", 1%Z); ("k1.jpg", 1%Z); ("l1.jpg", 1%Z);
      ("m0.jpg", 0%Z) ].

(** The search path written with a leading [./] and a trailing slash. *)
Definition slash_cfg : Config :=
  {| directorySearchPath := "./scans/";
     fileExtensions := ".jpg,.jpeg";
     watermarkFilePath := "wm.png";
     watermarkImageScale := 4;
     outputDimensionHeight := 1500;
     outputDimensionWidth := 1500;
     outputFilePath := "out.pdf";
     workDirectory := "work" |}.

(** The extensions given without their dots. *)
Definition dotless_cfg : Config :=
  {| directorySearchPath := "scans";
     fileExtensions := "jpg,jpeg";
     watermarkFilePath := "";
     watermarkImageScale := 4;
     outputDimensionHeight := 1500;
     outputDimensionWidth := 1500;
     outputFilePath := "out.pdf";
     workDirectory := "work" |}.

(** A tree with a directory that cannot be listed, after one page. *)
Definition locked_tree : entry :=
  Dir "scans" [ File "a1.jpg"; UnreadableDir "private" "open scans/private: permission denied";
                File "a2.jpg" ].

(** The pages of [example_tree], in the order of their numbers. *)
Definition example_pages : list page :=
  [ {| filepath := "scans/a1.jpg"; number := 1; tmpPath := "" |};
    {| filepath := "scans/sub/a2.jpg"; number := 2; tmpPath := "" |};
    {| filepath := "scans/a3.jpg"; number := 3; tmpPath := "" |} ].

(** A world whose temporary files are named as Go names them. *)
Definition env_go : Env :=
  {| osCreateTemp := fun _ dir pattern => os.CreateTemp_name "/tmp" dir pattern "4051857357";
     CombinedOutput := fun _ => ("", None) |}.

(** ** Part II: properties *)

(** *** Strings as lists of bytes *)

Lemma get_list_ascii (s : string) (q : nat) :
  String.get q s = list_ascii_of_string s !! q.
Proof.
  revert q; induction s as [|c s IH]; intros [|q]; simpl; auto.
Qed.

Lemma substring_one (s : string) (q : nat) (c : ascii) :
  list_ascii_of_string s !! q = Some c -> substring q 1 s = String c EmptyString.
Proof.
  revert q; induction s as [|d s IH]; intros [|q]; simpl; try discriminate.
  - intros [= ->]. now destruct s.
  - apply IH.
Qed.

Lemma length_list_ascii (s : string) :
  length (list_ascii_of_string s) = String.length s.
Proof. induction s; simpl; auto. Qed.

(** *** The page-number pattern *)

Module regexp_facts.
Import regexp.

Lemma backtrack_pattern (b : nat) (s : list ascii) (pos : nat) :
  backtrack pageNumberRegex s pos None (fun _ e g => Some (b, e, g)) =
  match s with
  | c :: s' =>
      if class_matches AnyCharNotNL c
      then plus_loop AnyCharNotNL (pattern_tail b) s' (S pos)
      else None
  | [] => None
  end.
Proof. reflexivity. Qed.

(** A greedy repetition gives up only where its continuation does. *)
Lemma plus_loop_none {A : Type} (cc : charclass) (k : list ascii -> nat -> option A)
    (s : list ascii) (pos : nat) :
  plus_loop cc k s pos = None -> k s pos = None.
Proof.
  destruct s as [|c s]; simpl; auto.
  destruct (class_matches cc c); auto.
  destruct (plus_loop cc k s (S pos)); [discriminate | auto].
Qed.

(** The group starts where the tail of the pattern starts, at a digit. *)
Lemma tail_some (b : nat) (s : list ascii) (pos : nat) (m : nat * nat * group) :
  pattern_tail b s pos = Some m ->
  exists c s' e ge, s = c :: s' /\ is_digit c = true /\ m = (b, e, Some (pos, ge)).
Proof.
  unfold pattern_tail; simpl.
  destruct s as [|c s]; [discriminate|].
  destruct (is_digit c) eqn:Hc; [|discriminate].
  intros Hm. exists c, s.
  assert (Hgen : forall s2 p2,
    plus_loop Digit
      (fun s3 p3 =>
         match
           match s3 with
           | [] => None
           | c0 :: _ => if Ascii.eqb c0 "." then Some (b, S p3, Some (pos, p3)) else None
           end
         with
         | Some m0 => Some m0
         | None => Some (b, p3, Some (pos, p3))
         end) s2 p2 = Some m ->
    exists e ge, m = (b, e, Some (pos, ge))).
  { induction s2 as [|d s2 IH]; intros p2; simpl.
    - intros [= <-]; eauto.
    - destruct (is_digit d).
      + destruct (plus_loop _ _ s2 (S p2)) eqn:Hrec.
        * intros [= <-]. eapply IH; eauto.
        * destruct (Ascii.eqb d "."); intros [= <-]; eauto.
      + destruct (Ascii.eqb d "."); intros [= <-]; eauto. }
  destruct (Hgen _ _ Hm) as (e & ge & ->). eauto 10.
Qed.

(** When the text after the first digit does not start a tail of its own,
    the group is that one digit. *)
Lemma tail_one_digit (b : nat) (c : ascii) (s : list ascii) (pos : nat)
    (m : nat * nat * group) :
  pattern_tail b (c :: s) pos = Some m ->
  pattern_tail b s (S pos) = None ->
  exists e, m = (b, e, Some (pos, S pos)).
Proof.
  unfold pattern_tail; simpl.
  destruct (is_digit c); [|discriminate].
  destruct s as [|d s]; simpl.
  - intros [= <-] _; eauto.
  - destruct (is_digit d) eqn:Hd.
    + intros _ Hnone. exfalso. revert Hnone.
      generalize (S (S pos)). generalize (S pos). intros p1 p2.
      assert (Hgen : forall s2 p2,
        plus_loop Digit
          (fun s3 p3 =>
             match
               match s3 with
               | [] => None
               | c0 :: _ => if Ascii.eqb c0 "." then Some (b, S p3, Some (p1, p3)) else None
               end
             with
             | Some m0 => Some m0
             | None => Some (b, p3, Some (p1, p3))
             end) s2 p2 <> None).
      { induction s2 as [|x s2 IH]; intros q; simpl.
        - discriminate.
        - destruct (is_digit x).
          + destruct (plus_loop _ _ s2 (S q)); [discriminate|].
            destruct (Ascii.eqb x "."); discriminate.
          + destruct (Ascii.eqb x "."); discriminate. }
      apply Hgen.
    + destruct (Ascii.eqb d "."); intros [= <-] _; eauto.
Qed.

Lemma tail_not_digit (b : nat) (c : ascii) (s : list ascii) (pos : nat) :
  is_digit c = false -> pattern_tail b (c :: s) pos = None.
Proof. unfold pattern_tail; simpl. now intros ->. Qed.

Lemma tail_nil (b pos : nat) : pattern_tail b [] pos = None.
Proof. reflexivity. Qed.

(** After the greedy [.+], the group is one digit. *)
Lemma plus_any_tail (b : nat) (s : list ascii) (pos : nat) (m : nat * nat * group) :
  plus_loop AnyCharNotNL (pattern_tail b) s pos = Some m ->
  exists q e c, m = (b, e, Some (pos + q, S (pos + q)))
                /\ s !! q = Some c /\ is_digit c = true.
Proof.
  revert pos; induction s as [|c s IH]; intros pos; cbn [plus_loop].
  - rewrite tail_nil; discriminate.
  - assert (Hhere : pattern_tail b (c :: s) pos = Some m ->
                    pattern_tail b s (S pos) = None ->
                    exists q e c0, m = (b, e, Some (pos + q, S (pos + q)))
                      /\ (c :: s) !! q = Some c0 /\ is_digit c0 = true).
    { intros Hm Hn.
      destruct (tail_some _ _ _ _ Hm) as (c0 & s0 & e0 & ge & [= <- <-] & Hd & _).
      destruct (tail_one_digit _ _ _ _ _ Hm Hn) as (e & ->).
      exists 0, e, c. rewrite Nat.add_0_r. auto. }
    destruct (class_matches AnyCharNotNL c) eqn:Hc.
    + destruct (plus_loop AnyCharNotNL (pattern_tail b) s (S pos)) eqn:Hrec.
      * intros [= <-].
        destruct (IH _ Hrec) as (q & e & c0 & -> & Hq & Hd).
        exists (S q), e, c0.
        replace (pos + S q) with (S pos + q) by lia. auto.
      * intros Hm. apply Hhere; auto. now apply plus_loop_none in Hrec.
    + (* a line feed is not a digit *)
      simpl in Hc. apply negb_false_iff, Ascii.eqb_eq in Hc. subst c.
      now rewrite tail_not_digit.
Qed.

(** The leftmost match of the pattern captures one digit. *)
Lemma search_group (s : list ascii) (pos : nat) (m : nat * nat * group) :
  search pageNumberRegex s pos = Some m ->
  exists b e q c, m = (b, e, Some (pos + q, S (pos + q)))
                  /\ s !! q = Some c /\ is_digit c = true.
Proof.
  revert pos; induction s as [|c s IH]; intros pos; cbn [search];
    rewrite backtrack_pattern.
  - discriminate.
  - assert (Hnext : search pageNumberRegex s (S pos) = Some m ->
                    exists b e q c0, m = (b, e, Some (pos + q, S (pos + q)))
                      /\ (c :: s) !! q = Some c0 /\ is_digit c0 = true).
    { intros Hs. destruct (IH _ Hs) as (b & e & q & c0 & -> & Hq & Hd).
      exists b, e, (S q), c0. replace (pos + S q) with (S pos + q) by lia. auto. }
    destruct (class_matches AnyCharNotNL c); auto.
    destruct (plus_loop AnyCharNotNL (pattern_tail pos) s (S pos)) eqn:Hp; auto.
    intros [= <-].
    destruct (plus_any_tail _ _ _ _ Hp) as (q & e & c0 & -> & Hq & Hd).
    exists pos, e, (S q), c0. replace (pos + S q) with (S pos + q) by lia. auto.
Qed.

(** Without a digit the tail of the pattern never matches, hence no match. *)
Lemma plus_any_no_digit (b : nat) (s : list ascii) (pos : nat) :
  Forall (fun c => is_digit c = false) s ->
  plus_loop AnyCharNotNL (pattern_tail b) s pos = None.
Proof.
  intros Hs; revert pos; induction Hs as [|c s Hc Hs IH]; intros pos;
    cbn [plus_loop].
  - apply tail_nil.
  - rewrite IH, tail_not_digit by assumption. now destruct (class_matches _ _).
Qed.

Lemma search_no_digit (s : list ascii) (pos : nat) :
  Forall (fun c => is_digit c = false) s ->
  search pageNumberRegex s pos = None.
Proof.
  intros Hs; revert pos; induction Hs as [|c s Hc Hs IH]; intros pos;
    cbn [search]; rewrite backtrack_pattern; auto.
  rewrite plus_any_no_digit, IH by assumption.
  now destruct (class_matches _ _).
Qed.

(** [FindStringSubmatch] on the pattern: no match, or the whole match and a
    group of exactly one digit. *)
Lemma FindStringSubmatch_shape (filename : string) :
  FindStringSubmatch pageNumberRegex filename = []
  \/ exists whole c,
       FindStringSubmatch pageNumberRegex filename = [ whole; String c EmptyString ]
       /\ is_digit c = true.
Proof.
  unfold FindStringSubmatch.
  destruct (search pageNumberRegex (list_ascii_of_string filename) 0) as [m|] eqn:Hs;
    [right | now left].
  destruct (search_group _ _ _ Hs) as (b & e & q & c & -> & Hq & Hd).
  exists (substring b (e - b) filename), c. split; [|assumption].
  cbn [Nat.add]. replace (S q - q) with 1 by lia.
  now rewrite (substring_one _ _ _ Hq).
Qed.

End regexp_facts.

(** *** Page indexing *)

Lemma Atoi_digit (c : ascii) :
  regexp.is_digit c = true ->
  exists n, strconv.Atoi (String c EmptyString) = inl n /\ (0 <= n <= 9)%Z.
Proof.
  destruct c as [[] [] [] [] [] [] [] []]; vm_compute; try discriminate;
    intros _; eexists; (split; [reflexivity | split; discriminate]).
Qed.

Lemma digit_nonempty (c : ascii) : (String.length (String c EmptyString) =? 0) = false.
Proof. reflexivity. Qed.

(** A page that [indexPage] makes carries one decimal digit as its number. *)
Lemma indexPage_Ok (path : string) (p : page) :
  indexPage path = Ok p ->
  filepath p = path /\ tmpPath p = EmptyString /\ (0 <= number p <= 9)%Z.
Proof.
  unfold indexPage.
  destruct (regexp_facts.FindStringSubmatch_shape (filepath.Base path))
    as [-> | (whole & c & -> & Hd)]; [discriminate|].
  cbn [lookup list_lookup]. rewrite digit_nonempty.
  destruct (Atoi_digit c Hd) as (n & -> & Hn). now intros [= <-].
Qed.

(** The branch that reports a file name without a page number is dead: the
    group, when there is a match, is never empty. *)
Lemma indexPage_never_reports (path : string) (msg : string) :
  indexPage path <> Error msg.
Proof.
  unfold indexPage.
  destruct (regexp_facts.FindStringSubmatch_shape (filepath.Base path))
    as [-> | (whole & c & -> & Hd)]; [discriminate|].
  cbn [lookup list_lookup]. rewrite digit_nonempty.
  destruct (Atoi_digit c Hd) as (n & -> & Hn). discriminate.
Qed.

(** A file name without any digit makes [indexPage] panic on [matches[1]]. *)
Lemma indexPage_no_digit (path : string) :
  Forall (fun c => regexp.is_digit c = false)
    (list_ascii_of_string (filepath.Base path)) ->
  indexPage path = Panic "runtime error: index out of range [1] with length 0".
Proof.
  intros Hs. unfold indexPage, regexp.FindStringSubmatch.
  now rewrite regexp_facts.search_no_digit.
Qed.

Lemma ingest_loop_numbers (paths : list string) (acc : list page) (out : trace)
    (pages : list page) (out' : trace) :
  ingest_loop paths acc out = (Ok pages, out') ->
  Forall (fun p => (0 <= number p <= 9)%Z) acc ->
  Forall (fun p => (0 <= number p <= 9)%Z) pages.
Proof.
  revert acc out; induction paths as [|path paths IH]; intros acc out; simpl.
  - now intros [= <- <-].
  - destruct (indexPage path) as [p| |] eqn:Hp; try discriminate.
    intros Hl Hacc. eapply IH; eauto.
    apply Forall_app; split; auto. constructor; auto.
    now apply indexPage_Ok in Hp.
Qed.

(** *** The path discoverer *)

(** Induction over directory trees. *)
Lemma entry_ind (P : entry -> Prop)
    (HF : forall n, P (File n))
    (HD : forall n children, Forall P children -> P (Dir n children))
    (HU : forall n e, P (UnreadableDir n e)) :
  forall d, P d.
Proof.
  fix IH 1. intros [n | n children | n e].
  - apply HF.
  - apply HD. induction children as [|d ds IHds]; constructor; auto.
  - apply HU.
Qed.

Lemma walkDir_readable (exts : list string) (d : entry) :
  forall path w,
  readable d = true ->
  walkDir (walkFn exts) path d w =
  ({| sent := sent w ++ map fst (List.filter (accepted exts) (entries_under path d));
      skipped := skipped w
                 ++ map (fun e => "skipping: " +:+ fst e)
                      (List.filter (rejected exts) (entries_under path d)) |},
   None).
Proof.
  induction d as [n | n children IH | n e] using entry_ind; intros path w Hr.
  - cbn [walkDir entries_under IsDir walkFn List.filter accepted rejected fst snd negb andb].
    destruct (slices.Contains exts (filepath.Ext path)); cbn;
      now rewrite ?app_nil_r.
  - cbn [walkDir entries_under IsDir walkFn List.filter accepted rejected fst snd negb andb].
    cbn [readable] in Hr.
    revert w Hr. induction IH as [|d ds Hd _ IHds]; intros w Hr.
    + destruct w; cbn. now rewrite !app_nil_r.
    + cbn [forallb] in Hr. apply andb_true_iff in Hr as [Hd1 Hds].
      rewrite (Hd _ _ Hd1). rewrite (IHds _ Hds). cbn [sent skipped flat_map].
      now rewrite !List.filter_app, !map_app, <- !app_assoc.
  - discriminate.
Qed.

(** [filepath.Join] cleans what it joins: no doubled slash after a directory
    written with a trailing slash, no leading [./]. *)
Example Join_cleans :
  filepath.Join "scans/" "a1.jpg" = "scans/a1.jpg"
  /\ filepath.Join "./scans" "a1.jpg" = "scans/a1.jpg"
  /\ filepath.Join "." "a1.jpg" = "a1.jpg"
  /\ filepath.Join "/" "a1.jpg" = "/a1.jpg"
  /\ filepath.Join "a//b/" "c" = "a/b/c"
  /\ filepath.Join "../scans" "a1.jpg" = "../scans/a1.jpg"
  /\ filepath.Join "x1" "." = "x1"
  /\ filepath.Join "a/b" ".." = "a"
  /\ filepath.Join "" "a1.jpg" = "a1.jpg"
  /\ filepath.Join "" "" = "".
Proof. repeat split; reflexivity. Qed.

(** With [-dir ./scans/] the walker sends and logs the cleaned paths, as
    [filepath.WalkDir] builds them. *)
Example walk_of_unclean_root :
  walkDirectorySearchPath slash_cfg (Root example_tree)
  = ({| sent := [ "scans/a3.jpg"; "scans/a1.jpg"; "scans/sub/a2.jpg" ];
        skipped := [ "skipping: scans/sub/notes.txt"; "skipping: scans/b.JPG" ] |},
     None).
Proof. vm_compute. reflexivity. Qed.

(** *** The per-page transform *)

Lemma createTempFile_spec (env : Env) (cfg : Config) (p : page) :
  match osCreateTemp env (filepath p) (workDirectory cfg)
          ("watermarker-*" +:+ filepath.Ext (filepath p)) with
  | inl name =>
      createTempFile env cfg p
      = (with_tmpPath p name, None, [ Mkdir (workDirectory cfg); CreateTemp name ])
  | inr e => createTempFile env cfg p = (p, Some e, [ Mkdir (workDirectory cfg) ])
  end.
Proof. unfold createTempFile. now destruct (osCreateTemp _ _ _ _). Qed.

(** [generate] leaves in [tmpPath] whatever [createTempFile] put there: the
    later sub-steps do not touch the page. *)
Lemma generate_page (env : Env) (cfg : Config) (p : page) :
  fst (fst (generate env cfg p)) = fst (fst (createTempFile env cfg p)).
Proof.
  unfold generate.
  destruct (createTempFile env cfg p) as [[p1 [e|]] t1]; [reflexivity|].
  destruct (convert env cfg p1) as [[e|] t2]; [reflexivity|].
  destruct (watermark_enabled cfg); [|reflexivity].
  now destruct (watermark env cfg p1).
Qed.

(** *** The transform dispatcher *)

Lemma pending_insert (tasks : list (option pc)) (i : nat) (t t' : option pc) :
  tasks !! i = Some t ->
  pending (<[i := t']> tasks) + (if is_exit t then 0 else 1)
  = pending tasks + (if is_exit t' then 0 else 1).
Proof.
  unfold pending. revert i; induction tasks as [|x tasks IH]; intros [|i]; simpl;
    try discriminate.
  - intros [= ->]. destruct (is_exit t), (is_exit t'); simpl; lia.
  - intros Hi. specialize (IH _ Hi). destruct (is_exit x); simpl; lia.
Qed.

Lemma pending_replicate (n : nat) : pending (replicate n None) = n.
Proof. unfold pending. induction n; simpl; auto. Qed.

Lemma pending_zero (tasks : list (option pc)) (i : nat) (t : option pc) :
  pending tasks = 0 -> tasks !! i = Some t -> is_exit t = true.
Proof.
  unfold pending. revert i; induction tasks as [|x tasks IH]; intros [|i]; simpl;
    try discriminate.
  - intros Hp [= ->]. destruct (is_exit t); [reflexivity | discriminate].
  - intros Hp. apply IH. destruct (is_exit x); [assumption | discriminate].
Qed.

Lemma is_exit_true (t : option pc) : is_exit t = true -> t = Some pcExit.
Proof. destruct t as [[]|]; try discriminate; reflexivity. Qed.

Lemma task_inv_mono (env : Env) (cfg : Config) (p0 : page) (t : option pc) (p : page)
    (tr tr' : trace) :
  task_inv env cfg p0 t p tr -> task_inv env cfg p0 t p (tr ++ tr').
Proof.
  destruct t as [[]|]; simpl; auto.
  all: intros (err & t1 & Hg & Hr); exists err, t1; split; auto.
  all: eapply Forall_impl; [exact Hr|]; intros e He; apply in_or_app; now left.
Qed.

(** One step of a goroutine keeps the account of how far it has come. *)
Lemma task_step_inv (env : Env) (cfg : Config) (p0 : page) (c c' : pc) (p p' : page)
    (tr t : trace) :
  c <> pcDone -> c <> pcExit ->
  task_inv env cfg p0 (Some c) p tr ->
  task_step env cfg c p = (c', p', t) ->
  task_inv env cfg p0 (Some c') p' (tr ++ t) /\ is_exit (Some c') = false.
Proof.
  intros Hd He. destruct c; try congruence; cbn [task_inv task_step].
  - intros ->.
    destruct (createTempFile env cfg p0) as [[p1 [e|]] t1] eqn:Hc;
      intros [= <- <- <-]; split; try reflexivity; cbn [task_inv].
    + exists t1. unfold generate. now rewrite Hc.
    + now exists t1.
  - intros (t1 & Hc).
    destruct (convert env cfg p) as [[e|] t2] eqn:Hv.
    + intros [= <- <- <-]; split; try reflexivity; cbn [task_inv].
      exists (t1 ++ t2). unfold generate. now rewrite Hc, Hv.
    + destruct (watermark_enabled cfg) eqn:Hw;
        intros [= <- <- <-]; split; try reflexivity; cbn [task_inv].
      * now exists t1, t2.
      * exists (t1 ++ t2). unfold generate. now rewrite Hc, Hv, Hw.
  - intros (t1 & t2 & Hc & Hv & Hw).
    destruct (watermark env cfg p) as [e t3] eqn:Hm.
    intros [= <- <- <-]; split; try reflexivity; cbn [task_inv].
    exists (t1 ++ t2 ++ t3). unfold generate. now rewrite Hc, Hv, Hw, Hm.
  - intros (t1 & Hg). intros [= <- <- <-]; split; try reflexivity; cbn [task_inv].
    exists err, t1; split; auto.
    apply List.Forall_forall; intros e Hin; apply in_or_app; now right.
Qed.

Lemma dispatch_init_inv (env : Env) (cfg : Config) (pages : list page) :
  dispatch_inv env cfg pages (dispatch_init pages).
Proof.
  split; cbn [dispatch_init d_tasks d_pages d_wg d_main d_trace].
  - apply length_replicate.
  - reflexivity.
  - now rewrite pending_replicate.
  - intros k i _ _ Hi. now apply lookup_replicate_2.
  - discriminate.
  - intros i p0 Hp. exists None, p0. split; [|split]; [ | assumption | reflexivity ].
    apply lookup_replicate_2. eapply lookup_lt_Some; eauto.
Qed.

Lemma dispatch_step_inv (env : Env) (cfg : Config) (pages0 : list page)
    (who : thread) (s s' : dispatch) :
  dispatch_inv env cfg pages0 s ->
  dispatch_step env cfg who s = Some s' ->
  dispatch_inv env cfg pages0 s'.
Proof.
  intros [Hlt Hlp Hwg Hsp Hret Htask]. destruct who as [|i]; cbn [dispatch_step].
  - destruct (d_main s) as [k| |] eqn:Hmain; [| |discriminate].
    + destruct (k <? length (d_pages s)) eqn:Hk; intros [= <-].
      * apply Nat.ltb_lt in Hk. rewrite Hlp in Hk.
        pose proof (Hsp k k eq_refl (le_n _) Hk) as Hnone.
        split; cbn [d_tasks d_pages d_wg d_main d_trace].
        -- now rewrite length_insert.
        -- assumption.
        -- pose proof (pending_insert _ _ _ (Some pcCreateTemp) Hnone) as Hp.
           cbn in Hp. lia.
        -- intros k' i [= <-] Hle Hi.
           rewrite list_lookup_insert_ne by lia. apply (Hsp k); auto; lia.
        -- discriminate.
        -- intros i p0 Hp0. destruct (Htask i p0 Hp0) as (t & p & Ht & Hp & Hinv).
           destruct (decide (k = i)) as [->|Hne].
           ++ exists (Some pcCreateTemp), p. rewrite list_lookup_insert_eq by lia.
              split; [|split]; auto.
              rewrite Hnone in Ht. injection Ht as <-. exact Hinv.
           ++ exists t, p. rewrite list_lookup_insert_ne by assumption. auto.
      * split; cbn [d_tasks d_pages d_wg d_main d_trace]; auto; discriminate.
    + destruct (d_wg s =? 0)%Z eqn:Hz; [|discriminate]. intros [= <-].
      apply Z.eqb_eq in Hz.
      split; cbn [d_tasks d_pages d_wg d_main d_trace]; auto; discriminate.
  - destruct (d_tasks s !! i) as [[c|]|] eqn:Hti; try discriminate.
    destruct (d_pages s !! i) as [p|] eqn:Hpi; try discriminate.
    assert (Hi : i < length pages0) by (rewrite <- Hlp; eapply lookup_lt_Some; eauto).
    assert (Hcase : c = pcExit \/ c = pcDone \/ (c <> pcDone /\ c <> pcExit))
      by (destruct c; auto; right; right; split; discriminate).
    destruct Hcase as [-> | [-> | [Hnd Hne]]]; [discriminate | |].
    + intros [= <-].
      pose proof (pending_insert _ _ _ (Some pcExit) Hti) as Hp. cbn in Hp.
      split; cbn [d_tasks d_pages d_wg d_main d_trace].
      * now rewrite length_insert.
      * assumption.
      * lia.
      * intros k j Hm Hle Hj. destruct (decide (i = j)) as [->|Hij].
        -- rewrite (Hsp k j Hm Hle Hj) in Hti. discriminate.
        -- rewrite list_lookup_insert_ne by assumption. eauto.
      * intros Hm. specialize (Hret Hm). lia.
      * intros j p0 Hp0. destruct (Htask j p0 Hp0) as (t & q & Ht & Hq & Hinv).
        destruct (decide (i = j)) as [->|Hij].
        -- exists (Some pcExit), q. rewrite list_lookup_insert_eq by lia.
           split; [|split]; auto.
           rewrite Hti in Ht. injection Ht as <-. exact Hinv.
        -- exists t, q. rewrite list_lookup_insert_ne by assumption. auto.
    + assert (Hstep : exists c' p' t, task_step env cfg c p = (c', p', t))
        by (destruct (task_step env cfg c p) as [[c' p'] t]; eauto).
      destruct Hstep as (c' & p' & t & Hstep).
      assert (Hs' : Some s' = Some {| d_pages := <[i := p']> (d_pages s);
                      d_tasks := <[i := Some c']> (d_tasks s);
                      d_wg := d_wg s; d_main := d_main s;
                      d_trace := d_trace s ++ t |} -> dispatch_inv env cfg pages0 s').
      { intros [= ->].
        destruct (lookup_lt_is_Some_2 pages0 i Hi) as [p0 Hp0].
        destruct (Htask i p0 Hp0) as (t0 & q & Ht & Hq & Hinv).
        rewrite Hti in Ht. injection Ht as <-. rewrite Hpi in Hq. injection Hq as <-.
        destruct (task_step_inv _ _ _ _ _ _ _ _ _ Hnd Hne Hinv Hstep) as [Hinv' Hex].
        pose proof (pending_insert _ _ _ (Some c') Hti) as Hp.
        rewrite Hex in Hp. replace (is_exit (Some c)) with false in Hp
          by (destruct c; auto; congruence).
        split; cbn [d_tasks d_pages d_wg d_main d_trace].
        - now rewrite length_insert.
        - now rewrite length_insert.
        - lia.
        - intros k j Hm Hle Hj. destruct (decide (i = j)) as [->|Hij].
          + rewrite (Hsp k j Hm Hle Hj) in Hti. discriminate.
          + rewrite list_lookup_insert_ne by assumption. eauto.
        - assumption.
        - intros j q0 Hq0. destruct (decide (i = j)) as [->|Hij].
          + exists (Some c'), p'. rewrite !list_lookup_insert_eq by lia.
            split; [|split]; auto. rewrite Hp0 in Hq0. now injection Hq0 as <-.
          + destruct (Htask j q0 Hq0) as (t1 & q1 & Ht1 & Hq1 & Hinv1).
            exists t1, q1. rewrite !list_lookup_insert_ne by assumption.
            split; [|split]; auto. now apply task_inv_mono. }
      intros Heq. apply Hs'. rewrite <- Heq. rewrite Hstep.
      destruct c; congruence.
Qed.

Lemma dispatch_run_inv (env : Env) (cfg : Config) (pages0 : list page)
    (sched : list thread) (s s' : dispatch) :
  dispatch_inv env cfg pages0 s ->
  dispatch_run env cfg sched s = Some s' ->
  dispatch_inv env cfg pages0 s'.
Proof.
  revert s; induction sched as [|who sched IH]; intros s Hinv; cbn [dispatch_run].
  - now intros [= <-].
  - destruct (dispatch_step env cfg who s) as [s1|] eqn:Hs; [|discriminate].
    apply IH. eapply dispatch_step_inv; eauto.
Qed.

(** Once [wg.Wait()] has returned, every goroutine has ended. *)
Lemma returned_all_exit (env : Env) (cfg : Config) (pages0 : list page) (s : dispatch) :
  dispatch_inv env cfg pages0 s ->
  d_main s = mReturned ->
  forall i, i < length pages0 -> d_tasks s !! i = Some (Some pcExit).
Proof.
  intros [Hlt Hlp Hwg Hsp Hret Htask] Hm i Hi.
  destruct (lookup_lt_is_Some_2 (d_tasks s) i) as [t Ht]; [lia|].
  rewrite Ht. f_equal. apply is_exit_true.
  eapply pending_zero; eauto. specialize (Hret Hm). lia.
Qed.

(** *** The dispatcher returns *)

Lemma dispatch_run_app (env : Env) (cfg : Config) (s1 s2 : list thread) (st : dispatch) :
  dispatch_run env cfg (s1 ++ s2) st
  = match dispatch_run env cfg s1 st with
    | Some st' => dispatch_run env cfg s2 st'
    | None => None
    end.
Proof.
  revert st; induction s1 as [|who s1 IH]; intros st; cbn [app dispatch_run]; auto.
  destruct (dispatch_step env cfg who st); auto.
Qed.

(** The loop of [genProcessedPages] starts the goroutines one by one. *)
Lemma spawn_phase (env : Env) (cfg : Config) (pages : list page) (k : nat) :
  k <= length pages ->
  exists s,
    dispatch_run env cfg (replicate k Main) (dispatch_init pages) = Some s
    /\ d_pages s = pages /\ d_main s = mSpawn k
    /\ length (d_tasks s) = length pages
    /\ forall i, i < k -> d_tasks s !! i = Some (Some pcCreateTemp).
Proof.
  induction k as [|k IH]; intros Hk.
  - exists (dispatch_init pages). cbn. rewrite length_replicate.
    repeat split; auto. intros i Hi. lia.
  - destruct IH as (s & Hrun & Hp & Hm & Hlen & Ht); [lia|].
    rewrite replicate_S_end, dispatch_run_app, Hrun.
    cbn [dispatch_run dispatch_step]. rewrite Hm, Hp.
    destruct (Nat.ltb_spec k (length pages)) as [_|?]; [|lia].
    eexists. split; [reflexivity|]. cbn [d_pages d_main d_tasks].
    rewrite length_insert. repeat split; auto.
    intros i Hi. destruct (decide (i = k)) as [->|Hne].
    + apply list_lookup_insert_eq. lia.
    + rewrite list_lookup_insert_ne by auto. apply Ht. lia.
Qed.

(** How many steps a goroutine still has to take. *)
Lemma task_run (env : Env) (cfg : Config) (i : nat) : forall fuel c p s,
  d_tasks s !! i = Some (Some c) -> d_pages s !! i = Some p ->
  match c with
  | pcCreateTemp => 5 | pcConvert => 4 | pcWatermark => 3
  | pcReport _ => 2 | pcDone => 1 | pcExit => 0
  end <= fuel ->
  exists s',
    dispatch_run env cfg (task_schedule env cfg fuel i c p) s = Some s'
    /\ d_tasks s' = <[i := Some pcExit]> (d_tasks s)
    /\ d_main s' = d_main s
    /\ forall j, j <> i -> d_pages s' !! j = d_pages s !! j.
Proof.
  induction fuel as [|fuel IH]; intros c p s Ht Hp Hrank.
  - destruct c; try lia. exists s. cbn. repeat split; auto.
    symmetry. now apply list_insert_id.
  - assert (Hi : i < length (d_tasks s)) by (eapply lookup_lt_Some; eauto).
    assert (Hi' : i < length (d_pages s)) by (eapply lookup_lt_Some; eauto).
    assert (Hcase : c = pcExit \/ c = pcDone \/ (c <> pcDone /\ c <> pcExit))
      by (destruct c; auto; right; right; split; discriminate).
    destruct Hcase as [-> | [-> | [Hnd Hne]]].
    { exists s. cbn. repeat split; auto. symmetry. now apply list_insert_id. }
    { cbn [task_schedule task_step dispatch_run dispatch_step]. rewrite Ht, Hp.
      destruct fuel; cbn [task_schedule dispatch_run];
        (eexists; split; [reflexivity|]; cbn; auto). }
    destruct (task_step env cfg c p) as [[c' p'] t] eqn:Hstep.
    assert (Hsched : task_schedule env cfg (S fuel) i c p
                     = Task i :: task_schedule env cfg fuel i c' p').
    { cbn [task_schedule]. rewrite Hstep. now destruct c. }
    rewrite Hsched. cbn [dispatch_run dispatch_step]. rewrite Ht, Hp, Hstep.
    set (s1 := {| d_pages := <[i:=p']> (d_pages s);
                  d_tasks := <[i:=Some c']> (d_tasks s);
                  d_wg := d_wg s; d_main := d_main s;
                  d_trace := d_trace s ++ t |}).
    assert (Hs1 : (match c with
                   | pcDone => Some {| d_pages := d_pages s;
                        d_tasks := <[i:=Some pcExit]> (d_tasks s);
                        d_wg := (d_wg s - 1)%Z; d_main := d_main s;
                        d_trace := d_trace s |}
                   | pcExit => None
                   | _ => Some s1
                   end) = Some s1) by (destruct c; congruence).
    rewrite Hs1.
    destruct (IH c' p' s1) as (s' & Hrun & Htasks & Hmain & Hpages).
    + cbn. now apply list_lookup_insert_eq.
    + cbn. now apply list_lookup_insert_eq.
    + destruct c; cbn [task_step] in Hstep; try congruence.
      * destruct (createTempFile env cfg p) as [[? [?|]] ?];
          injection Hstep as <- <- <-; cbn in *; lia.
      * destruct (convert env cfg p) as [[?|] ?]; [|destruct (watermark_enabled cfg)];
          injection Hstep as <- <- <-; cbn in *; lia.
      * destruct (watermark env cfg p) as [? ?]; injection Hstep as <- <- <-;
          cbn in *; lia.
      * injection Hstep as <- <- <-; cbn in *; lia.
    + exists s'. split; [exact Hrun|]. split; [|split].
      * rewrite Htasks. cbn. apply list_insert_insert_eq.
      * rewrite Hmain. reflexivity.
      * intros j Hj. rewrite Hpages by auto. cbn.
        now apply list_lookup_insert_ne.
Qed.

(** The goroutines of the pages from index [k] on, run one after the
    other. *)
Lemma run_tasks (env : Env) (cfg : Config) : forall rest k s,
  (forall j p, rest !! j = Some p ->
     d_pages s !! (k + j) = Some p /\ d_tasks s !! (k + j) = Some (Some pcCreateTemp)) ->
  exists s',
    dispatch_run env cfg
      (concat (imap (fun i p => task_schedule env cfg 5 (k + i) pcCreateTemp p) rest)) s
    = Some s'
    /\ d_main s' = d_main s
    /\ (forall j, j < k -> d_tasks s' !! j = d_tasks s !! j)
    /\ (forall j, k <= j -> j < k + length rest -> d_tasks s' !! j = Some (Some pcExit)).
Proof.
  induction rest as [|p rest IH]; intros k s Hs.
  - exists s. cbn. repeat split; auto. intros j ? ?. lia.
  - rewrite imap_cons. cbn [concat]. rewrite dispatch_run_app.
    destruct (Hs 0 p eq_refl) as [Hp Ht]. rewrite Nat.add_0_r in Hp, Ht.
    destruct (task_run env cfg k 5 pcCreateTemp p s Ht Hp (le_n _))
      as (s1 & Hrun & Htasks & Hmain & Hpages).
    rewrite Nat.add_0_r, Hrun.
    destruct (IH (S k) s1) as (s2 & Hrun2 & Hmain2 & Hlow & Hhigh).
    { intros j q Hq. destruct (Hs (S j) q Hq) as [Hq1 Hq2].
      replace (S k + j) with (k + S j) by lia. split.
      - rewrite Hpages by lia. exact Hq1.
      - rewrite Htasks, list_lookup_insert_ne by lia. exact Hq2. }
    exists s2. split.
    { rewrite <- Hrun2. f_equal. f_equal. apply imap_ext. intros j q _.
      cbv [compose]. now replace (k + S j) with (S k + j) by lia. }
    split; [congruence|]. split.
    + intros j Hj. rewrite Hlow by lia. rewrite Htasks.
      apply list_lookup_insert_ne. lia.
    + intros j Hj1 Hj2. cbn [length] in Hj2.
      destruct (decide (j = k)) as [->|Hne].
      * rewrite Hlow by lia. rewrite Htasks. apply list_lookup_insert_eq.
        eapply lookup_lt_Some; eauto.
      * apply Hhigh; lia.
Qed.

Lemma pending_all_exit (tasks : list (option pc)) :
  (forall i, i < length tasks -> tasks !! i = Some (Some pcExit)) -> pending tasks = 0.
Proof.
  unfold pending. induction tasks as [|t tasks IH]; intros Hall; [reflexivity|].
  pose proof (Hall 0 ltac:(cbn; lia)) as H0. cbn in H0. injection H0 as ->.
  cbn. apply IH. intros i Hi. apply (Hall (S i)). cbn. lia.
Qed.

(** In a run in which every external command that is started comes back
    (the runs an [Env] describes), whatever the commands answer and whatever
    the list of pages, there is a schedule under which [genProcessedPages]
    returns: the one that starts all goroutines and then runs them one after
    the other.  A [convert] or [magick] that never returns is outside the
    statement. *)
Theorem genProcessedPages_returns (env : Env) (cfg : Config) (pages : list page) :
  exists pages' t,
    genProcessedPages env cfg pages (sequential_schedule env cfg pages)
    = Some (pages', t).
Proof.
  unfold genProcessedPages, sequential_schedule.
  destruct (spawn_phase env cfg pages (length pages) (le_n _))
    as (s0 & Hrun0 & Hp0 & Hm0 & Hlen0 & Ht0).
  assert (Hrun1 : exists s1,
    dispatch_run env cfg (replicate (S (length pages)) Main) (dispatch_init pages)
    = Some s1
    /\ d_pages s1 = pages /\ d_main s1 = mWait /\ d_tasks s1 = d_tasks s0).
  { rewrite replicate_S_end, dispatch_run_app, Hrun0.
    cbn [dispatch_run dispatch_step]. rewrite Hm0, Hp0, Nat.ltb_irrefl.
    eexists. split; [reflexivity|]. cbn. auto. }
  destruct Hrun1 as (s1 & Hrun1 & Hp1 & Hm1 & Ht1).
  destruct (run_tasks env cfg pages 0 s1) as (s2 & Hrun2 & Hm2 & _ & Hexit).
  { intros j p Hj. cbn [Nat.add]. rewrite Hp1, Ht1. split; [exact Hj|].
    apply Ht0. eapply lookup_lt_Some; eauto. }
  cbn [Nat.add] in Hrun2.
  rewrite dispatch_run_app, Hrun1, dispatch_run_app.
  rewrite Hrun2.
  assert (Hinv : dispatch_inv env cfg pages s2).
  { eapply dispatch_run_inv; [|exact Hrun2].
    eapply dispatch_run_inv; [|exact Hrun1]. apply dispatch_init_inv. }
  assert (Hwg : d_wg s2 = 0%Z).
  { rewrite (inv_wg _ _ _ _ Hinv), pending_all_exit; [reflexivity|].
    intros i Hi. apply Hexit; [lia|].
    rewrite (inv_len_tasks _ _ _ _ Hinv) in Hi. cbn. lia. }
  cbn [dispatch_run dispatch_step]. rewrite Hm2, Hm1, Hwg. cbn.
  eauto.
Qed.

(** *** Cleanup *)

Lemma printCommandOutput_no_remove (b : string) (err : option string) :
  existsb is_remove (printCommandOutput b err) = false.
Proof. now destruct err. Qed.

Lemma createTempFile_no_remove (env : Env) (cfg : Config) (p : page) :
  existsb is_remove (snd (createTempFile env cfg p)) = false.
Proof. unfold createTempFile. now destruct (osCreateTemp _ _ _ _). Qed.

Lemma convert_no_remove (env : Env) (cfg : Config) (p : page) :
  existsb is_remove (snd (convert env cfg p)) = false.
Proof.
  unfold convert. destruct (CombinedOutput env (convert_argv cfg p)) as [b err].
  cbn. apply printCommandOutput_no_remove.
Qed.

Lemma watermark_no_remove (env : Env) (cfg : Config) (p : page) :
  existsb is_remove (snd (watermark env cfg p)) = false.
Proof.
  unfold watermark. destruct (CombinedOutput env (watermark_argv cfg p)) as [b err].
  cbn. apply printCommandOutput_no_remove.
Qed.

Lemma task_step_no_remove (env : Env) (cfg : Config) (c : pc) (p : page) :
  existsb is_remove (snd (task_step env cfg c p)) = false.
Proof.
  destruct c; cbn [task_step].
  - pose proof (createTempFile_no_remove env cfg p) as Hc.
    now destruct (createTempFile env cfg p) as [[? ?] ?].
  - pose proof (convert_no_remove env cfg p) as Hc.
    now destruct (convert env cfg p) as [? ?].
  - pose proof (watermark_no_remove env cfg p) as Hc.
    now destruct (watermark env cfg p) as [? ?].
  - now destruct err.
  - reflexivity.
  - reflexivity.
Qed.

Lemma dispatch_step_no_remove (env : Env) (cfg : Config) (who : thread)
    (s s' : dispatch) :
  dispatch_step env cfg who s = Some s' ->
  existsb is_remove (d_trace s) = false ->
  existsb is_remove (d_trace s') = false.
Proof.
  destruct who as [|i]; cbn [dispatch_step].
  - destruct (d_main s); [destruct (_ <? _) | destruct (_ =? _)%Z |];
      try discriminate; now intros [= <-].
  - destruct (d_tasks s !! i) as [[c|]|]; try discriminate.
    destruct (d_pages s !! i) as [p|]; try discriminate.
    pose proof (task_step_no_remove env cfg c p) as Hstep.
    destruct (task_step env cfg c p) as [[c' p'] t]. cbn [snd] in Hstep.
    destruct c; try discriminate; intros [= <-]; cbn [d_trace]; auto;
      intros Hs; now rewrite existsb_app, Hs, Hstep.
Qed.

Lemma dispatch_run_no_remove (env : Env) (cfg : Config) (sched : list thread) :
  forall s s',
  dispatch_run env cfg sched s = Some s' ->
  existsb is_remove (d_trace s) = false ->
  existsb is_remove (d_trace s') = false.
Proof.
  induction sched as [|who sched IH]; intros s s'; cbn [dispatch_run].
  - now intros [= <-].
  - destruct (dispatch_step env cfg who s) as [s1|] eqn:Hs; [|discriminate].
    intros Hrun Hno. eapply IH; eauto. eapply dispatch_step_no_remove; eauto.
Qed.

Lemma ingest_loop_no_remove (paths : list string) :
  forall acc out r out',
  ingest_loop paths acc out = (r, out') ->
  existsb is_remove out = false -> existsb is_remove out' = false.
Proof.
  induction paths as [|path paths IH]; intros acc out r out'; cbn [ingest_loop].
  - now intros [= <- <-].
  - destruct (indexPage path); try (now intros [= <- <-]).
    intros Hl Hno. eapply IH; eauto. now rewrite existsb_app, Hno.
Qed.

Lemma map_Println_no_remove (lines : list string) :
  existsb is_remove (map Println lines) = false.
Proof. induction lines; auto. Qed.

Lemma ingestPages_no_remove (cfg : Config) (fs : root) :
  existsb is_remove (snd (ingestPages cfg fs)) = false.
Proof.
  unfold ingestPages. destruct (walkDirectorySearchPath cfg fs) as [w err].
  destruct (ingest_loop (sent w) [] (map Println (skipped w))) as [r out] eqn:Hl.
  pose proof (ingest_loop_no_remove _ _ _ _ _ Hl (map_Println_no_remove _)) as Hno.
  destruct r; [destruct err|..]; exact Hno.
Qed.

(** When bundling fails, [main] removes nothing: whatever the run was, its
    trace holds no [os.Remove], so every temporary file made stays. *)
Theorem main_failure_removes_nothing (env : Env) (cfg : Config) (fs : root)
    (sched : list thread) (pages pages' : list page) (t1 t2 : trace) (e : string) :
  (String.length (directorySearchPath cfg) =? 0)
  || (String.length (outputFilePath cfg) =? 0) = false ->
  ingestPages cfg fs = (Ok pages, t1) ->
  genProcessedPages env cfg pages sched = Some (pages', t2) ->
  fst (bundlePages env cfg pages') = Some e ->
  exists t, main env cfg fs sched = Returned t /\ existsb is_remove t = false.
Proof.
  intros Hcfg Hing Hgen Hb. unfold main. rewrite Hcfg, Hing, Hgen.
  pose proof (ingestPages_no_remove cfg fs) as H1. rewrite Hing in H1. cbn [snd] in H1.
  assert (H2 : existsb is_remove t2 = false).
  { unfold genProcessedPages in Hgen.
    destruct (dispatch_run env cfg sched (dispatch_init pages)) as [s|] eqn:Hrun;
      [|discriminate].
    destruct (d_main s); try discriminate. injection Hgen as <- <-.
    eapply dispatch_run_no_remove; eauto. }
  unfold bundlePages in *.
  destruct (CombinedOutput env (bundle_argv cfg pages')) as [b err].
  cbn [fst] in Hb. subst err.
  eexists. split; [reflexivity|].
  rewrite !existsb_app, H1, H2. reflexivity.
Qed.

Lemma main_failure_removes_nothing_witness :
  exists t,
    main env_bundle_fails example_cfg (Root (Dir "scans" [ File "a1.jpg" ]))
      (sequential_schedule env_bundle_fails example_cfg [ page_a1 ])
    = Returned t
    /\ existsb is_remove t = false.
Proof.
  eapply (main_failure_removes_nothing env_bundle_fails example_cfg
            (Root (Dir "scans" [ File "a1.jpg" ]))
            (sequential_schedule env_bundle_fails example_cfg [ page_a1 ]));
    vm_compute; reflexivity.
Defined.

(** When bundling succeeds, [main] removes the [tmpPath] of every page, and
    no temporary file is left. *)
Theorem main_success_removes_all (env : Env) (cfg : Config) (fs : root)
    (sched : list thread) (pages pages' : list page) (t1 t2 : trace) :
  (String.length (directorySearchPath cfg) =? 0)
  || (String.length (outputFilePath cfg) =? 0) = false ->
  ingestPages cfg fs = (Ok pages, t1) ->
  genProcessedPages env cfg pages sched = Some (pages', t2) ->
  fst (bundlePages env cfg pages') = None ->
  exists t,
    main env cfg fs sched = Returned (t ++ map (fun p => Remove (tmpPath p)) pages').
Proof.
  intros Hcfg Hing Hgen Hb. unfold main. rewrite Hcfg, Hing, Hgen.
  destruct (bundlePages env cfg pages') as [err t3]. cbn [fst] in Hb. subst err.
  exists (t1 ++ t2 ++ [ Println "bundling..." ] ++ t3).
  now rewrite <- !app_assoc.
Qed.

Lemma main_success_removes_all_witness :
  exists t,
    main env_ok example_cfg (Root (Dir "scans" [ File "a1.jpg" ]))
      (sequential_schedule env_ok example_cfg [ page_a1 ])
    = Returned (t ++ map (fun p => Remove (tmpPath p))
                       [ with_tmpPath page_a1 "work/watermarker-a1.jpg" ]).
Proof.
  eapply (main_success_removes_all env_ok example_cfg
            (Root (Dir "scans" [ File "a1.jpg" ]))
            (sequential_schedule env_ok example_cfg [ page_a1 ]));
    vm_compute; reflexivity.
Defined.

(** *** The sort: exchanges and ranges *)

Module pdq_facts.
Import pdq pdq_spec.

Section Swap.

Context {E : Type} `{Inhabited E}.
Implicit Types l : list E.

Lemma swap_length l i j : length (swap l i j) = length l.
Proof. unfold swap. now rewrite !length_insert. Qed.

Lemma swap_lookup l i j k :
  i < length l -> j < length l ->
  swap l i j !!! k
  = if decide (k = i) then l !!! j else if decide (k = j) then l !!! i else l !!! k.
Proof.
  intros Hi Hj. unfold swap.
  rewrite list_lookup_total_insert, length_insert.
  destruct (decide (k = i)) as [->|Hki].
  - rewrite decide_True by auto. reflexivity.
  - rewrite decide_False by (intros [-> _]; congruence).
    rewrite list_lookup_total_insert.
    destruct (decide (k = j)) as [->|Hkj].
    + rewrite decide_True by auto. reflexivity.
    + rewrite decide_False by (intros [-> _]; congruence). reflexivity.
Qed.

Lemma swap_same l i : swap l i i = l.
Proof.
  unfold swap. destruct (decide (i < length l)) as [Hi|Hi].
  - rewrite list_insert_insert_eq. apply list_insert_id.
    now apply list_lookup_lookup_total_lt.
  - rewrite !list_insert_ge by (rewrite ?length_insert; lia). reflexivity.
Qed.

Lemma swap_Permutation l i j :
  i < length l -> j < length l -> Permutation (swap l i j) l.
Proof.
  intros Hi Hj. unfold swap.
  apply Permutation_insert_swap; now apply list_lookup_lookup_total_lt.
Qed.

(** Two neighbours exchanged. *)
Lemma swap_adjacent l j :
  S j < length l ->
  swap l (S j) j = take j l ++ l !!! (S j) :: l !!! j :: drop (S (S j)) l.
Proof.
  intros Hj.
  assert (Hlen : length (take j l ++ l !!! S j :: l !!! j :: drop (S (S j)) l) = length l).
  { rewrite length_app, length_take. cbn [length]. rewrite length_drop. lia. }
  apply (list_eq_same_length _ _ (length l)); auto using swap_length.
  intros k x y Hk Hx Hy.
  apply list_lookup_total_correct in Hx, Hy. subst x y.
  rewrite swap_lookup by lia.
  destruct (decide (k < j)) as [Hlt|Hge].
  - rewrite lookup_total_app_l by (rewrite length_take; lia).
    rewrite lookup_total_take_lt by lia.
    repeat case_decide; try lia; reflexivity.
  - rewrite lookup_total_app_r by (rewrite length_take; lia).
    rewrite length_take, Nat.min_l by lia.
    destruct (k - j) as [|[|n]] eqn:Hd.
    + cbn. repeat case_decide; try lia; reflexivity.
    + cbn. repeat case_decide; try lia; reflexivity.
    + rewrite 2!lookup_total_cons_ne_0 by lia. cbn [Nat.pred].
      rewrite lookup_total_drop. replace (S (S j) + n) with k by lia.
      repeat case_decide; try lia; reflexivity.
Qed.

End Swap.

Section Ranges.

Context {E : Type} `{Inhabited E}.
Variable key : E -> Z.
Implicit Types l : list E.

Lemma rperm_length a b l l' : rperm a b l l' -> length l' = length l.
Proof. induction 1; auto. now rewrite <- (swap_length l i j). Qed.

Lemma rperm_trans a b l1 l2 l3 : rperm a b l1 l2 -> rperm a b l2 l3 -> rperm a b l1 l3.
Proof.
  induction 1 as [|l l' i j ? ? ? ? ? Hp IH]; intros H23; [assumption|].
  apply rperm_swap with (i := i) (j := j); auto.
Qed.

Lemma rperm_one a b l i j :
  a <= i -> i < b -> a <= j -> j < b -> b <= length l -> rperm a b l (swap l i j).
Proof. intros. apply rperm_swap with (i := i) (j := j); auto. constructor. Qed.

Lemma rperm_weaken a b a' b' l l' :
  a' <= a -> b <= b' -> b' <= length l -> rperm a b l l' -> rperm a' b' l l'.
Proof.
  intros Ha Hb Hl Hp. induction Hp as [|l l' i j ? ? ? ? ? Hp IH]; [constructor|].
  eapply rperm_swap with (i := i) (j := j); try lia.
  apply IH. rewrite swap_length. lia.
Qed.

Lemma rperm_Permutation a b l l' : rperm a b l l' -> Permutation l l'.
Proof.
  induction 1 as [|l l' i j ? ? ? ? ? Hp IH]; [reflexivity|].
  rewrite <- IH. symmetry. apply swap_Permutation; lia.
Qed.

(** Outside of the range nothing moves. *)
Lemma rperm_frame a b l l' k :
  rperm a b l l' -> k < a \/ b <= k -> l' !!! k = l !!! k.
Proof.
  induction 1 as [|l l' i j ? ? ? ? ? Hp IH]; [reflexivity|]. intros Hk.
  rewrite IH by assumption. rewrite swap_lookup by lia.
  repeat case_decide; try lia; reflexivity.
Qed.

(** What holds of every element of the range still does. *)
Lemma rperm_all_in a b (Q : E -> Prop) l l' :
  rperm a b l l' -> all_in a b Q l -> all_in a b Q l'.
Proof.
  induction 1 as [|l l' i j ? ? ? ? ? Hp IH]; [auto|]. intros Hq.
  apply IH. intros k Hk1 Hk2. rewrite swap_lookup by lia.
  repeat case_decide; apply Hq; lia.
Qed.

Lemma all_in_weaken a b a' b' (Q : E -> Prop) l :
  a <= a' -> b' <= b -> all_in a b Q l -> all_in a' b' Q l.
Proof. intros ? ? Hq k ? ?. apply Hq; lia. Qed.

Lemma all_in_frame a b a' b' (Q : E -> Prop) l l' :
  rperm a' b' l l' -> b <= a' \/ b' <= a -> all_in a b Q l -> all_in a b Q l'.
Proof.
  intros Hp Hd Hq k Hk1 Hk2. rewrite (rperm_frame _ _ _ _ _ Hp) by lia. now apply Hq.
Qed.

Lemma sorted_range_frame a b a' b' l l' :
  rperm a' b' l l' -> b <= a' \/ b' <= a ->
  sorted_range key a b l -> sorted_range key a b l'.
Proof.
  intros Hp Hd Hs i j Hi Hij Hj.
  rewrite !(rperm_frame _ _ _ _ _ Hp) by lia. now apply Hs.
Qed.

Lemma sorted_range_weaken a b a' b' l :
  a <= a' -> b' <= b -> sorted_range key a b l -> sorted_range key a' b' l.
Proof. intros ? ? Hs i j ? ? ?. apply Hs; lia. Qed.

Lemma sorted_range_short a b l : b <= S a -> sorted_range key a b l.
Proof. intros Hb i j Hi Hij Hj. replace j with i by lia. lia. Qed.

Lemma sorted_range_snoc a b l :
  a < b ->
  sorted_range key a b l -> (key (l !!! (b - 1)%nat) <= key (l !!! b))%Z ->
  sorted_range key a (S b) l.
Proof.
  intros Hab Hs Hb i j Hi Hij Hj.
  destruct (decide (j = b)) as [->|Hne]; [|apply Hs; lia].
  destruct (decide (i = b)) as [->|Hne']; [lia|].
  etransitivity; [|exact Hb]. apply Hs; lia.
Qed.

(** Two sorted ranges around a pivot. *)
Lemma sorted_range_glue a mid b l (kp : Z) :
  a <= mid -> mid < b ->
  sorted_range key a mid l ->
  sorted_range key (S mid) b l ->
  all_in a mid (fun x => (key x <= kp)%Z) l ->
  key (l !!! mid) = kp ->
  all_in (S mid) b (fun x => (kp <= key x)%Z) l ->
  sorted_range key a b l.
Proof.
  intros Ham Hmb Hl Hr Hlo Hm Hhi i j Hi Hij Hj.
  destruct (decide (j < mid)) as [?|?]; [apply Hl; lia|].
  destruct (decide (mid < i)) as [?|?]; [apply Hr; lia|].
  assert (Hi' : (key (l !!! i) <= kp)%Z).
  { destruct (decide (i = mid)) as [->|?]; [lia|]. apply Hlo; lia. }
  assert (Hj' : (kp <= key (l !!! j))%Z).
  { destruct (decide (j = mid)) as [->|?]; [lia|]. apply Hhi; lia. }
  lia.
Qed.

Lemma lower_bounded_rperm a b l l' :
  rperm a b l l' -> lower_bounded key a b l -> lower_bounded key a b l'.
Proof.
  intros Hp [->|Hlb]; [now left|]. destruct (decide (a = 0)) as [->|Ha]; [now left|].
  right. rewrite (rperm_frame _ _ _ _ (a - 1) Hp) by lia.
  now apply (rperm_all_in _ _ _ _ _ Hp).
Qed.

Lemma lower_bounded_left a mid b l :
  mid <= b -> lower_bounded key a b l -> lower_bounded key a mid l.
Proof.
  intros Hm [->|Hlb]; [now left|]. right. eapply all_in_weaken; eauto.
Qed.

End Ranges.

Section Sorting.

Context {E : Type} `{Inhabited E}.
Variable cmp : E -> E -> Z.
Variable key : E -> Z.
Variable P : E -> Prop.
Hypothesis cmp_key :
  forall x y, P x -> P y -> (cmp x y <? 0)%Z = (key x <? key y)%Z.
Implicit Types l : list E.

Lemma less_key l i j :
  Forall P l -> i < length l -> j < length l ->
  less cmp l i j = (key (l !!! i) <? key (l !!! j))%Z.
Proof.
  intros Hl Hi Hj. unfold less. apply cmp_key; now apply Forall_lookup_total_1.
Qed.

Lemma rperm_Forall a b l l' : rperm a b l l' -> Forall P l -> Forall P l'.
Proof. intros Hp Hl. now rewrite <- (rperm_Permutation _ _ _ _ Hp). Qed.

Lemma swap_Forall l i j :
  i < length l -> j < length l -> Forall P l -> Forall P (swap l i j).
Proof. intros Hi Hj Hl. now rewrite swap_Permutation. Qed.

Lemma stable_refl l : stable key l l.
Proof. intros k. reflexivity. Qed.

Lemma stable_trans l1 l2 l3 : stable key l1 l2 -> stable key l2 l3 -> stable key l1 l3.
Proof. intros H12 H23 k. now rewrite H23, H12. Qed.

(** Exchanging two neighbours of different keys keeps the order within
    every key. *)
Lemma stable_swap_adjacent l j :
  S j < length l -> key (l !!! S j) <> key (l !!! j) -> stable key l (swap l (S j) j).
Proof.
  intros Hj Hne k. rewrite swap_adjacent by assumption.
  assert (Hl : l = take j l ++ l !!! j :: l !!! S j :: drop (S (S j)) l).
  { rewrite <- (take_drop_middle l j (l !!! j)) at 1
      by (apply list_lookup_lookup_total_lt; lia).
    now rewrite (drop_S l (l !!! S j) (S j)) by (apply list_lookup_lookup_total_lt; lia). }
  set (pre := take j l) in *. set (post := drop (S (S j)) l) in *.
  set (x := l !!! j) in *. set (y := l !!! S j) in *.
  clearbody pre post x y. subst l.
  rewrite !List.filter_app. f_equal. cbn [List.filter].
  destruct (Z.eqb_spec (key y) k), (Z.eqb_spec (key x) k);
    try reflexivity; congruence.
Qed.

(** *** Insertion sort *)

Lemma insert_down_spec a hi : forall j l,
  a <= j -> j <= hi -> hi < length l -> Forall P l ->
  (forall i1 i2, a <= i1 -> i1 < i2 -> i2 <= hi -> i1 <> j -> i2 <> j ->
     (key (l !!! i1) <= key (l !!! i2))%Z) ->
  (forall i2, j < i2 -> i2 <= hi -> (key (l !!! j) <= key (l !!! i2))%Z) ->
  rperm a (S hi) l (insert_down cmp l a j)
  /\ sorted_range key a (S hi) (insert_down cmp l a j)
  /\ stable key l (insert_down cmp l a j).
Proof.
  induction j as [|j IH]; intros l Ha Hhi Hlen Hl Hsort Hj.
  - cbn [insert_down]. split; [constructor|]. split; [|apply stable_refl].
    intros i1 i2 H1 H12 H2.
    destruct (decide (i1 = i2)) as [->|?]; [lia|].
    destruct (decide (i1 = 0)) as [->|?]; [apply Hj; lia | apply Hsort; lia].
  - cbn [insert_down]. rewrite less_key by (auto; lia).
    destruct (a <? S j) eqn:Haj; cbn [andb];
      [destruct (Z.ltb_spec (key (l !!! S j)) (key (l !!! j))) as [Hlt|Hge]|].
    + apply Nat.ltb_lt in Haj.
      destruct (IH (swap l (S j) j)) as (Hp & Hs & Hst); try lia.
      * rewrite swap_length; lia.
      * apply swap_Forall; auto; lia.
      * intros i1 i2 H1 H12 H2 Hn1 Hn2. rewrite !swap_lookup by lia.
        repeat case_decide; subst; first [ lia | apply Hsort; lia | apply Hj; lia ].
      * intros i2 H1 H2. rewrite !swap_lookup by lia.
        repeat case_decide; subst; first [ lia | apply Hsort; lia | apply Hj; lia ].
      * split; [|split]; auto.
        -- apply rperm_swap with (i := S j) (j := j); auto; lia.
        -- eapply stable_trans; [|exact Hst]. apply stable_swap_adjacent; lia.
    + split; [constructor|]. split; [|apply stable_refl].
      intros i1 i2 H1 H12 H2.
      destruct (decide (i1 = i2)) as [->|?]; [lia|].
      destruct (decide (i1 = S j)) as [->|?]; [apply Hj; lia|].
      destruct (decide (i2 = S j)) as [->|?]; [|apply Hsort; lia].
      destruct (decide (i1 = j)) as [->|?]; [lia|].
      etransitivity; [apply (Hsort i1 j); lia | lia].
    + apply Nat.ltb_ge in Haj. assert (a = S j) as -> by lia.
      split; [constructor|]. split; [|apply stable_refl].
      intros i1 i2 H1 H12 H2.
      destruct (decide (i1 = i2)) as [->|?]; [lia|].
      destruct (decide (i1 = S j)) as [->|?]; [apply Hj; lia | apply Hsort; lia].
Qed.

Lemma insertion_fold_spec a : forall n l,
  a + 1 + n <= length l -> Forall P l ->
  let l' := fold_left (fun d i => insert_down cmp d a i) (seq (a + 1) n) l in
  rperm a (a + 1 + n) l l' /\ sorted_range key a (a + 1 + n) l' /\ stable key l l'.
Proof.
  induction n as [|n IH]; intros l Hlen Hl; cbn zeta.
  - cbn [seq fold_left]. split; [constructor|]. split; [|apply stable_refl].
    apply sorted_range_short. lia.
  - rewrite seq_S, fold_left_app. cbn [fold_left].
    destruct (IH l) as (Hp & Hs & Hst); [lia | assumption |].
    set (l1 := fold_left _ (seq (a + 1) n) l) in *.
    assert (Hlen1 : length l1 = length l) by apply (rperm_length _ _ _ _ Hp).
    destruct (insert_down_spec a (a + 1 + n) (a + 1 + n) l1) as (Hp2 & Hs2 & Hst2);
      try lia.
    + eapply rperm_Forall; eauto.
    + intros i1 i2 ? ? ? ? ?. apply Hs; lia.
    + replace (a + 1 + S n) with (S (a + 1 + n)) by lia.
      split; [|split]; auto.
      * eapply rperm_trans; [|exact Hp2].
        apply (rperm_weaken a (a + 1 + n)); [lia | lia | lia | exact Hp].
      * eapply stable_trans; eauto.
Qed.

Lemma insertionSort_spec l a b :
  a <= b -> b <= length l -> Forall P l ->
  rperm a b l (insertionSortCmpFunc cmp l a b)
  /\ sorted_range key a b (insertionSortCmpFunc cmp l a b)
  /\ stable key l (insertionSortCmpFunc cmp l a b).
Proof.
  intros Hab Hb Hl. unfold insertionSortCmpFunc.
  destruct (decide (b <= a + 1)) as [Hs|Hs].
  - replace (b - (a + 1)) with 0 by lia. cbn [seq fold_left].
    split; [constructor|]. split; [|apply stable_refl].
    apply sorted_range_short. lia.
  - pose proof (insertion_fold_spec a (b - (a + 1)) l) as Hf.
    replace (a + 1 + (b - (a + 1))) with b in Hf by lia.
    apply Hf; auto.
Qed.

(** *** Partitioning *)

Lemma skip_less_spec l a j : forall fuel i,
  S j - i <= fuel -> i <= S j -> j < length l -> a < length l -> Forall P l ->
  let i' := skip_less cmp fuel l a i j in
  i <= i' /\ i' <= S j
  /\ (forall k, i <= k -> k < i' -> (key (l !!! k) < key (l !!! a))%Z)
  /\ (i' <= j -> (key (l !!! a) <= key (l !!! i'))%Z).
Proof.
  induction fuel as [|fuel IH]; intros i Hf Hi Hj Ha Hl; cbn zeta; cbn [skip_less].
  - repeat split; try lia.
  - destruct (Nat.leb_spec i j) as [Hij|Hij]; cbn [andb].
    + rewrite less_key by (auto; lia).
      destruct (Z.ltb_spec (key (l !!! i)) (key (l !!! a))) as [Hlt|Hge].
      * destruct (IH (S i)) as (H1 & H2 & H3 & H4); try lia; auto.
        repeat split; try lia; auto.
        intros k Hk1 Hk2. destruct (decide (k = i)) as [->|?]; [lia|]. apply H3; lia.
      * repeat split; try lia.
    + repeat split; try lia.
Qed.

Lemma skip_not_less_spec l a i : forall j,
  1 <= i -> i <= S j -> j < length l -> a < length l -> Forall P l ->
  let j' := skip_not_less cmp l a i j in
  j' <= j /\ i <= S j'
  /\ (forall k, j' < k -> k <= j -> (key (l !!! a) <= key (l !!! k))%Z)
  /\ (i <= j' -> (key (l !!! j') < key (l !!! a))%Z).
Proof.
  induction j as [|j IH]; intros Hi Hij Hj Ha Hl; cbn zeta; cbn [skip_not_less].
  - repeat split; try lia.
  - destruct (Nat.leb_spec i (S j)) as [Hle|Hgt]; cbn [andb].
    + rewrite less_key by (auto; lia).
      destruct (Z.ltb_spec (key (l !!! S j)) (key (l !!! a))) as [Hlt|Hge]; cbn [negb].
      * repeat split; try lia.
      * destruct IH as (H1 & H2 & H3 & H4); try lia; auto.
        repeat split; try lia; auto.
        intros k Hk1 Hk2. destruct (decide (k = S j)) as [->|?]; [lia|]. apply H3; lia.
    + repeat split; try lia.
Qed.

Lemma partition_loop_spec a b : forall fuel l i j,
  S j - i <= fuel -> a + 1 <= i -> i <= S j -> j < b -> b <= length l -> Forall P l ->
  (forall k, a + 1 <= k -> k < i -> (key (l !!! k) < key (l !!! a))%Z) ->
  (forall k, j < k -> k < b -> (key (l !!! a) <= key (l !!! k))%Z) ->
  let '(l', j') := partition_loop cmp fuel l a i j in
  rperm (a + 1) b l l' /\ a <= j' /\ j' < b
  /\ (forall k, a + 1 <= k -> k <= j' -> (key (l' !!! k) < key (l !!! a))%Z)
  /\ (forall k, j' < k -> k < b -> (key (l !!! a) <= key (l' !!! k))%Z).
Proof.
  induction fuel as [|fuel IH]; intros l i j Hf Hi Hij Hj Hb Hl Hlo Hhi;
    cbn [partition_loop].
  - split; [constructor|]. repeat split; try lia; auto.
    intros k ? ?. apply Hlo; lia.
  - destruct (skip_less_spec l a j (S j - i) i) as (I1 & I2 & I3 & I4); try lia; auto.
    set (i1 := skip_less cmp (S j - i) l a i j) in *.
    destruct (skip_not_less_spec l a i1 j) as (J1 & J2 & J3 & J4); try lia; auto.
    set (j1 := skip_not_less cmp l a i1 j) in *.
    destruct (Nat.ltb_spec j1 i1) as [Hlt|Hge].
    + split; [constructor|]. repeat split; try lia.
      * intros k ? ?. destruct (decide (k < i)); [apply Hlo; lia | apply I3; lia].
      * intros k ? ?. destruct (decide (j < k)); [apply Hhi; lia | apply J3; lia].
    + specialize (I4 ltac:(lia)). specialize (J4 ltac:(lia)).
      assert (i1 < j1) by (destruct (decide (i1 = j1)) as [Heq|?]; [rewrite Heq in I4|]; lia).
      specialize (IH (swap l i1 j1) (i1 + 1) (j1 - 1)).
      rewrite swap_length in IH.
      assert (Ha : swap l i1 j1 !!! a = l !!! a).
      { rewrite swap_lookup by lia. repeat case_decide; try lia; reflexivity. }
      rewrite Ha in IH.
      destruct (partition_loop cmp fuel (swap l i1 j1) a (i1 + 1) (j1 - 1)) as [l' j'].
      destruct IH as (Hp & K1 & K2 & K3 & K4); try lia.
      * apply swap_Forall; auto; lia.
      * intros k ? ?. rewrite swap_lookup by lia.
        repeat case_decide; subst; try lia.
        destruct (decide (k < i)); [apply Hlo; lia | apply I3; lia].
      * intros k ? ?. rewrite swap_lookup by lia.
        repeat case_decide; subst; try lia.
        destruct (decide (j < k)); [apply Hhi; lia | apply J3; lia].
      * split; [|repeat split; auto].
        apply rperm_swap with (i := i1) (j := j1); auto; lia.
Qed.

Lemma partitionCmpFunc_loop l a b pivot :
  exists flag,
    partitionCmpFunc cmp l a b pivot
    = (let '(d, j) := partition_loop cmp (S (b - a)) (swap l a pivot) a (a + 1) (b - 1) in
       (swap d j a, j, flag)).
Proof.
  unfold partitionCmpFunc. cbn [partition_loop].
  destruct (_ <? _).
  - now exists true.
  - exists false. now destruct (partition_loop _ _ _ _ _ _).
Qed.

Lemma partitionCmpFunc_spec l a b pivot :
  a <= pivot -> pivot < b -> b <= length l -> Forall P l ->
  let '(l', mid, _) := partitionCmpFunc cmp l a b pivot in
  rperm a b l l' /\ a <= mid /\ mid < b
  /\ all_in a mid (fun x => (key x < key (l !!! pivot))%Z) l'
  /\ l' !!! mid = l !!! pivot
  /\ all_in (S mid) b (fun x => (key (l !!! pivot) <= key x)%Z) l'.
Proof.
  intros Hap Hpb Hb Hl.
  destruct (partitionCmpFunc_loop l a b pivot) as (flag & ->).
  pose proof (partition_loop_spec a b (S (b - a)) (swap l a pivot) (a + 1) (b - 1)) as Hloop.
  rewrite swap_length in Hloop.
  assert (Ha : swap l a pivot !!! a = l !!! pivot).
  { rewrite swap_lookup by lia. now rewrite decide_True. }
  rewrite Ha in Hloop.
  destruct (partition_loop cmp (S (b - a)) (swap l a pivot) a (a + 1) (b - 1)) as [d j].
  destruct Hloop as (Hp & K1 & K2 & K3 & K4); try lia.
  { apply swap_Forall; auto; lia. }
  assert (Hlen : length d = length l).
  { rewrite (rperm_length _ _ _ _ Hp). apply swap_length. }
  assert (Hda : d !!! a = l !!! pivot).
  { rewrite (rperm_frame _ _ _ _ a Hp) by lia. exact Ha. }
  split; [|repeat split; auto].
  - apply rperm_trans with (swap l a pivot); [apply rperm_one; lia|].
    apply rperm_trans with d; [apply (rperm_weaken (a + 1) b); auto; try lia|].
    + rewrite swap_length; lia.
    + apply rperm_one; lia.
  - intros k ? ?. rewrite swap_lookup by lia.
    repeat case_decide; subst; try lia; apply K3; lia.
  - rewrite swap_lookup by lia. now rewrite decide_True.
  - intros k ? ?. rewrite swap_lookup by lia.
    repeat case_decide; subst; try lia; apply K4; lia.
Qed.

Lemma skip_not_greater_spec l a j : forall fuel i,
  S j - i <= fuel -> i <= S j -> j < length l -> a < length l -> Forall P l ->
  let i' := skip_not_greater cmp fuel l a i j in
  i <= i' /\ i' <= S j
  /\ (forall k, i <= k -> k < i' -> (key (l !!! k) <= key (l !!! a))%Z)
  /\ (i' <= j -> (key (l !!! a) < key (l !!! i'))%Z).
Proof.
  induction fuel as [|fuel IH]; intros i Hf Hi Hj Ha Hl; cbn zeta;
    cbn [skip_not_greater].
  - repeat split; try lia.
  - destruct (Nat.leb_spec i j) as [Hij|Hij]; cbn [andb].
    + rewrite less_key by (auto; lia).
      destruct (Z.ltb_spec (key (l !!! a)) (key (l !!! i))) as [Hlt|Hge]; cbn [negb].
      * repeat split; try lia.
      * destruct (IH (S i)) as (H1 & H2 & H3 & H4); try lia; auto.
        repeat split; try lia; auto.
        intros k Hk1 Hk2. destruct (decide (k = i)) as [->|?]; [lia|]. apply H3; lia.
    + repeat split; try lia.
Qed.

Lemma skip_greater_spec l a i : forall j,
  1 <= i -> i <= S j -> j < length l -> a < length l -> Forall P l ->
  let j' := skip_greater cmp l a i j in
  j' <= j /\ i <= S j'
  /\ (forall k, j' < k -> k <= j -> (key (l !!! a) < key (l !!! k))%Z)
  /\ (i <= j' -> (key (l !!! j') <= key (l !!! a))%Z).
Proof.
  induction j as [|j IH]; intros Hi Hij Hj Ha Hl; cbn zeta; cbn [skip_greater].
  - repeat split; try lia.
  - destruct (Nat.leb_spec i (S j)) as [Hle|Hgt]; cbn [andb].
    + rewrite less_key by (auto; lia).
      destruct (Z.ltb_spec (key (l !!! a)) (key (l !!! S j))) as [Hlt|Hge].
      * destruct IH as (H1 & H2 & H3 & H4); try lia; auto.
        repeat split; try lia; auto.
        intros k Hk1 Hk2. destruct (decide (k = S j)) as [->|?]; [lia|]. apply H3; lia.
      * repeat split; try lia.
    + repeat split; try lia.
Qed.

Lemma partitionEqual_loop_spec a b : forall fuel l i j,
  S j - i <= fuel -> a + 1 <= i -> i <= S j -> j < b -> b <= length l -> Forall P l ->
  (forall k, a + 1 <= k -> k < i -> (key (l !!! k) <= key (l !!! a))%Z) ->
  (forall k, j < k -> k < b -> (key (l !!! a) < key (l !!! k))%Z) ->
  let '(l', i') := partitionEqual_loop cmp fuel l a i j in
  rperm (a + 1) b l l' /\ a + 1 <= i' /\ i' <= b
  /\ (forall k, a + 1 <= k -> k < i' -> (key (l' !!! k) <= key (l !!! a))%Z)
  /\ (forall k, i' <= k -> k < b -> (key (l !!! a) < key (l' !!! k))%Z).
Proof.
  induction fuel as [|fuel IH]; intros l i j Hf Hi Hij Hj Hb Hl Hlo Hhi;
    cbn [partitionEqual_loop].
  - split; [constructor|]. repeat split; try lia; auto.
    intros k ? ?. apply Hhi; lia.
  - destruct (skip_not_greater_spec l a j (S j - i) i) as (I1 & I2 & I3 & I4);
      try lia; auto.
    set (i1 := skip_not_greater cmp (S j - i) l a i j) in *.
    destruct (skip_greater_spec l a i1 j) as (J1 & J2 & J3 & J4); try lia; auto.
    set (j1 := skip_greater cmp l a i1 j) in *.
    destruct (Nat.ltb_spec j1 i1) as [Hlt|Hge].
    + split; [constructor|]. repeat split; try lia.
      * intros k ? ?. destruct (decide (k < i)); [apply Hlo; lia | apply I3; lia].
      * intros k ? ?. destruct (decide (j < k)); [apply Hhi; lia | apply J3; lia].
    + specialize (I4 ltac:(lia)). specialize (J4 ltac:(lia)).
      assert (i1 < j1) by (destruct (decide (i1 = j1)) as [Heq|?]; [rewrite Heq in I4|]; lia).
      specialize (IH (swap l i1 j1) (i1 + 1) (j1 - 1)).
      rewrite swap_length in IH.
      assert (Ha : swap l i1 j1 !!! a = l !!! a).
      { rewrite swap_lookup by lia. repeat case_decide; try lia; reflexivity. }
      rewrite Ha in IH.
      destruct (partitionEqual_loop cmp fuel (swap l i1 j1) a (i1 + 1) (j1 - 1)) as [l' i'].
      destruct IH as (Hp & K1 & K2 & K3 & K4); try lia.
      * apply swap_Forall; auto; lia.
      * intros k ? ?. rewrite swap_lookup by lia.
        repeat case_decide; subst; try lia.
        destruct (decide (k < i)); [apply Hlo; lia | apply I3; lia].
      * intros k ? ?. rewrite swap_lookup by lia.
        repeat case_decide; subst; try lia.
        destruct (decide (j < k)); [apply Hhi; lia | apply J3; lia].
      * split; [|repeat split; auto].
        apply rperm_swap with (i := i1) (j := j1); auto; lia.
Qed.

Lemma partitionEqualCmpFunc_spec l a b pivot :
  a <= pivot -> pivot < b -> b <= length l -> Forall P l ->
  let '(l', mid) := partitionEqualCmpFunc cmp l a b pivot in
  rperm a b l l' /\ a < mid /\ mid <= b
  /\ all_in a mid (fun x => (key x <= key (l !!! pivot))%Z) l'
  /\ all_in mid b (fun x => (key (l !!! pivot) < key x)%Z) l'.
Proof.
  intros Hap Hpb Hb Hl. unfold partitionEqualCmpFunc.
  pose proof (partitionEqual_loop_spec a b (S (b - a)) (swap l a pivot) (a + 1) (b - 1))
    as Hloop.
  rewrite swap_length in Hloop.
  assert (Ha : swap l a pivot !!! a = l !!! pivot).
  { rewrite swap_lookup by lia. now rewrite decide_True. }
  rewrite Ha in Hloop.
  destruct (partitionEqual_loop cmp (S (b - a)) (swap l a pivot) a (a + 1) (b - 1))
    as [d i].
  destruct Hloop as (Hp & K1 & K2 & K3 & K4); try lia.
  { apply swap_Forall; auto; lia. }
  assert (Hda : d !!! a = l !!! pivot).
  { rewrite (rperm_frame _ _ _ _ a Hp) by lia. exact Ha. }
  split; [|repeat split; auto; try lia].
  - apply rperm_trans with (swap l a pivot); [apply rperm_one; lia|].
    apply (rperm_weaken (a + 1) b); auto; try lia. rewrite swap_length; lia.
  - intros k ? ?. destruct (decide (k = a)) as [->|?]; [rewrite Hda; lia|].
    apply K3; lia.
Qed.

End Sorting.
End pdq_facts.

(** *** The sort: heap sort *)

Module pdq_heap.
Import pdq pdq_spec pdq_facts.

Section Heap.

Context {E : Type} `{Inhabited E}.
Variable cmp : E -> E -> Z.
Variable key : E -> Z.
Variable P : E -> Prop.
Hypothesis cmp_key :
  forall x y, P x -> P y -> (cmp x y <? 0)%Z = (key x <? key y)%Z.
Implicit Types l : list E.

Lemma siftDown_loop_spec first lo hi : forall fuel l root,
  hi <= fuel + root -> lo <= root -> first + hi <= length l -> Forall P l ->
  (forall r c, lo <= r -> r <> root -> c < hi -> is_child c r ->
     (key (l !!! (first + c)%nat) <= key (l !!! (first + r)%nat))%Z) ->
  (forall r c, lo <= r -> is_child root r -> c < hi -> is_child c root ->
     (key (l !!! (first + c)%nat) <= key (l !!! (first + r)%nat))%Z) ->
  rperm (first + lo) (first + hi) l (siftDown_loop cmp fuel l root hi first)
  /\ heap_from key first lo hi (siftDown_loop cmp fuel l root hi first).
Proof.
  unfold is_child.
  induction fuel as [|fuel IH]; intros l root Hf Hlo Hlen Hl H1 H2;
    cbn [siftDown_loop].
  - split; [constructor|]. intros r c Hr Hc Hch.
    destruct (decide (r = root)) as [->|Hne]; [unfold is_child in Hch; lia|].
    now apply H1.
  - destruct (Nat.leb_spec hi (2 * root + 1)) as [Hleaf|Hin].
    { split; [constructor|]. intros r c Hr Hc Hch.
      destruct (decide (r = root)) as [->|Hne]; [unfold is_child in Hch; lia|].
      now apply H1. }
    set (c1 := 2 * root + 1) in *.
    set (cs := if (c1 + 1 <? hi) && less cmp l (first + c1) (first + c1 + 1)
               then c1 + 1 else c1).
    assert (Hcs : (cs = c1 \/ cs = c1 + 1) /\ cs < hi
                  /\ forall c, c < hi -> c = c1 \/ c = c1 + 1 ->
                     (key (l !!! (first + c)%nat) <= key (l !!! (first + cs)%nat))%Z).
    { subst cs. destruct (Nat.ltb_spec (c1 + 1) hi) as [Hc2|Hc2]; cbn [andb].
      - rewrite less_key with (key := key) (P := P) by (auto; lia).
        destruct (Z.ltb_spec (key (l !!! (first + c1)%nat)) (key (l !!! (first + c1 + 1)%nat)))
          as [Hlt|Hge].
        + split; [lia|]. split; [lia|]. intros c Hc [->| ->].
          * replace (first + (c1 + 1)) with (first + c1 + 1) by lia. lia.
          * lia.
        + split; [lia|]. split; [lia|]. intros c Hc [->| ->].
          * lia.
          * replace (first + (c1 + 1)) with (first + c1 + 1) by lia. lia.
      - split; [lia|]. split; [lia|]. intros c Hc [->| ->]; lia. }
    destruct Hcs as (Hcs1 & Hcs2 & Hcs3). clearbody cs.
    rewrite less_key with (key := key) (P := P) by (auto; lia).
    destruct (Z.ltb_spec (key (l !!! (first + root)%nat)) (key (l !!! (first + cs)%nat)))
      as [Hlt|Hge]; cbn [negb].
    + destruct (IH (swap l (first + root) (first + cs)) cs) as [Hp Hh]; try lia.
      * rewrite swap_length; lia.
      * apply swap_Forall; auto; lia.
      * intros r c Hr Hne Hc Hch. rewrite !swap_lookup by lia.
        destruct (decide (r = root)) as [->|Hnr].
        -- rewrite (decide_True (P := first + root = first + root)) by reflexivity.
           repeat case_decide; try lia. apply Hcs3; lia.
        -- repeat case_decide; try lia.
           ++ apply H2; lia.
           ++ apply H1; lia.
      * intros r c Hr Hch Hc Hcc. rewrite !swap_lookup by lia.
        assert (r = root) as -> by lia.
        repeat case_decide; try lia. apply H1; lia.
      * split; [|exact Hh].
        apply rperm_swap with (i := first + root) (j := first + cs); auto; lia.
    + split; [constructor|]. intros r c Hr Hc Hch.
      destruct (decide (r = root)) as [->|Hne]; [|now apply H1].
      etransitivity; [apply Hcs3; unfold is_child in Hch; lia | lia].
Qed.

Lemma siftDown_spec first lo hi l :
  first + hi <= length l -> Forall P l ->
  heap_from key first (S lo) hi l ->
  rperm (first + lo) (first + hi) l (siftDownCmpFunc cmp l lo hi first)
  /\ heap_from key first lo hi (siftDownCmpFunc cmp l lo hi first).
Proof.
  intros Hlen Hl Hh. unfold siftDownCmpFunc.
  apply siftDown_loop_spec; auto; try lia.
  - intros r c Hr Hne Hc Hch. apply Hh; auto; lia.
  - unfold is_child. intros r c Hr Hch. lia.
Qed.

(** The root of a heap is its greatest element. *)
Lemma heap_root_max first n l :
  heap_from key first 0 n l ->
  forall r, r < n -> (key (l !!! (first + r)%nat) <= key (l !!! (first + 0)%nat))%Z.
Proof.
  intros Hh r. induction r as [r IH] using lt_wf_ind. intros Hr.
  destruct r as [|r]; [lia|].
  set (p := r / 2).
  assert (Hp : S r = 2 * p + 1 \/ S r = 2 * p + 2).
  { subst p. pose proof (Nat.div_mod_eq r 2) as Hd.
    pose proof (Nat.mod_upper_bound r 2 ltac:(lia)). lia. }
  etransitivity; [apply (Hh p (S r)); auto; lia|].
  apply IH; lia.
Qed.

(** The first loop of the heap sort builds the heap. *)
Lemma heapify_spec first hi : forall n l,
  first + hi <= length l -> Forall P l ->
  heap_from key first n hi l ->
  let l' := fold_left (fun d i => siftDownCmpFunc cmp d i hi first) (rev (seq 0 n)) l in
  rperm first (first + hi) l l' /\ heap_from key first 0 hi l'.
Proof.
  induction n as [|n IH]; intros l Hlen Hl Hh; cbn zeta.
  - cbn. split; [constructor | assumption].
  - rewrite seq_S, rev_app_distr. cbn [rev app fold_left Nat.add].
    destruct (siftDown_spec first n hi l) as [Hp1 Hh1]; auto.
    set (l1 := siftDownCmpFunc cmp l n hi first) in *.
    destruct (IH l1) as [Hp2 Hh2]; auto.
    + rewrite (rperm_length _ _ _ _ Hp1). lia.
    + eapply rperm_Forall; eauto.
    + split; [|exact Hh2]. eapply rperm_trans; [|exact Hp2].
      apply (rperm_weaken (first + n) (first + hi)); auto; lia.
Qed.

(** The second loop pops the greatest element to the end, [n] times. *)
Lemma heap_pop_spec first hi : forall n l,
  n <= hi -> first + hi <= length l -> Forall P l ->
  heap_from key first 0 n l ->
  sorted_range key (first + n) (first + hi) l ->
  (forall r s, r < n -> n <= s -> s < hi ->
     (key (l !!! (first + r)%nat) <= key (l !!! (first + s)%nat))%Z) ->
  let l' := fold_left
              (fun d i => siftDownCmpFunc cmp (swap d first (first + i)) 0 i first)
              (rev (seq 0 n)) l in
  rperm first (first + hi) l l' /\ sorted_range key first (first + hi) l'.
Proof.
  induction n as [|n IH]; intros l Hn Hlen Hl Hh Hs Hb; cbn zeta.
  - cbn. split; [constructor|]. now rewrite Nat.add_0_r in Hs.
  - rewrite seq_S, rev_app_distr. cbn [rev app fold_left Nat.add].
    set (l1 := swap l first (first + n)).
    assert (Hlen1 : length l1 = length l) by apply swap_length.
    assert (Hl1 : Forall P l1) by (apply swap_Forall; auto; lia).
    assert (Hmax : forall r, r < S n ->
              (key (l !!! (first + r)%nat) <= key (l !!! (first + 0)%nat))%Z)
      by (apply heap_root_max; auto).
    rewrite Nat.add_0_r in Hmax.
    assert (Hlook : forall k, l1 !!! k =
              if decide (k = first) then l !!! (first + n)%nat
              else if decide (k = first + n) then l !!! first else l !!! k).
    { intros k. subst l1. apply swap_lookup; lia. }
    destruct (siftDown_spec first 0 n l1) as [Hp1 Hh1]; try lia; auto.
    { intros r c Hr Hc Hch. rewrite !Hlook. unfold is_child in Hch.
      repeat case_decide; try lia. apply Hh; auto; lia. }
    set (l2 := siftDownCmpFunc cmp l1 0 n first) in *.
    rewrite Nat.add_0_r in Hp1.
    assert (Hb0 : forall s, S n <= s -> s < hi ->
              (key (l !!! first) <= key (l !!! (first + s)%nat))%Z).
    { intros s ? ?. rewrite <- (Hb 0 s) by lia. now rewrite Nat.add_0_r. }
    assert (Hkey : forall k s, first <= k -> k < first + n -> n <= s -> s < hi ->
              (key (l1 !!! k) <= key (l1 !!! (first + s)%nat))%Z).
    { intros k s Hk1 Hk2 Hs1 Hs2. rewrite !Hlook.
      replace k with (first + (k - first)) by lia.
      repeat case_decide; try lia;
        first [ apply (Hmax n); lia | apply (Hb n s); lia
              | apply Hmax; lia | apply Hb; lia ]. }
    assert (Hbound : forall r s, r < n -> n <= s -> s < hi ->
              (key (l2 !!! (first + r)%nat) <= key (l2 !!! (first + s)%nat))%Z).
    { intros r s Hr Hs1 Hs2.
      rewrite (rperm_frame _ _ _ _ (first + s) Hp1) by lia.
      assert (Hall : all_in first (first + n)
                (fun x => (key x <= key (l1 !!! (first + s)%nat))%Z) l2).
      { apply (rperm_all_in _ _ _ _ _ Hp1). intros k Hk1 Hk2. apply Hkey; lia. }
      apply Hall; lia. }
    destruct (IH l2) as [Hp2 Hs2]; try lia; auto.
    + rewrite (rperm_length _ _ _ _ Hp1). lia.
    + eapply rperm_Forall; eauto.
    + intros i j Hi Hij Hj.
      rewrite !(rperm_frame _ _ _ _ _ Hp1) by lia. rewrite !Hlook.
      destruct (decide (i = j)) as [->|Hne]; [lia|].
      replace j with (first + (j - first)) by lia.
      repeat case_decide; try lia;
        first [ apply Hb0; lia | apply Hs; lia
              | replace (first + n) with first by lia; apply Hb0; lia ].
    + split; [|exact Hs2].
      apply rperm_trans with l1; [apply rperm_one; lia|].
      apply rperm_trans with l2; [|exact Hp2].
      apply (rperm_weaken first (first + n)); auto; lia.
Qed.

Lemma heapSort_spec l a b :
  a <= b -> b <= length l -> Forall P l ->
  rperm a b l (heapSortCmpFunc cmp l a b)
  /\ sorted_range key a b (heapSortCmpFunc cmp l a b).
Proof.
  intros Hab Hb Hl. unfold heapSortCmpFunc.
  destruct (heapify_spec a (b - a) (S ((b - a - 1) / 2)) l) as [Hp1 Hh1];
    try lia; auto.
  { intros r c Hr Hc Hch. unfold is_child in Hch.
    pose proof (Nat.div_mod_eq (b - a - 1) 2) as Hd.
    pose proof (Nat.mod_upper_bound (b - a - 1) 2 ltac:(lia)). lia. }
  set (l1 := fold_left _ (rev (seq 0 (S ((b - a - 1) / 2)))) l) in *.
  destruct (heap_pop_spec a (b - a) (b - a) l1) as [Hp2 Hs2]; try lia; auto.
  - rewrite (rperm_length _ _ _ _ Hp1). lia.
  - eapply rperm_Forall; eauto.
  - apply sorted_range_short. lia.
  - replace (a + (b - a)) with b in * by lia.
    split; [eapply rperm_trans; eauto | exact Hs2].
Qed.

End Heap.
End pdq_heap.

(** *** The sort: the steps around the partition *)

Module pdq_steps.
Import pdq pdq_spec pdq_facts.

Section Steps.

Context {E : Type} `{Inhabited E}.
Variable cmp : E -> E -> Z.
Variable key : E -> Z.
Variable P : E -> Prop.
Hypothesis cmp_key :
  forall x y, P x -> P y -> (cmp x y <? 0)%Z = (key x <? key y)%Z.
Implicit Types l : list E.

Lemma reverse_loop_spec a b : forall fuel l i j,
  a <= i -> j < b -> b <= length l -> rperm a b l (reverse_loop fuel l i j).
Proof.
  induction fuel as [|fuel IH]; intros l i j Hi Hj Hb; cbn [reverse_loop].
  - constructor.
  - destruct (Nat.ltb_spec i j) as [Hlt|Hge]; [|constructor].
    apply rperm_swap with (i := i) (j := j); try lia.
    apply IH; try lia. rewrite swap_length. lia.
Qed.

Lemma reverseRange_spec l a b :
  a <= b -> b <= length l -> rperm a b l (reverseRangeCmpFunc l a b).
Proof.
  intros Hab Hb. unfold reverseRangeCmpFunc.
  destruct (decide (a = b)) as [->|Hne].
  - rewrite Nat.sub_diag. constructor.
  - apply reverse_loop_spec; lia.
Qed.

(** The index that [breakPatternsCmpFunc] draws is inside the range. *)
Lemma nextPowerOfTwo_bound (length : nat) :
  1 <= length ->
  (0 < nextPowerOfTwo length <= 2 * Z.of_nat length)%Z.
Proof.
  intros Hl. unfold nextPowerOfTwo, bits.Len.
  destruct length as [|n]; [lia|].
  rewrite Z.shiftl_1_l.
  pose proof (Nat.log2_spec (S n) ltac:(lia)) as [Hlo _].
  rewrite Nat2Z.inj_succ, Z.pow_succ_r by lia.
  apply Nat2Z.inj_le in Hlo. rewrite Nat2Z.inj_pow in Hlo.
  split; [|lia].
  assert (0 < 2 ^ Z.of_nat (Nat.log2 (S n)))%Z by (apply Z.pow_pos_nonneg; lia).
  lia.
Qed.

Lemma break_one_spec l a b idx i random :
  8 <= b - a -> b <= length l ->
  idx = a + (b - a) / 4 * 2 - 1 -> i <= 2 ->
  rperm a b l (break_one l a (b - a) idx i random).
Proof.
  intros Hlen Hb -> Hi. unfold break_one.
  set (modulus := nextPowerOfTwo (b - a)).
  pose proof (nextPowerOfTwo_bound (b - a) ltac:(lia)) as Hm. fold modulus in Hm.
  assert (Hland : (0 <= Z.land random (modulus - 1) < modulus)%Z).
  { unfold modulus, nextPowerOfTwo in *. rewrite Z.shiftl_1_l in *.
    replace (2 ^ Z.of_nat (bits.Len (b - a)) - 1)%Z
      with (Z.ones (Z.of_nat (bits.Len (b - a))))
      by (rewrite Z.ones_equiv; lia).
    rewrite Z.land_ones by lia. apply Z.mod_pos_bound. lia. }
  set (other0 := Z.to_nat (Z.land random (modulus - 1))).
  assert (Ho : other0 < 2 * (b - a)) by (subst other0; lia).
  pose proof (Nat.div_mod_eq (b - a) 4) as Hd.
  pose proof (Nat.mod_upper_bound (b - a) 4 ltac:(lia)) as Hmod.
  apply rperm_one; try lia.
  destruct (Nat.leb_spec (b - a) other0); lia.
Qed.

Lemma breakPatterns_spec l a b :
  a <= b -> b <= length l -> rperm a b l (breakPatternsCmpFunc l a b).
Proof.
  intros Hab Hb. unfold breakPatternsCmpFunc.
  destruct (Nat.leb_spec 8 (b - a)) as [Hlen|Hlen]; [|constructor].
  set (idx := a + (b - a) / 4 * 2 - 1).
  set (r1 := xorshift_next (Z.of_nat (b - a))).
  set (r2 := xorshift_next r1). set (r3 := xorshift_next r2).
  assert (H1 : rperm a b l (break_one l a (b - a) idx 0 r1))
    by (apply break_one_spec; auto; lia).
  set (l1 := break_one l a (b - a) idx 0 r1) in *.
  assert (H2 : rperm a b l1 (break_one l1 a (b - a) idx 1 r2))
    by (apply break_one_spec; rewrite ?(rperm_length _ _ _ _ H1); auto; lia).
  set (l2 := break_one l1 a (b - a) idx 1 r2) in *.
  assert (H3 : rperm a b l2 (break_one l2 a (b - a) idx 2 r3)).
  { apply break_one_spec; auto; try lia.
    rewrite (rperm_length _ _ _ _ H2), (rperm_length _ _ _ _ H1). lia. }
  eapply rperm_trans; [exact H1|]. eapply rperm_trans; eauto.
Qed.

Lemma order2_in l x y s :
  let '(u, v, _) := order2CmpFunc cmp l x y s in
  (u = x /\ v = y) \/ (u = y /\ v = x).
Proof. unfold order2CmpFunc. destruct (less cmp l y x); auto. Qed.

Lemma median_in l x y z s :
  let '(m, _) := medianCmpFunc cmp l x y z s in m = x \/ m = y \/ m = z.
Proof.
  unfold medianCmpFunc.
  pose proof (order2_in l x y s) as H1.
  destruct (order2CmpFunc cmp l x y s) as [[x1 y1] s1].
  pose proof (order2_in l y1 z s1) as H2.
  destruct (order2CmpFunc cmp l y1 z s1) as [[y2 z2] s2].
  pose proof (order2_in l x1 y2 s2) as H3.
  destruct (order2CmpFunc cmp l x1 y2 s2) as [[x3 y3] s3].
  intuition congruence.
Qed.

Lemma choosePivot_spec l a b :
  a < b ->
  let '(pivot, _) := choosePivotCmpFunc cmp l a b in a <= pivot /\ pivot < b.
Proof.
  intros Hab. unfold choosePivotCmpFunc, medianAdjacentCmpFunc, shortestNinther.
  pose proof (Nat.div_mod_eq (b - a) 4) as Hd.
  pose proof (Nat.mod_upper_bound (b - a) 4 ltac:(lia)) as Hmod.
  set (q := (b - a) / 4) in *.
  assert (Hfin : forall j swaps,
            a <= j -> j < b ->
            let '(pivot, _) :=
              (if swaps =? 0 then (j, increasingHint)
               else if swaps =? maxSwaps then (j, decreasingHint)
               else (j, unknownHint)) in a <= pivot /\ pivot < b).
  { intros j swaps ? ?. destruct (swaps =? 0); [auto|].
    destruct (swaps =? maxSwaps); auto. }
  destruct (Nat.leb_spec 8 (b - a)) as [H8|H8]; [|apply Hfin; lia].
  destruct (Nat.leb_spec 50 (b - a)) as [H50|H50].
  - pose proof (median_in l (a + q * 1 - 1) (a + q * 1) (a + q * 1 + 1) 0) as M1.
    destruct (medianCmpFunc cmp l (a + q * 1 - 1) (a + q * 1) (a + q * 1 + 1) 0)
      as [i s1].
    pose proof (median_in l (a + q * 2 - 1) (a + q * 2) (a + q * 2 + 1) s1) as M2.
    destruct (medianCmpFunc cmp l (a + q * 2 - 1) (a + q * 2) (a + q * 2 + 1) s1)
      as [j s2].
    pose proof (median_in l (a + q * 3 - 1) (a + q * 3) (a + q * 3 + 1) s2) as M3.
    destruct (medianCmpFunc cmp l (a + q * 3 - 1) (a + q * 3) (a + q * 3 + 1) s2)
      as [k s3].
    pose proof (median_in l i j k s3) as M4.
    destruct (medianCmpFunc cmp l i j k s3) as [m s4].
    apply Hfin; lia.
  - pose proof (median_in l (a + q * 1) (a + q * 2) (a + q * 3) 0) as M4.
    destruct (medianCmpFunc cmp l (a + q * 1) (a + q * 2) (a + q * 3) 0) as [m s4].
    apply Hfin; lia.
Qed.

(** *** The partial insertion sort *)

Lemma scan_ordered_spec l a b : forall fuel i,
  b - i <= fuel -> a + 1 <= i -> i <= b -> b <= length l -> Forall P l ->
  sorted_range key a i l ->
  let i' := scan_ordered cmp fuel l i b in
  i <= i' /\ i' <= b /\ sorted_range key a i' l.
Proof.
  induction fuel as [|fuel IH]; intros i Hf Hi Hib Hb Hl Hs; cbn zeta;
    cbn [scan_ordered].
  - repeat split; auto; lia.
  - destruct (Nat.ltb_spec i b) as [Hlt|Hge]; cbn [andb]; [|repeat split; auto; lia].
    rewrite less_key with (key := key) (P := P) by (auto; lia).
    destruct (Z.ltb_spec (key (l !!! i)) (key (l !!! (i - 1)))) as [Hless|Hord];
      cbn [negb]; [repeat split; auto; lia|].
    assert (Hs' : sorted_range key a (S i) l)
      by (apply sorted_range_snoc; auto; lia).
    destruct (IH (S i)) as (H1 & H2 & H3); try lia; auto.
    repeat split; auto; lia.
Qed.

(** With a lower bound before the range, the loop that shifts the smaller
    element to the left stops at the start of the range, as the inner loop
    of the insertion sort does. *)
Lemma shift_left_insert_down a b : forall j l,
  a <= j -> j < b -> b <= length l -> Forall P l -> lower_bounded key a b l ->
  shift_left cmp l j = insert_down cmp l a j.
Proof.
  induction j as [|j IH]; intros l Ha Hj Hb Hl Hlb; [reflexivity|].
  cbn [shift_left insert_down].
  destruct (Nat.ltb_spec a (S j)) as [Hlt|Hge]; cbn [andb].
  - destruct (less cmp l (S j) j); [|reflexivity].
    apply IH; try lia.
    + rewrite swap_length. lia.
    + apply swap_Forall; auto; lia.
    + apply (lower_bounded_rperm key a b l); auto. apply rperm_one; lia.
  - assert (a = S j) as -> by lia.
    destruct Hlb as [?|Hlb]; [lia|].
    rewrite less_key with (key := key) (P := P) by (auto; lia).
    specialize (Hlb (S j) ltac:(lia) ltac:(lia)). cbn in Hlb.
    rewrite Nat.sub_0_r in Hlb.
    destruct (Z.ltb_spec (key (l !!! S j)) (key (l !!! j))); [lia | reflexivity].
Qed.

Lemma shift_right_spec i b : forall fuel l j,
  fuel + j <= b -> i < j -> b <= length l ->
  rperm i b l (shift_right cmp fuel l j).
Proof.
  induction fuel as [|fuel IH]; intros l j Hf Hij Hb; cbn [shift_right].
  - constructor.
  - destruct (less cmp l j (j - 1)); [|constructor].
    apply rperm_swap with (i := j) (j := j - 1); try lia.
    apply IH; try lia. rewrite swap_length. lia.
Qed.

Lemma partial_loop_spec a b : forall steps l i,
  a + 1 <= i -> i <= b -> b <= length l -> Forall P l ->
  lower_bounded key a b l -> sorted_range key a i l ->
  let '(l', ok) := partial_loop cmp steps l a b i in
  rperm a b l l' /\ (ok = true -> sorted_range key a b l').
Proof.
  induction steps as [|steps IH]; intros l i Hi Hib Hb Hl Hlb Hs;
    cbn [partial_loop].
  - split; [constructor | discriminate].
  - destruct (scan_ordered_spec l a b (b - i) i) as (S1 & S2 & S3); auto.
    set (i1 := scan_ordered cmp (b - i) l i b) in *.
    destruct (Nat.eqb_spec i1 b) as [Heq|Hne].
    { split; [constructor|]. intros _. now rewrite <- Heq. }
    destruct (b - a <? shortestShifting); [split; [constructor | discriminate]|].
    set (l1 := swap l i1 (i1 - 1)).
    assert (Hp1 : rperm a b l l1) by (apply rperm_one; lia).
    assert (Hlen1 : length l1 = length l) by apply swap_length.
    assert (Hl1 : Forall P l1) by (eapply rperm_Forall; eauto).
    assert (Hlb1 : lower_bounded key a b l1) by (eapply lower_bounded_rperm; eauto).
    assert (Hs1 : sorted_range key a (i1 - 1) l1).
    { intros x y Hx Hxy Hy. subst l1. rewrite !swap_lookup by lia.
      repeat case_decide; try lia. apply S3; lia. }
    set (l2 := if 2 <=? i1 - a then shift_left cmp l1 (i1 - 1) else l1).
    assert (H2 : rperm a i1 l1 l2 /\ sorted_range key a i1 l2).
    { subst l2. destruct (Nat.leb_spec 2 (i1 - a)) as [Hge|Hlt].
      - rewrite (shift_left_insert_down a b) by (auto; lia).
        destruct (insert_down_spec cmp key P cmp_key a (i1 - 1) (i1 - 1) l1)
          as (Q1 & Q2 & _); try lia; auto.
        + intros x y ? ? ? ? ?. apply Hs1; lia.
        + replace (S (i1 - 1)) with i1 in * by lia. auto.
      - split; [constructor|]. apply sorted_range_short. lia. }
    destruct H2 as [Hp2 Hs2]. clearbody l2.
    assert (Hp2' : rperm a b l1 l2) by (apply (rperm_weaken a i1); auto; lia).
    assert (Hlen2 : length l2 = length l) by (rewrite (rperm_length _ _ _ _ Hp2); lia).
    set (l3 := if 2 <=? b - i1 then shift_right cmp (b - (i1 + 1)) l2 (i1 + 1) else l2).
    assert (Hp3 : rperm i1 b l2 l3).
    { subst l3. destruct (2 <=? b - i1); [|constructor].
      apply shift_right_spec; lia. }
    clearbody l3.
    assert (Hp3' : rperm a b l2 l3) by (apply (rperm_weaken i1 b); auto; lia).
    assert (Hall : rperm a b l l3)
      by (eapply rperm_trans; [exact Hp1|]; eapply rperm_trans; eauto).
    specialize (IH l3 i1).
    destruct (partial_loop cmp steps l3 a b i1) as [l' ok].
    destruct IH as [Hp Hok]; try lia.
    + rewrite (rperm_length _ _ _ _ Hall). lia.
    + eapply rperm_Forall; eauto.
    + eapply lower_bounded_rperm; eauto.
    + apply (sorted_range_frame key a i1 i1 b l2 l3); auto; lia.
    + split; [eapply rperm_trans; eauto | exact Hok].
Qed.

Lemma partialInsertionSort_spec l a b :
  a < b -> b <= length l -> Forall P l -> lower_bounded key a b l ->
  let '(l', ok) := partialInsertionSortCmpFunc cmp l a b in
  rperm a b l l' /\ (ok = true -> sorted_range key a b l').
Proof.
  intros Hab Hb Hl Hlb. unfold partialInsertionSortCmpFunc.
  apply partial_loop_spec; auto; try lia.
  apply sorted_range_short. lia.
Qed.

End Steps.
End pdq_steps.

(** *** The sort: the quicksort loop *)

Module pdq_main.
Import pdq pdq_spec pdq_facts pdq_heap pdq_steps.

Section Main.

Context {E : Type} `{Inhabited E}.
Variable cmp : E -> E -> Z.
Variable key : E -> Z.
Variable P : E -> Prop.
Hypothesis cmp_key :
  forall x y, P x -> P y -> (cmp x y <? 0)%Z = (key x <? key y)%Z.
Implicit Types l : list E.

(** What [pdqsort_loop] does before it partitions: the slice is rearranged
    within the range, and the pivot is inside the range. *)
Lemma pdqsort_loop_spec : forall fuel l a b limit wasBalanced wasPartitioned,
  b - a < fuel -> a <= b -> b <= length l -> Forall P l ->
  lower_bounded key a b l ->
  rperm a b l (pdqsort_loop cmp fuel l a b limit wasBalanced wasPartitioned)
  /\ sorted_range key a b
       (pdqsort_loop cmp fuel l a b limit wasBalanced wasPartitioned).
Proof.
  induction fuel as [|fuel IH]; intros l a b limit wb wp Hf Hab Hb Hl Hlb; [lia|].
  cbn [pdqsort_loop]. unfold maxInsertion.
  destruct (Nat.leb_spec (b - a) 12) as [Hsmall|Hbig].
  { destruct (insertionSort_spec cmp key P cmp_key l a b) as (? & ? & _); auto. }
  destruct (limit =? 0).
  { apply (heapSort_spec cmp key P cmp_key); auto. }
  (* breakPatterns *)
  set (st1 := if negb wb then (breakPatternsCmpFunc l a b, limit - 1) else (l, limit)).
  assert (Hp1 : rperm a b l (fst st1)).
  { subst st1. destruct wb; cbn; [constructor | now apply breakPatterns_spec]. }
  destruct st1 as [l1 limit1]. cbn [fst] in Hp1.
  assert (Hb1 : b <= length l1) by (rewrite (rperm_length _ _ _ _ Hp1); lia).
  (* choosePivot *)
  pose proof (choosePivot_spec cmp l1 a b ltac:(lia)) as Hpiv.
  destruct (choosePivotCmpFunc cmp l1 a b) as [pivot hint].
  (* reverseRange *)
  set (st2 := if is_decreasing hint
              then (reverseRangeCmpFunc l1 a b, b - 1 - (pivot - a), increasingHint)
              else (l1, pivot, hint)).
  assert (Hp2 : rperm a b l1 (fst (fst st2))
                /\ a <= snd (fst st2) /\ snd (fst st2) < b).
  { subst st2. destruct (is_decreasing hint); cbn.
    - split; [apply reverseRange_spec; lia | lia].
    - split; [constructor | lia]. }
  destruct st2 as [[l2 pivot2] hint2]. cbn [fst snd] in Hp2.
  destruct Hp2 as (Hp2 & Hpa & Hpb).
  assert (Hp12 : rperm a b l l2) by (eapply rperm_trans; eauto).
  assert (Hb2 : b <= length l2) by (rewrite (rperm_length _ _ _ _ Hp12); lia).
  assert (Hl2 : Forall P l2) by (eapply rperm_Forall; eauto).
  assert (Hlb2 : lower_bounded key a b l2) by (eapply lower_bounded_rperm; eauto).
  (* partialInsertionSort *)
  set (st3 := if wb && wp && is_increasing hint2
              then partialInsertionSortCmpFunc cmp l2 a b else (l2, false)).
  assert (Hp3 : rperm a b l2 (fst st3)
                /\ (snd st3 = true -> sorted_range key a b (fst st3))).
  { subst st3. destruct (wb && wp && is_increasing hint2).
    - pose proof (partialInsertionSort_spec cmp key P cmp_key l2 a b
                    ltac:(lia) Hb2 Hl2 Hlb2) as Hpi.
      now destruct (partialInsertionSortCmpFunc cmp l2 a b).
    - cbn. split; [constructor | discriminate]. }
  destruct st3 as [l3 sorted]. cbn [fst snd] in Hp3. destruct Hp3 as (Hp3 & Hsorted).
  assert (Hp13 : rperm a b l l3) by (eapply rperm_trans; eauto).
  assert (Hb3 : b <= length l3) by (rewrite (rperm_length _ _ _ _ Hp13); lia).
  assert (Hl3 : Forall P l3) by (eapply rperm_Forall; eauto).
  assert (Hlb3 : lower_bounded key a b l3) by (eapply lower_bounded_rperm; eauto).
  destruct sorted; [split; auto|]. clear Hsorted.
  set (kp := key (l3 !!! pivot2)).
  destruct (Nat.ltb_spec 0 a) as [Ha0|Ha0]; cbn [andb];
    [rewrite less_key with (key := key) (P := P) by (auto; lia);
     destruct (Z.ltb_spec (key (l3 !!! (a - 1))) (key (l3 !!! pivot2)))
       as [Hless|Hnless]; cbn [negb] |].
  2:{ (* the pivot is not above the element before the range: partitionEqual *)
    destruct Hlb3 as [?|Hlb3]; [lia|].
    pose proof (partitionEqualCmpFunc_spec cmp key P cmp_key l3 a b pivot2
                  Hpa Hpb Hb3 Hl3) as Hpe.
    destruct (partitionEqualCmpFunc cmp l3 a b pivot2) as [l4 mid].
    destruct Hpe as (Hp4 & Hm1 & Hm2 & Hlo & Hhi). fold kp in Hlo, Hhi.
    assert (Hmin : all_in a b (fun x => (kp <= key x)%Z) l4).
    { apply (rperm_all_in a b _ l3); auto.
      intros k ? ?. specialize (Hlb3 k ltac:(lia) ltac:(lia)). cbn in Hlb3.
      subst kp. lia. }
    assert (Hb4 : b <= length l4) by (rewrite (rperm_length _ _ _ _ Hp4); lia).
    destruct (IH l4 mid b limit1 wb wp) as [Hp5 Hs5]; try lia; auto.
    { eapply rperm_Forall; eauto. }
    { right. intros k ? ?. cbn.
      specialize (Hlo (mid - 1) ltac:(lia) ltac:(lia)).
      specialize (Hhi k ltac:(lia) ltac:(lia)). cbn in Hlo, Hhi. lia. }
    set (l5 := pdqsort_loop cmp fuel l4 mid b limit1 wb wp) in *.
    split.
    - eapply rperm_trans; [exact Hp13|]. eapply rperm_trans; [exact Hp4|].
      apply (rperm_weaken mid b); auto; lia.
    - intros i j Hi Hij Hj.
      destruct (decide (mid <= i)) as [?|?]; [apply Hs5; lia|].
      rewrite (rperm_frame _ _ _ _ i Hp5) by lia.
      pose proof (Hlo i ltac:(lia) ltac:(lia)) as Hi1.
      pose proof (Hmin i ltac:(lia) ltac:(lia)) as Hi2. cbn in Hi1, Hi2.
      destruct (decide (mid <= j)) as [?|?].
      + assert (Hj2 : all_in mid b (fun x => (kp < key x)%Z) l5)
          by (apply (rperm_all_in mid b _ l4); auto).
        specialize (Hj2 j ltac:(lia) ltac:(lia)). cbn in Hj2. lia.
      + rewrite (rperm_frame _ _ _ _ j Hp5) by lia.
        pose proof (Hmin j ltac:(lia) ltac:(lia)) as Hj2. cbn in Hj2. lia. }
  all: (* partition *)
    pose proof (partitionCmpFunc_spec cmp key P cmp_key l3 a b pivot2
                  Hpa Hpb Hb3 Hl3) as Hpt;
    destruct (partitionCmpFunc cmp l3 a b pivot2) as [[l4 mid] ap];
    destruct Hpt as (Hp4 & Hm1 & Hm2 & Hlo & Hmid & Hhi); fold kp in Hlo, Hhi;
    assert (Hb4 : b <= length l4) by (rewrite (rperm_length _ _ _ _ Hp4); lia);
    assert (Hl4 : Forall P l4) by (eapply rperm_Forall; eauto);
    assert (Hlb4 : lower_bounded key a b l4) by (eapply lower_bounded_rperm; eauto);
    replace (mid + 1) with (S mid) by lia;
    destruct (mid - a <? b - mid).
  (* the shorter side is sorted by the recursive call, the other by the loop *)
  1,3: (destruct (IH l4 a mid limit1 true true) as [Hp5 Hs5]; try lia; auto;
       [apply (lower_bounded_left key a mid b); [lia | exact Hlb4]|];
     set (l5 := pdqsort_loop cmp fuel l4 a mid limit1 true true) in *;
     assert (Hmid5 : l5 !!! mid = l3 !!! pivot2)
       by (rewrite (rperm_frame _ _ _ _ mid Hp5) by lia; exact Hmid);
     assert (Hhi5 : all_in (S mid) b (fun x => (kp <= key x)%Z) l5)
       by (apply (all_in_frame (S mid) b a mid _ l4); auto; lia);
     assert (Hlo5 : all_in a mid (fun x => (key x < kp)%Z) l5)
       by (apply (rperm_all_in a mid _ l4); auto);
     assert (Hb5 : b <= length l5) by (rewrite (rperm_length _ _ _ _ Hp5); lia);
     match goal with
     | |- context [pdqsort_loop _ _ _ (S _) _ _ ?f1 ?f2] =>
         destruct (IH l5 (S mid) b limit1 f1 f2) as [Hp6 Hs6]; try lia; auto;
           [eapply rperm_Forall; eauto
           |right; cbn; rewrite Nat.sub_0_r, Hmid5; exact Hhi5
           |];
         set (l6 := pdqsort_loop cmp fuel l5 (S mid) b limit1 f1 f2) in *
     end;
     split;
       [eapply rperm_trans; [exact Hp13|]; eapply rperm_trans; [exact Hp4|];
        eapply rperm_trans;
          [apply (rperm_weaken a mid a b); [lia | lia | lia | exact Hp5]
          |apply (rperm_weaken (S mid) b a b); [lia | lia | lia | exact Hp6]]
       |apply (sorted_range_glue key a mid b l6 kp); auto; try lia;
          [apply (sorted_range_frame key a mid (S mid) b l5); auto; lia
          |apply (all_in_frame a mid (S mid) b _ l5); auto; try lia;
             intros k ? ?; specialize (Hlo5 k ltac:(lia) ltac:(lia)); cbn in *; lia
          |rewrite (rperm_frame _ _ _ _ mid Hp6) by lia; unfold kp; now rewrite Hmid5
          |apply (rperm_all_in (S mid) b _ l5); auto]]).
  all: (destruct (IH l4 (S mid) b limit1 true true) as [Hp5 Hs5]; try lia; auto;
       [right; cbn; rewrite Nat.sub_0_r, Hmid; exact Hhi|];
     set (l5 := pdqsort_loop cmp fuel l4 (S mid) b limit1 true true) in *;
     assert (Hmid5 : l5 !!! mid = l3 !!! pivot2)
       by (rewrite (rperm_frame _ _ _ _ mid Hp5) by lia; exact Hmid);
     assert (Hhi5 : all_in (S mid) b (fun x => (kp <= key x)%Z) l5)
       by (apply (rperm_all_in (S mid) b _ l4); auto);
     assert (Hlo5 : all_in a mid (fun x => (key x < kp)%Z) l5)
       by (apply (all_in_frame a mid (S mid) b _ l4); auto; lia);
     assert (Hb5 : b <= length l5) by (rewrite (rperm_length _ _ _ _ Hp5); lia);
     assert (Hp45 : rperm a b l4 l5)
       by (apply (rperm_weaken (S mid) b a b); [lia | lia | lia | exact Hp5]);
     match goal with
     | |- context [pdqsort_loop _ _ _ _ _ _ ?f1 ?f2] =>
         destruct (IH l5 a mid limit1 f1 f2) as [Hp6 Hs6]; try lia; auto;
           [eapply rperm_Forall; eauto
           |apply (lower_bounded_left key a mid b); [lia|];
            eapply lower_bounded_rperm; eauto
           |];
         set (l6 := pdqsort_loop cmp fuel l5 a mid limit1 f1 f2) in *
     end;
     split;
       [eapply rperm_trans; [exact Hp13|]; eapply rperm_trans; [exact Hp4|];
        eapply rperm_trans; [exact Hp45|];
        apply (rperm_weaken a mid a b); [lia | lia | lia | exact Hp6]
       |apply (sorted_range_glue key a mid b l6 kp); auto; try lia;
          [apply (sorted_range_frame key (S mid) b a mid l5); auto; lia
          |apply (rperm_all_in a mid _ l5); auto;
             intros k ? ?; specialize (Hlo5 k ltac:(lia) ltac:(lia)); cbn in *; lia
          |rewrite (rperm_frame _ _ _ _ mid Hp6) by lia; unfold kp; now rewrite Hmid5
          |apply (all_in_frame (S mid) b a mid _ l5); auto; lia]]).
Qed.

Lemma sorted_range_StronglySorted l :
  sorted_range key 0 (length l) l ->
  StronglySorted (fun x y => (key x <= key y)%Z) l.
Proof.
  induction l as [|x l IH]; intros Hs; constructor.
  - apply IH. intros i j Hi Hij Hj. apply (Hs (S i) (S j)); cbn [length]; lia.
  - eapply Forall_lookup_total_2. intros i Hi.
    apply (Hs 0 (S i)); cbn [length]; lia.
Qed.

(** [slices.SortFunc] returns its argument rearranged into ascending order of
    the keys; up to twelve elements it is an insertion sort, which keeps the
    elements of equal keys in their order. *)
Theorem SortFunc_spec l :
  Forall P l ->
  Permutation l (SortFunc cmp l)
  /\ StronglySorted (fun x y => (key x <= key y)%Z) (SortFunc cmp l)
  /\ (length l <= 12 -> stable key l (SortFunc cmp l)).
Proof.
  intros Hl. unfold SortFunc, pdqsortCmpFunc.
  destruct (pdqsort_loop_spec (S (length l - 0)) l 0 (length l)
              (bits.Len (length l)) true true) as [Hp Hs]; auto; try lia.
  { now left. }
  split; [eapply rperm_Permutation; eauto|]. split.
  - apply sorted_range_StronglySorted.
    now rewrite (rperm_length _ _ _ _ Hp).
  - intros Hsmall. cbn [pdqsort_loop]. unfold maxInsertion.
    destruct (Nat.leb_spec (length l - 0) 12) as [_|?]; [|lia].
    destruct (insertionSort_spec cmp key P cmp_key l 0 (length l)) as (_ & _ & Hst);
      auto; lia.
Qed.

End Main.
End pdq_main.

(** *** The order resolver *)

Lemma wrap_int_small (z : Z) : (- 2 ^ 63 <= z < 2 ^ 63)%Z -> wrap_int z = z.
Proof. intros Hz. unfold wrap_int. rewrite Z.mod_small; lia. Qed.

(** On page numbers that are far from the ends of the 64-bit range, the
    comparison of [ingestPages] orders the pages by their numbers. *)
Lemma page_cmp_key (x y : page) :
  (- 2 ^ 62 <= number x < 2 ^ 62)%Z -> (- 2 ^ 62 <= number y < 2 ^ 62)%Z ->
  (page_cmp x y <? 0)%Z = (number x <? number y)%Z.
Proof.
  intros Hx Hy. unfold page_cmp. rewrite wrap_int_small by lia.
  destruct (Z.ltb_spec (number x - number y) 0), (Z.ltb_spec (number x) (number y));
    auto; lia.
Qed.

(** *** The claim about the order of the pages *)

(** C1, as the code has it: the pages that [ingestPages] returns are the
    pages it found, rearranged into ascending order of their numbers; pages
    of equal numbers keep the order of their discovery when at most twelve
    pages were found (the sort is then an insertion sort). *)
Theorem ingestPages_sorted (cfg : Config) (fs : root) (pages : list page) (t : trace) :
  ingestPages cfg fs = (Ok pages, t) ->
  exists found,
    ingest_loop (sent (fst (walkDirectorySearchPath cfg fs))) []
      (map Println (skipped (fst (walkDirectorySearchPath cfg fs))))
    = (Ok found, t)
    /\ Permutation found pages
    /\ StronglySorted (fun p q => (number p <= number q)%Z) pages
    /\ (length found <= 12 -> pdq_spec.stable number found pages).
Proof.
  unfold ingestPages.
  destruct (walkDirectorySearchPath cfg fs) as [w err]. cbn [fst].
  destruct (ingest_loop (sent w) [] (map Println (skipped w))) as [[found| |] out]
    eqn:Hloop; try discriminate.
  destruct err; [discriminate|]. intros [= <- <-].
  exists found. split; [reflexivity|].
  apply (pdq_main.SortFunc_spec page_cmp number
           (fun p => (- 2 ^ 62 <= number p < 2 ^ 62)%Z) page_cmp_key).
  apply ingest_loop_numbers in Hloop; [|constructor].
  eapply Forall_impl; [exact Hloop|]. cbn. intros p Hp. lia.
Qed.

Lemma ingestPages_sorted_witness :
  ingestPages example_cfg (Root example_tree)
  = (Ok [ {| filepath := "scans/a1.jpg"; number := 1; tmpPath := "" |};
          {| filepath := "scans/sub/a2.jpg"; number := 2; tmpPath := "" |};
          {| filepath := "scans/a3.jpg"; number := 3; tmpPath := "" |} ],
     [ Println "skipping: scans/sub/notes.txt"; Println "skipping: scans/b.JPG";
       Println "found page: scans/a3.jpg"; Println "found page: scans/a1.jpg";
       Println "found page: scans/sub/a2.jpg" ])
  /\ exists found,
       ingest_loop (sent (fst (walkDirectorySearchPath example_cfg (Root example_tree)))) []
         (map Println
            (skipped (fst (walkDirectorySearchPath example_cfg (Root example_tree)))))
       = (Ok found,
          [ Println "skipping: scans/sub/notes.txt"; Println "skipping: scans/b.JPG";
            Println "found page: scans/a3.jpg"; Println "found page: scans/a1.jpg";
            Println "found page: scans/sub/a2.jpg" ])
       /\ Permutation found
            [ {| filepath := "scans/a1.jpg"; number := 1; tmpPath := "" |};
              {| filepath := "scans/sub/a2.jpg"; number := 2; tmpPath := "" |};
              {| filepath := "scans/a3.jpg"; number := 3; tmpPath := "" |} ]
       /\ StronglySorted (fun p q => (number p <= number q)%Z)
            [ {| filepath := "scans/a1.jpg"; number := 1; tmpPath := "" |};
              {| filepath := "scans/sub/a2.jpg"; number := 2; tmpPath := "" |};
              {| filepath := "scans/a3.jpg"; number := 3; tmpPath := "" |} ]
       /\ (length found <= 12 ->
           pdq_spec.stable number found
             [ {| filepath := "scans/a1.jpg"; number := 1; tmpPath := "" |};
               {| filepath := "scans/sub/a2.jpg"; number := 2; tmpPath := "" |};
               {| filepath := "scans/a3.jpg"; number := 3; tmpPath := "" |} ]).
Proof.
  split; [vm_compute; reflexivity|].
  apply (ingestPages_sorted example_cfg (Root example_tree)).
  vm_compute. reflexivity.
Defined.

(** C1, as stated, fails: thirteen pages are found, twelve of number 1 and
    then one of number 0; [ingestPages] returns them in ascending order, but
    the pages of number 1 not in the order of their discovery (g1 comes
    first, a1 seventh, b1 last).  With 13 > 12 elements [pdqsortCmpFunc]
    does not start with the insertion sort: [choosePivotCmpFunc] takes the
    median of the elements 3, 6 and 9, which is element 6 without any swap;
    [partialInsertionSortCmpFunc] gives up at the last element (the slice is
    shorter than 50); [partitionCmpFunc] then exchanges the elements 0 and 6,
    then 1 and 12, and puts the pivot at index 1; the two sides, of 1 and 11
    elements, are insertion-sorted and do not change. *)
Lemma ingestPages_not_stable :
  fst (ingestPages example_cfg (Root thirteen_files))
  = Ok (pdq.SortFunc page_cmp thirteen_pages)
  /\ map filepath (pdq.SortFunc page_cmp thirteen_pages)
     = [ "scans/m0.jpg"; "scans/g1.jpg"; "scans/c1.jpg"; "scans/d1.jpg";
         "scans/e1.jpg"; "scans/f1.jpg"; "scans/a1.jpg"; "scans/h1.jpg";
         "scans/i1.jpg"; "scans/j1.jpg"; "scans/k1.jpg"; "scans/l1.jpg";
         "scans/b1.jpg" ]
  /\ ~ pdq_spec.stable number thirteen_pages (pdq.SortFunc page_cmp thirteen_pages).
Proof.
  split; [vm_compute; reflexivity|]. split; [vm_compute; reflexivity|].
  intros Hst. specialize (Hst 1%Z). vm_compute in Hst. discriminate.
Qed.

(** *** The claims about indexing *)

(** C2: the page number is meant to be the last run of digits of the file
    name; the code takes only the last digit of that run, since the greedy
    [.+] leaves the group [(\d+)] a single digit.  For ["scan-007.jpg"] the
    number is 7, but for ["page12b.jpg"] it is 2, not 12. *)
Theorem indexPage_page12b_yields_2 :
  indexPage "scan-007.jpg"
  = Ok {| filepath := "scan-007.jpg"; number := 7; tmpPath := "" |}
  /\ regexp.FindStringSubmatch pageNumberRegex "page12b.jpg" = [ "page12"; "2" ]
  /\ indexPage "page12b.jpg"
     = Ok {| filepath := "page12b.jpg"; number := 2; tmpPath := "" |}.
Proof. repeat split; vm_compute; reflexivity. Qed.

(** C4: a file name without digits does not make [ingestPages] return its
    error that names the file: [FindStringSubmatch] returns [nil], and the
    test [len(matches[1]) == 0] panics on the index. *)
Theorem ingestPages_cover_panics :
  indexPage "scans/cover.jpg"
  = Panic "runtime error: index out of range [1] with length 0"
  /\ ingestPages example_cfg (Root (Dir "scans" [ File "a1.jpg"; File "cover.jpg" ]))
     = (Panic "runtime error: index out of range [1] with length 0",
        [ Println "found page: scans/a1.jpg" ]).
Proof. split; vm_compute; reflexivity. Qed.

(** C10: when the pattern matches a file name, its group is exactly one
    decimal digit, and the page made from it has a number from 0 to 9. *)
Theorem pageNumber_is_one_digit (path : string) :
  regexp.FindStringSubmatch pageNumberRegex (filepath.Base path) <> [] ->
  exists whole c n,
    regexp.FindStringSubmatch pageNumberRegex (filepath.Base path)
    = [ whole; String c EmptyString ]
    /\ regexp.is_digit c = true
    /\ indexPage path = Ok {| filepath := path; number := n; tmpPath := "" |}
    /\ (0 <= n <= 9)%Z.
Proof.
  intros Hm.
  destruct (regexp_facts.FindStringSubmatch_shape (filepath.Base path))
    as [Hnil | (whole & c & Heq & Hd)]; [contradiction|].
  destruct (Atoi_digit c Hd) as (n & Ha & Hn).
  exists whole, c, n. repeat split; try tauto.
  unfold indexPage. rewrite Heq. cbn [lookup list_lookup].
  now rewrite digit_nonempty, Ha.
Qed.

Lemma pageNumber_is_one_digit_witness :
  regexp.FindStringSubmatch pageNumberRegex (filepath.Base "scans/page12b.jpg") <> []
  /\ exists whole c n,
       regexp.FindStringSubmatch pageNumberRegex (filepath.Base "scans/page12b.jpg")
       = [ whole; String c EmptyString ]
       /\ regexp.is_digit c = true
       /\ indexPage "scans/page12b.jpg"
          = Ok {| filepath := "scans/page12b.jpg"; number := n; tmpPath := "" |}
       /\ (0 <= n <= 9)%Z.
Proof.
  split.
  - vm_compute. discriminate.
  - apply (pageNumber_is_one_digit "scans/page12b.jpg"). vm_compute. discriminate.
Defined.

(** *** The claim about discovery *)

Lemma Contains_In (exts : list string) (v : string) :
  slices.Contains exts v = true <-> In v exts.
Proof.
  unfold slices.Contains. rewrite existsb_exists. split.
  - intros (x & Hin & Heq). apply String.eqb_eq in Heq. now subst.
  - intros Hin. exists v. split; auto. apply String.eqb_refl.
Qed.

(** C7: over a tree whose directories can all be listed, the walker sends
    exactly the entries that are not directories and whose extension is, as
    a string, one of the accepted ones, in the order of the walk; it prints
    a line for every other file and reports no error. *)
Theorem walk_sends_accepted_files (cfg : Config) (d : entry) :
  readable d = true ->
  walkDirectorySearchPath cfg (Root d)
  = ({| sent :=
          map fst
            (List.filter (accepted (strings.Split (fileExtensions cfg) ","))
               (entries_under (directorySearchPath cfg) d));
        skipped :=
          map (fun e => "skipping: " +:+ fst e)
            (List.filter (rejected (strings.Split (fileExtensions cfg) ","))
               (entries_under (directorySearchPath cfg) d)) |},
     None).
Proof.
  intros Hr. unfold walkDirectorySearchPath, WalkDir.
  now rewrite walkDir_readable.
Qed.

Lemma walk_sends_accepted_files_witness :
  readable example_tree = true
  /\ walkDirectorySearchPath example_cfg (Root example_tree)
     = ({| sent := [ "scans/a3.jpg"; "scans/a1.jpg"; "scans/sub/a2.jpg" ];
           skipped := [ "skipping: scans/sub/notes.txt"; "skipping: scans/b.JPG" ] |},
        None).
Proof.
  split; [reflexivity|].
  rewrite (walk_sends_accepted_files example_cfg example_tree); reflexivity.
Defined.

(** *** The claims about the transform *)

(** C8, as the code has it: the watermark sub-step runs exactly when a
    watermark is configured and the page's temporary file and its conversion
    succeeded; it then asks [magick] to resize the watermark to the page's
    width and height, each divided by the scale factor, and to composite it
    at +25+25. *)
Theorem watermark_invoked_iff (env : Env) (cfg : Config) (p : page) :
  let '(p', e1, _) := createTempFile env cfg p in
  invokes_watermark (snd (generate env cfg p))
  = watermark_enabled cfg
    && bool_decide (e1 = None)
    && bool_decide (fst (convert env cfg p') = None)
  /\ forall argv, In (Exec ("magick" :: argv)) (snd (generate env cfg p)) ->
     argv = [ tmpPath p'; "-colorspace"; "sRGB"; "-set"; "option:WMSIZE";
              "%[fx:w/" +:+ itoa (watermarkImageScale cfg) +:+ "]x%[fx:h/"
              +:+ itoa (watermarkImageScale cfg) +:+ "]";
              "("; watermarkFilePath cfg; "-resize"; "%[WMSIZE]"; ")";
              "-geometry"; "+25+25"; "-composite"; tmpPath p' ].
Proof.
  unfold generate, createTempFile.
  destruct (osCreateTemp env _ _ _) as [name | e].
  2:{ cbn. rewrite andb_false_r. split; [reflexivity|].
      intros argv Hin. cbn in Hin. intuition discriminate. }
  unfold convert. set (p' := with_tmpPath p name).
  destruct (CombinedOutput env (convert_argv cfg p')) as [b [e|]] eqn:Hc; cbn [fst snd].
  - cbn. rewrite andb_false_r. split; [reflexivity|].
    intros argv Hin. cbn in Hin. intuition discriminate.
  - destruct (watermark_enabled cfg) eqn:Hw.
    + unfold watermark.
      destruct (CombinedOutput env (watermark_argv cfg p')) as [b2 e2] eqn:Hm.
      cbn [fst snd]. split.
      * unfold invokes_watermark. rewrite !existsb_app. cbn. reflexivity.
      * intros argv Hin. destruct e2; cbn in Hin.
        all: repeat (destruct Hin as [Hin | Hin]; [try discriminate Hin|]);
          try contradiction.
        all: now injection Hin as <-.
    + cbn. split; [reflexivity|].
      intros argv Hin. cbn in Hin. intuition discriminate.
Qed.

(** C8, as stated, fails: with a watermark configured, a page whose
    conversion fails gets no watermark sub-step. *)
Lemma watermark_configured_not_invoked :
  watermark_enabled example_cfg = true
  /\ invokes_watermark (snd (generate env_convert_fails example_cfg page_a1)) = false.
Proof. split; reflexivity. Qed.

(** C5, as the code has it: when the dispatcher has returned, every page is
    as its own [generate] leaves it, whatever the other pages did; a failed
    page has its line on the output; and [tmpPath] is left as it was only
    when the temporary file could not be made, otherwise it names the file,
    also when the conversion or the watermark failed. *)
Theorem failed_page_is_reported (env : Env) (cfg : Config) (pages : list page)
    (sched : list thread) (pages' : list page) (t : trace) :
  genProcessedPages env cfg pages sched = Some (pages', t) ->
  length pages' = length pages
  /\ forall i p, pages !! i = Some p ->
     exists p',
       pages' !! i = Some p'
       /\ p' = fst (fst (generate env cfg p))
       /\ (forall e, snd (fst (generate env cfg p)) = Some e ->
           In (Println ("error processing page: " +:+ filepath p)) t)
       /\ match osCreateTemp env (filepath p) (workDirectory cfg)
                  ("watermarker-*" +:+ filepath.Ext (filepath p)) with
          | inl name => tmpPath p' = name
          | inr _ => tmpPath p' = tmpPath p
          end.
Proof.
  unfold genProcessedPages.
  destruct (dispatch_run env cfg sched (dispatch_init pages)) as [s|] eqn:Hrun;
    [|discriminate].
  destruct (d_main s) eqn:Hmain; try discriminate. intros [= <- <-].
  pose proof (dispatch_run_inv _ _ _ _ _ _ (dispatch_init_inv env cfg pages) Hrun)
    as Hinv.
  split; [apply (inv_len_pages _ _ _ _ Hinv)|].
  intros i p Hp.
  destruct (inv_task _ _ _ _ Hinv i p Hp) as (c & p' & Hc & Hp' & Htask).
  rewrite (returned_all_exit _ _ _ _ Hinv Hmain i) in Hc
    by (eapply lookup_lt_Some; eauto).
  injection Hc as <-. cbn [task_inv] in Htask.
  destruct Htask as (err & t1 & Hg & Hrep).
  exists p'. rewrite Hg. cbn [fst snd]. repeat split; auto.
  - intros e ->. cbn [report] in Hrep. inversion Hrep as [|? ? Hin _]; subst.
    assert (Hf : filepath p' = filepath p).
    { pose proof (generate_page env cfg p) as Hgp. rewrite Hg in Hgp.
      cbn [fst] in Hgp. subst p'. unfold createTempFile.
      now destruct (osCreateTemp _ _ _ _). }
    now rewrite <- Hf.
  - pose proof (generate_page env cfg p) as Hgp. rewrite Hg in Hgp.
    cbn [fst] in Hgp. subst p'.
    pose proof (createTempFile_spec env cfg p) as Hs.
    destruct (osCreateTemp _ _ _ _); now rewrite Hs.
Qed.

Lemma failed_page_is_reported_witness :
  genProcessedPages env_convert_fails example_cfg [ page_a1 ]
    (sequential_schedule env_convert_fails example_cfg [ page_a1 ])
  = Some ([ with_tmpPath page_a1 "work/watermarker-a1.jpg" ],
          [ Mkdir "work"; CreateTemp "work/watermarker-a1.jpg";
            Exec (convert_argv example_cfg (with_tmpPath page_a1 "work/watermarker-a1.jpg"));
            Println "convert: no decode delegate";
            Println "error processing page: scans/a1.jpg" ])
  /\ length [ with_tmpPath page_a1 "work/watermarker-a1.jpg" ] = length [ page_a1 ]
  /\ In (Println ("error processing page: " +:+ filepath page_a1))
       [ Mkdir "work"; CreateTemp "work/watermarker-a1.jpg";
         Exec (convert_argv example_cfg (with_tmpPath page_a1 "work/watermarker-a1.jpg"));
         Println "convert: no decode delegate";
         Println "error processing page: scans/a1.jpg" ].
Proof.
  assert (Hrun : genProcessedPages env_convert_fails example_cfg [ page_a1 ]
    (sequential_schedule env_convert_fails example_cfg [ page_a1 ])
  = Some ([ with_tmpPath page_a1 "work/watermarker-a1.jpg" ],
          [ Mkdir "work"; CreateTemp "work/watermarker-a1.jpg";
            Exec (convert_argv example_cfg (with_tmpPath page_a1 "work/watermarker-a1.jpg"));
            Println "convert: no decode delegate";
            Println "error processing page: scans/a1.jpg" ])) by reflexivity.
  split; [exact Hrun|].
  destruct (failed_page_is_reported _ _ _ _ _ _ Hrun) as [Hlen Hall].
  split; [exact Hlen|].
  destruct (Hall 0 page_a1 eq_refl) as (p' & _ & _ & Hin & _).
  exact (Hin "exit status 1" eq_refl).
Defined.

(** C5, as stated, fails: the conversion of the page fails, the failure is
    printed, and yet the page's [tmpPath] is set when the dispatcher
    returns. *)
Lemma failed_page_keeps_tmpPath :
  snd (fst (generate env_convert_fails example_cfg page_a1)) = Some "exit status 1"
  /\ fmap (fun r => map tmpPath (fst r))
       (genProcessedPages env_convert_fails example_cfg [ page_a1 ]
          (sequential_schedule env_convert_fails example_cfg [ page_a1 ]))
     = Some [ "work/watermarker-a1.jpg" ].
Proof. split; reflexivity. Qed.

(** C9: in every run of the dispatcher, under every schedule, once
    [wg.Wait()] has returned the counter is zero and the goroutine of every
    page has ended. *)
Theorem genProcessedPages_full_barrier (env : Env) (cfg : Config) (pages : list page)
    (sched : list thread) (s : dispatch) :
  dispatch_run env cfg sched (dispatch_init pages) = Some s ->
  d_main s = mReturned ->
  d_wg s = 0%Z
  /\ forall i, i < length pages -> d_tasks s !! i = Some (Some pcExit).
Proof.
  intros Hrun Hmain.
  pose proof (dispatch_run_inv _ _ _ _ _ _ (dispatch_init_inv env cfg pages) Hrun)
    as Hinv.
  split.
  - now apply (inv_returned _ _ _ _ Hinv).
  - now apply (returned_all_exit _ _ _ _ Hinv).
Qed.

Lemma genProcessedPages_full_barrier_witness :
  exists s,
    dispatch_run env_ok example_cfg barrier_schedule (dispatch_init [ page_a1; page_a1 ])
    = Some s
    /\ d_main s = mReturned
    /\ d_wg s = 0%Z
    /\ forall i, i < length [ page_a1; page_a1 ] -> d_tasks s !! i = Some (Some pcExit).
Proof.
  eexists. split; [vm_compute; reflexivity|]. split; [reflexivity|].
  apply (genProcessedPages_full_barrier env_ok example_cfg [ page_a1; page_a1 ]
           barrier_schedule); vm_compute; reflexivity.
Defined.

(** *** The claims about bundling and cleanup *)

Lemma lookup_map_Some {A B : Type} (f : A -> B) (l : list A) (i : nat) (x : A) :
  l !! i = Some x -> map f l !! i = Some (f x).
Proof.
  revert i; induction l as [|y l IH]; intros [|i]; simpl; try discriminate.
  - now intros [= ->].
  - apply IH.
Qed.

(** C3, as the code has it: [bundlePages] checks nothing; it always runs
    [img2pdf] once, with one argument per page in page order, whatever the
    [tmpPath] is (also the empty one), and returns the tool's error. *)
Theorem bundlePages_always_invokes (env : Env) (cfg : Config) (pages : list page) :
  exists out,
    bundlePages env cfg pages
    = (snd (CombinedOutput env (bundle_argv cfg pages)),
       Exec (bundle_argv cfg pages) :: out)
    /\ Forall (fun e => exists line, e = Println line) out
    /\ length (bundle_argv cfg pages) = 3 + length pages
    /\ firstn 3 (bundle_argv cfg pages) = [ "img2pdf"; "--output"; outputFilePath cfg ]
    /\ forall i p, pages !! i = Some p ->
       bundle_argv cfg pages !! (3 + i) = Some (tmpPath p).
Proof.
  unfold bundlePages.
  destruct (CombinedOutput env (bundle_argv cfg pages)) as [b err].
  exists (printCommandOutput b err). split; [reflexivity|]. split.
  { destruct err; cbn; repeat constructor; eauto. }
  unfold bundle_argv. cbn [length app firstn]. rewrite length_map.
  repeat split; auto.
  intros i p Hp. cbn. now apply lookup_map_Some.
Qed.

(** C3, as stated, fails: a page without [tmpPath] does not stop the
    bundling; [img2pdf] runs with the empty path in its list and the run
    goes on as a success. *)
Lemma bundlePages_incomplete_list :
  bundlePages env_ok example_cfg
    [ page_a1; {| filepath := "scans/a2.jpg"; number := 2; tmpPath := "work/2.jpg" |} ]
  = (None, [ Exec [ "img2pdf"; "--output"; "out.pdf"; ""; "work/2.jpg" ] ]).
Proof. reflexivity. Qed.

(** C6: the cleanup loop is reached only when bundling succeeded; when
    [img2pdf] fails, [main] returns at once and the temporary files stay.
    Here one page is processed, bundling fails, no [os.Remove] happens and
    the page's temporary file is left behind. *)
Theorem main_bundle_failure_leaks :
  match main env_bundle_fails example_cfg (Root (Dir "scans" [ File "a1.jpg" ]))
          (sequential_schedule env_bundle_fails example_cfg [ page_a1 ]) with
  | Returned t => (existsb is_remove t, temp_files [] t)
  | _ => (true, [])
  end = (false, [ "work/watermarker-a1.jpg" ])
  /\ match main env_ok example_cfg (Root (Dir "scans" [ File "a1.jpg" ]))
             (sequential_schedule env_ok example_cfg [ page_a1 ]) with
     | Returned t => (existsb is_remove t, temp_files [] t)
     | _ => (false, [ "?" ])
     end = (true, []).
Proof. split; vm_compute; reflexivity. Qed.

(** *** Further properties *)

(** Whatever the page numbers are, as long as their difference cannot
    overflow, [slices.SortFunc] with the comparison of [ingestPages] returns
    the pages rearranged into ascending order of their numbers, and keeps the
    order of equal numbers among at most twelve pages. *)
Theorem SortFunc_sorts_pages (pages : list page) :
  Forall (fun p => (- 2 ^ 62 <= number p < 2 ^ 62)%Z) pages ->
  Permutation pages (pdq.SortFunc page_cmp pages)
  /\ StronglySorted (fun p q => (number p <= number q)%Z) (pdq.SortFunc page_cmp pages)
  /\ (length pages <= 12 -> pdq_spec.stable number pages (pdq.SortFunc page_cmp pages)).
Proof.
  apply (pdq_main.SortFunc_spec page_cmp number
           (fun p => (- 2 ^ 62 <= number p < 2 ^ 62)%Z)).
  apply page_cmp_key.
Qed.

Lemma SortFunc_sorts_pages_witness :
  Forall (fun p => (- 2 ^ 62 <= number p < 2 ^ 62)%Z)
    [ {| filepath := "c"; number := 3; tmpPath := "" |};
      {| filepath := "a"; number := 1; tmpPath := "" |};
      {| filepath := "b"; number := 1; tmpPath := "" |} ]
  /\ Permutation
       [ {| filepath := "c"; number := 3; tmpPath := "" |};
         {| filepath := "a"; number := 1; tmpPath := "" |};
         {| filepath := "b"; number := 1; tmpPath := "" |} ]
       (pdq.SortFunc page_cmp
          [ {| filepath := "c"; number := 3; tmpPath := "" |};
            {| filepath := "a"; number := 1; tmpPath := "" |};
            {| filepath := "b"; number := 1; tmpPath := "" |} ]).
Proof.
  assert (Hb : Forall (fun p => (- 2 ^ 62 <= number p < 2 ^ 62)%Z)
    [ {| filepath := "c"; number := 3; tmpPath := "" |};
      {| filepath := "a"; number := 1; tmpPath := "" |};
      {| filepath := "b"; number := 1; tmpPath := "" |} ])
    by (repeat constructor; cbn; lia).
  split; [exact Hb|]. exact (proj1 (SortFunc_sorts_pages _ Hb)).
Defined.

Lemma indexPage_no_digit_witness :
  Forall (fun c => regexp.is_digit c = false)
    (list_ascii_of_string (filepath.Base "scans/cover.jpg"))
  /\ indexPage "scans/cover.jpg"
     = Panic "runtime error: index out of range [1] with length 0".
Proof.
  assert (Hd : Forall (fun c => regexp.is_digit c = false)
                 (list_ascii_of_string (filepath.Base "scans/cover.jpg")))
    by (repeat constructor).
  split; [exact Hd|]. exact (indexPage_no_digit "scans/cover.jpg" Hd).
Defined.

(** Every page that [ingestPages] returns has a number from 0 to 9. *)
Theorem ingestPages_numbers (cfg : Config) (fs : root) (pages : list page) (t : trace) :
  ingestPages cfg fs = (Ok pages, t) ->
  Forall (fun p => (0 <= number p <= 9)%Z) pages.
Proof.
  unfold ingestPages.
  destruct (walkDirectorySearchPath cfg fs) as [w err].
  destruct (ingest_loop (sent w) [] (map Println (skipped w))) as [[found| |] out]
    eqn:Hloop; try discriminate.
  destruct err; [discriminate|]. intros [= <- <-].
  apply ingest_loop_numbers in Hloop; [|constructor].
  destruct (pdq_main.SortFunc_spec page_cmp number
              (fun p => (- 2 ^ 62 <= number p < 2 ^ 62)%Z) page_cmp_key found)
    as [Hperm _].
  - eapply Forall_impl; [exact Hloop|]. cbn. intros p Hp. lia.
  - now rewrite <- Hperm.
Qed.

Lemma ingestPages_numbers_witness :
  ingestPages example_cfg (Root thirteen_files)
  = (Ok (pdq.SortFunc page_cmp thirteen_pages),
     map (fun p => Println ("found page: " +:+ filepath p)) thirteen_pages)
  /\ Forall (fun p => (0 <= number p <= 9)%Z) (pdq.SortFunc page_cmp thirteen_pages).
Proof.
  assert (Hrun : ingestPages example_cfg (Root thirteen_files)
                 = (Ok (pdq.SortFunc page_cmp thirteen_pages),
                    map (fun p => Println ("found page: " +:+ filepath p)) thirteen_pages))
    by (vm_compute; reflexivity).
  split; [exact Hrun|]. exact (ingestPages_numbers _ _ _ _ Hrun).
Defined.

(** ** Part III: further properties of the program *)

(** *** File names and page numbers *)



Lemma last_digit_None (s : list ascii) :
  last_digit s = None -> Forall (fun c => regexp.is_digit c = false) s.
Proof.
  induction s as [|c s IH]; cbn; [constructor|].
  destruct (last_digit s); [discriminate|].
  destruct (regexp.is_digit c) eqn:Hc; [discriminate|].
  intros _. constructor; auto.
Qed.

Lemma plus_any_last_digit (b : nat) (s : list ascii) : forall pos,
  no_line_feed s ->
  match last_digit s with
  | None => regexp.plus_loop regexp.AnyCharNotNL (pattern_tail b) s pos = None
  | Some d =>
      exists q e,
        regexp.plus_loop regexp.AnyCharNotNL (pattern_tail b) s pos
        = Some (b, e, Some (pos + q, S (pos + q)))
        /\ s !! q = Some d
  end.
Proof.
  induction s as [|c s IH]; intros pos Hnl.
  - cbn [last_digit regexp.plus_loop]. apply regexp_facts.tail_nil.
  - inversion Hnl as [|? ? Hc Hs]; subst.
    specialize (IH (S pos) Hs).
    cbn [last_digit regexp.plus_loop regexp.class_matches].
    rewrite Hc. cbn [negb].
    destruct (last_digit s) as [d|] eqn:Hd.
    + destruct IH as (q & e & -> & Hq).
      exists (S q), e. split; [|exact Hq].
      replace (pos + S q) with (S pos + q) by lia. reflexivity.
    + rewrite IH.
      destruct (regexp.is_digit c) eqn:Hdig.
      * destruct (pattern_tail b (c :: s) pos) as [m|] eqn:Hm.
        -- apply regexp_facts.tail_one_digit in Hm.
           ++ destruct Hm as [e ->]. exists 0, e. split; [|reflexivity].
              replace (pos + 0) with pos by lia. reflexivity.
           ++ apply regexp_facts.plus_loop_none in IH. exact IH.
        -- exfalso. revert Hm. unfold pattern_tail. cbn.
           rewrite Hdig.
           apply last_digit_None in Hd.
           destruct s as [|c2 s2]; cbn.
           ++ discriminate.
           ++ inversion Hd as [|? ? Hc2 _]; subst. rewrite Hc2.
              destruct (Ascii.eqb c2 "."); discriminate.
      * apply regexp_facts.tail_not_digit. exact Hdig.
Qed.

Lemma search_last_digit (s : list ascii) :
  no_line_feed s ->
  match last_digit (tail s) with
  | None => regexp.search pageNumberRegex s 0 = None
  | Some d =>
      exists q e,
        regexp.search pageNumberRegex s 0 = Some (0, e, Some (S q, S (S q)))
        /\ s !! S q = Some d
  end.
Proof.
  intros Hnl. destruct s as [|c s].
  - reflexivity.
  - inversion Hnl as [|? ? Hc Hs]; subst.
    cbn [tail regexp.search].
    rewrite regexp_facts.backtrack_pattern.
    cbn [regexp.class_matches]. rewrite Hc. cbn [negb].
    pose proof (plus_any_last_digit 0 s 1 Hs) as Hp.
    destruct (last_digit s) as [d|] eqn:Hd.
    + destruct Hp as (q & e & -> & Hq). exists q, e. split; [reflexivity|exact Hq].
    + rewrite Hp. apply regexp_facts.search_no_digit.
      apply last_digit_None. exact Hd.
Qed.

Lemma Atoi_one_digit (c : ascii) :
  regexp.is_digit c = true ->
  strconv.Atoi (String c EmptyString) = inl (strconv.digit_value c).
Proof.
  intros Hc.
  assert (Hv : (0 <= strconv.digit_value c <= 9)%Z).
  { unfold regexp.is_digit in Hc. unfold strconv.digit_value.
    apply andb_prop in Hc as [H1 H2].
    apply Nat.leb_le in H1, H2. lia. }
  assert (Hsign : c <> "-"%char /\ c <> "+"%char).
  { split; intros ->; vm_compute in Hc; discriminate. }
  destruct Hsign as [Hm Hp].
  unfold strconv.Atoi.
  assert (Hbody : match String c EmptyString with
                  | String "-" rest => (true, rest)
                  | String "+" rest => (false, rest)
                  | _ => (false, String c EmptyString)
                  end = (false, String c EmptyString)).
  { destruct c as [[] [] [] [] [] [] [] []]; try reflexivity; congruence. }
  rewrite Hbody. cbn [strconv.digits_value]. rewrite Hc.
  cbn [strconv.digits_value].
  replace (0 * 10 + strconv.digit_value c)%Z with (strconv.digit_value c) by lia.
  unfold strconv.MinInt, strconv.MaxInt.
  destruct (Z.leb_spec (- 2 ^ 63) (strconv.digit_value c)); [|lia].
  destruct (Z.leb_spec (strconv.digit_value c) (2 ^ 63 - 1)); [|lia].
  reflexivity.
Qed.

(** The page number that [ingestPages] gives a path whose file name has no
    line feed is the value of the last decimal digit of the name that is not
    its first character; when the name has no such digit (no digit at all, or
    one only at its very start, as in [1.jpg]) the index [matches[1]] panics. *)
Theorem indexPage_last_digit (path : string) :
  no_line_feed (list_ascii_of_string (filepath.Base path)) ->
  indexPage path
  = match last_digit (tail (list_ascii_of_string (filepath.Base path))) with
    | Some d => Ok {| filepath := path; number := strconv.digit_value d; tmpPath := "" |}
    | None => Panic "runtime error: index out of range [1] with length 0"
    end.
Proof.
  intros Hnl. apply search_last_digit in Hnl.
  unfold indexPage, regexp.FindStringSubmatch.
  destruct (last_digit (tail (list_ascii_of_string (filepath.Base path)))) as [d|] eqn:Hd.
  - destruct Hnl as (q & e & -> & Hq).
    cbn [lookup list_lookup].
    replace (S (S q) - S q) with 1 by lia.
    rewrite (substring_one _ _ _ Hq).
    assert (Hdig : regexp.is_digit d = true).
    { clear -Hd. revert Hd.
      generalize (tail (list_ascii_of_string (filepath.Base path))) as s.
      induction s as [|c s IH]; cbn; [discriminate|].
      destruct (last_digit s); [intros [= <-]; auto|].
      destruct (regexp.is_digit c) eqn:Hc; [intros [= <-]; exact Hc|discriminate]. }
    rewrite digit_nonempty, (Atoi_one_digit _ Hdig). reflexivity.
  - rewrite Hnl. reflexivity.
Qed.


Lemma indexPage_last_digit_witness :
  no_line_feed (list_ascii_of_string (filepath.Base "scans/1.jpg"))
  /\ indexPage "scans/1.jpg" = Panic "runtime error: index out of range [1] with length 0".
Proof.
  assert (H : no_line_feed (list_ascii_of_string (filepath.Base "scans/1.jpg")))
    by (vm_compute; repeat constructor).
  split; [exact H|]. exact (indexPage_last_digit "scans/1.jpg" H).
Defined.

Lemma list_ascii_app (a b : string) :
  list_ascii_of_string (a +:+ b) = list_ascii_of_string a ++ list_ascii_of_string b.
Proof. induction a as [|c a IH]; cbn; [reflexivity|]. now rewrite <- IH. Qed.

Lemma list_ascii_nil (s : string) : list_ascii_of_string s = [] -> s = "".
Proof. destruct s; [reflexivity|discriminate]. Qed.

Lemma last_element_app (name rest : list ascii) :
  no_slash name ->
  filepath.last_element (name ++ "/"%char :: rest) = name.
Proof.
  induction 1 as [|c name Hc _ IH]; cbn; [reflexivity|].
  rewrite Hc. now rewrite IH.
Qed.

Lemma last_element_all (name : list ascii) :
  no_slash name -> filepath.last_element name = name.
Proof.
  induction 1 as [|c name Hc _ IH]; cbn; [reflexivity|].
  rewrite Hc. now rewrite IH.
Qed.

Lemma strip_slashes_no_slash (name rest : list ascii) :
  no_slash name -> name <> [] ->
  filepath.strip_slashes (name ++ rest) = name ++ rest.
Proof.
  intros Hn Hne. destruct Hn as [|c name Hc _]; [congruence|].
  cbn. now rewrite Hc.
Qed.

Lemma Base_of_chars (path name : string) (pre : list ascii) :
  name <> "" ->
  no_slash (list_ascii_of_string name) ->
  list_ascii_of_string path = list_ascii_of_string name
  \/ list_ascii_of_string path = pre ++ "/"%char :: list_ascii_of_string name ->
  filepath.Base path = name.
Proof.
  intros Hne Hns Hpath.
  assert (Hrev : no_slash (rev (list_ascii_of_string name))).
  { unfold no_slash. apply Forall_rev. exact Hns. }
  assert (Hrne : rev (list_ascii_of_string name) <> []).
  { intros Hr. apply Hne, list_ascii_nil.
    apply (f_equal (@rev ascii)) in Hr. now rewrite rev_involutive in Hr. }
  unfold filepath.Base.
  assert (Hp : String.eqb path "" = false).
  { apply String.eqb_neq. intros ->. destruct Hpath as [Hp|Hp].
    - apply Hne, list_ascii_nil. now rewrite <- Hp.
    - destruct pre; discriminate. }
  rewrite Hp.
  assert (Helem : filepath.last_element
                    (filepath.strip_slashes (rev (list_ascii_of_string path)))
                  = rev (list_ascii_of_string name)).
  { destruct Hpath as [-> | ->].
    - rewrite <- (app_nil_r (rev _)), strip_slashes_no_slash, app_nil_r by assumption.
      now apply last_element_all.
    - rewrite rev_app_distr. cbn [rev]. rewrite <- app_assoc. cbn [app].
      rewrite strip_slashes_no_slash by assumption.
      now apply last_element_app. }
  rewrite Helem.
  destruct (rev (list_ascii_of_string name)) eqn:Hr; [congruence|].
  rewrite <- Hr, rev_involutive. apply string_of_list_ascii_of_string.
Qed.

Lemma string_of_chars_inj (s : string) (l : list ascii) :
  list_ascii_of_string s = l -> s = string_of_list_ascii l.
Proof. intros <-. symmetry. apply string_of_list_ascii_of_string. Qed.

(** Copying an element: up to its end. *)
Lemma Clean_copy (rooted : bool) (p : list ascii) : forall out dotdot,
  no_slash p ->
  filepath.Clean_loop rooted true p out dotdot = rev p ++ out.
Proof.
  induction p as [|c p IH]; intros out dotdot Hp; [reflexivity|].
  apply Forall_cons in Hp as [Hc Hp]. cbn [filepath.Clean_loop]. rewrite Hc.
  rewrite (IH _ _ Hp). cbn [rev]. now rewrite <- app_assoc.
Qed.

(** The buffer with the slash that a real element needs before it. *)

(** A real element at the end of the path is copied to the buffer. *)
Lemma Clean_element (rooted : bool) (nm out : list ascii) (dotdot : nat) :
  nm <> [] -> no_slash nm -> nm <> [ "."%char ] -> nm <> [ "."%char; "."%char ] ->
  filepath.Clean_loop rooted false nm out dotdot = rev nm ++ with_slash rooted out.
Proof.
  intros Hne Hns Hdot Hdotdot. destruct nm as [|c rest]; [congruence|].
  apply Forall_cons in Hns as [Hc Hrest]. cbn [filepath.Clean_loop]. rewrite Hc.
  assert (Hends : forall l, no_slash l -> l <> [] -> filepath.element_ends l = false).
  { intros [|x l] Hl Hn; [congruence|]. apply Forall_cons in Hl as [Hx _]. exact Hx. }
  assert (H1 : filepath.is_dot c && filepath.element_ends rest = false).
  { destruct (filepath.is_dot c) eqn:Hd; [|reflexivity]. cbn [andb].
    apply Hends; [exact Hrest|]. intros ->. apply Ascii.eqb_eq in Hd. congruence. }
  rewrite H1. cbv zeta. fold (with_slash rooted out).
  assert (Hreal : filepath.Clean_loop rooted true rest (c :: with_slash rooted out) dotdot
                  = rev (c :: rest) ++ with_slash rooted out).
  { rewrite (Clean_copy _ _ _ _ Hrest). cbn [rev]. now rewrite <- app_assoc. }
  destruct rest as [|c2 rest2]; [exact Hreal|].
  assert (H2 : filepath.is_dot c && filepath.is_dot c2 && filepath.element_ends rest2 = false).
  { destruct (filepath.is_dot c) eqn:Hd; [|reflexivity].
    destruct (filepath.is_dot c2) eqn:Hd2; [|reflexivity]. cbn [andb].
    apply Forall_cons in Hrest as [_ Hrest2].
    apply Hends; [exact Hrest2|]. intros ->.
    apply Ascii.eqb_eq in Hd, Hd2. congruence. }
  rewrite H2. exact Hreal.
Qed.


Lemma back_up_spec (dotdot : nat) (out : list ascii) : forall top,
  exists k, filepath.back_up dotdot top out = drop k out
            /\ (dotdot <= length out -> dotdot <= length (drop k out)).
Proof.
  induction out as [|c out IH]; intros top; cbn [filepath.back_up].
  - exists 0. split; [reflexivity|]. intros H. exact H.
  - destruct ((dotdot <? length (c :: out)) && negb (filepath.IsPathSeparator top)) eqn:Hc.
    + apply andb_prop in Hc as [Hlt _]. apply Nat.ltb_lt in Hlt. cbn [length] in Hlt.
      destruct (IH c) as (k & Hk & Hlen). exists (S k). split; [exact Hk|].
      intros _. cbn [drop]. apply Hlen. lia.
    + exists 0. split; [reflexivity|]. intros H. exact H.
Qed.

Lemma rooted_inv_drop (rooted : bool) (out : list ascii) (dotdot k : nat) :
  rooted_inv rooted out dotdot -> dotdot <= length (drop k out) ->
  rooted_inv rooted (drop k out) dotdot.
Proof.
  intros Hinv Hlen Hr. destruct (Hinv Hr) as (-> & r & ->). split; [reflexivity|].
  rewrite length_drop, length_app in Hlen. cbn [length] in Hlen.
  exists (drop k r). rewrite drop_app_le by lia. reflexivity.
Qed.

Lemma rooted_inv_cons (rooted : bool) (out : list ascii) (dotdot : nat) (c : ascii) :
  rooted_inv rooted out dotdot -> rooted_inv rooted (c :: out) dotdot.
Proof.
  intros Hinv Hr. destruct (Hinv Hr) as (-> & r & ->). split; [reflexivity|].
  now exists (c :: r).
Qed.

Lemma rooted_inv_slash (rooted : bool) (out : list ascii) (dotdot : nat) :
  rooted_inv rooted out dotdot -> rooted_inv rooted (with_slash rooted out) dotdot.
Proof.
  intros Hinv. unfold with_slash.
  destruct ((rooted && negb (length out =? 1)) || (negb rooted && negb (length out =? 0)));
    [now apply rooted_inv_cons|exact Hinv].
Qed.

(** The loop of [filepath.Clean] over the elements before the last one ends
    at the start of the last one. *)
Lemma Clean_prefix (rooted : bool) (q : list ascii) : forall n path copying out dotdot,
  length path <= n ->
  rooted_inv rooted out dotdot ->
  exists out' dotdot',
    rooted_inv rooted out' dotdot'
    /\ filepath.Clean_loop rooted copying (path ++ "/"%char :: q) out dotdot
       = filepath.Clean_loop rooted false q out' dotdot'.
Proof.
  assert (Hnil : forall copying out dotdot, rooted_inv rooted out dotdot ->
            exists out' dotdot',
              rooted_inv rooted out' dotdot'
              /\ filepath.Clean_loop rooted copying ("/"%char :: q) out dotdot
                 = filepath.Clean_loop rooted false q out' dotdot').
  { intros copying out dotdot Hinv. exists out, dotdot. split; [exact Hinv|].
    destruct copying; reflexivity. }
  induction n as [|n IH]; intros path copying out dotdot Hlen Hinv.
  { destruct path; [|cbn in Hlen; lia]. now apply Hnil. }
  destruct path as [|c rest]; [now apply Hnil|].
  cbn [length] in Hlen. cbn [app filepath.Clean_loop].
  destruct copying.
  { destruct (filepath.IsPathSeparator c).
    - apply IH; [lia|exact Hinv].
    - apply IH; [lia|now apply rooted_inv_cons]. }
  destruct (filepath.IsPathSeparator c); [apply IH; [lia|exact Hinv]|].
  destruct (filepath.is_dot c && filepath.element_ends (rest ++ "/"%char :: q));
    [apply IH; [lia|exact Hinv]|].
  cbv zeta. fold (with_slash rooted out).
  assert (Hreal : exists out' dotdot',
            rooted_inv rooted out' dotdot'
            /\ filepath.Clean_loop rooted true (rest ++ "/"%char :: q)
                 (c :: with_slash rooted out) dotdot
               = filepath.Clean_loop rooted false q out' dotdot').
  { apply IH; [lia|]. now apply rooted_inv_cons, rooted_inv_slash. }
  destruct rest as [|c2 rest2].
  { cbn [app]. change (filepath.is_dot "/") with false.
    rewrite andb_false_r. cbn [andb]. exact Hreal. }
  cbn [app length] in *.
  destruct (filepath.is_dot c && filepath.is_dot c2
            && filepath.element_ends (rest2 ++ "/"%char :: q)); [|exact Hreal].
  destruct (dotdot <? length out) eqn:Hlt.
  - apply Nat.ltb_lt in Hlt. destruct out as [|top out']; [cbn in Hlt; lia|].
    cbn [length] in Hlt.
    destruct (back_up_spec dotdot out' top) as (k & -> & Hk).
    apply IH; [lia|].
    change (drop k out') with (drop (S k) (top :: out')).
    apply rooted_inv_drop; [exact Hinv|]. cbn [drop]. apply Hk. lia.
  - destruct rooted; cbn [negb].
    + apply IH; [lia|exact Hinv].
    + apply IH; [lia|]. intros [=].
Qed.

(** [filepath.Clean] keeps a last element that is a name. *)
Lemma Clean_last (d nm : list ascii) :
  nm <> [] -> no_slash nm -> nm <> [ "."%char ] -> nm <> [ "."%char; "."%char ] ->
  exists pre,
    list_ascii_of_string (filepath.Clean (string_of_list_ascii (d ++ "/"%char :: nm))) = nm
    \/ list_ascii_of_string (filepath.Clean (string_of_list_ascii (d ++ "/"%char :: nm)))
       = pre ++ "/"%char :: nm.
Proof.
  intros Hne Hns Hd Hdd. unfold filepath.Clean.
  rewrite list_ascii_of_string_of_list_ascii.
  assert (Hend : forall rooted out dotdot,
            rooted_inv rooted out dotdot ->
            exists pre,
              list_ascii_of_string
                match filepath.Clean_loop rooted false nm out dotdot with
                | [] => "."
                | _ => string_of_list_ascii (rev (filepath.Clean_loop rooted false nm out dotdot))
                end = nm
              \/ list_ascii_of_string
                match filepath.Clean_loop rooted false nm out dotdot with
                | [] => "."
                | _ => string_of_list_ascii (rev (filepath.Clean_loop rooted false nm out dotdot))
                end = pre ++ "/"%char :: nm).
  { intros rooted out dotdot Hinv.
    rewrite (Clean_element rooted nm out dotdot Hne Hns Hd Hdd).
    destruct (rev nm ++ with_slash rooted out) eqn:Hout.
    { apply app_eq_nil in Hout as [Hr _]. exfalso. apply Hne.
      apply (f_equal (@rev ascii)) in Hr. now rewrite rev_involutive in Hr. }
    rewrite <- Hout, list_ascii_of_string_of_list_ascii, rev_app_distr, rev_involutive.
    unfold with_slash.
    destruct ((rooted && negb (length out =? 1)) || (negb rooted && negb (length out =? 0)))
      eqn:Hc.
    - exists (rev out). right. cbn [rev]. now rewrite <- app_assoc.
    - destruct rooted; cbn [andb orb negb] in Hc.
      + destruct (Hinv eq_refl) as (_ & r & ->).
        rewrite orb_false_r in Hc. apply negb_false_iff, Nat.eqb_eq in Hc.
        rewrite length_app in Hc. cbn [length] in Hc.
        destruct r; [|cbn in Hc; lia]. exists []. right. reflexivity.
      + apply negb_false_iff, Nat.eqb_eq in Hc. destruct out; [|discriminate].
        exists []. left. apply app_nil_l. }
  destruct d as [|c d]; cbn [app].
  - change (filepath.IsPathSeparator "/") with true. cbv iota.
    apply Hend. intros _. split; [reflexivity|]. now exists [].
  - destruct (filepath.IsPathSeparator c).
    + destruct (Clean_prefix true nm (length d) d false [ "/"%char ] 1) as (o & dd & Hinv & ->);
        [lia| |now apply Hend].
      intros _. split; [reflexivity|]. now exists [].
    + change (c :: d ++ "/"%char :: nm) with ((c :: d) ++ "/"%char :: nm).
      destruct (Clean_prefix false nm (length (c :: d)) (c :: d) false [] 0)
        as (o & dd & Hinv & ->); [lia| |now apply Hend].
      intros [=].
Qed.

Lemma Base_Join (dir name : string) :
  name <> "" ->
  no_slash (list_ascii_of_string name) ->
  name <> "." -> name <> ".." ->
  filepath.Base (filepath.Join dir name) = name.
Proof.
  intros Hne Hns Hd Hdd.
  assert (Hne' : list_ascii_of_string name <> []).
  { intros H. now apply Hne, list_ascii_nil. }
  assert (Hd' : list_ascii_of_string name <> [ "."%char ]).
  { intros H. apply Hd. apply string_of_chars_inj in H. exact H. }
  assert (Hdd' : list_ascii_of_string name <> [ "."%char; "."%char ]).
  { intros H. apply Hdd. apply string_of_chars_inj in H. exact H. }
  unfold filepath.Join.
  destruct (String.eqb dir "") eqn:Hdir; cbn [negb].
  - apply String.eqb_eq in Hdir. subst dir.
    destruct (String.eqb name "") eqn:Hn; [apply String.eqb_eq in Hn; congruence|].
    cbn [negb]. apply (Base_of_chars _ _ [] Hne Hns). left.
    unfold filepath.Clean.
    destruct (list_ascii_of_string name) as [|c rest] eqn:Hn'; [congruence|].
    assert (Hc : filepath.IsPathSeparator c = false).
    { apply Forall_cons in Hns as [Hc _]. exact Hc. }
    rewrite Hc, (Clean_element false (c :: rest) [] 0 Hne' Hns Hd' Hdd').
    change (with_slash false []) with (@nil ascii). rewrite app_nil_r.
    destruct (rev (c :: rest)) eqn:Hr.
    { apply (f_equal (@rev ascii)) in Hr. rewrite rev_involutive in Hr. discriminate. }
    rewrite <- Hr, rev_involutive. apply list_ascii_of_string_of_list_ascii.
  - destruct (Clean_last (list_ascii_of_string dir) (list_ascii_of_string name)
                Hne' Hns Hd' Hdd') as (pre & Hc).
    apply (Base_of_chars _ _ pre Hne Hns).
    replace (dir +:+ "/" +:+ name)
      with (string_of_list_ascii
              (list_ascii_of_string dir ++ "/"%char :: list_ascii_of_string name)).
    { exact Hc. }
    symmetry. apply string_of_chars_inj. now rewrite !list_ascii_app.
Qed.

Lemma Base_name (name : string) :
  name <> "" ->
  no_slash (list_ascii_of_string name) ->
  filepath.Base name = name.
Proof. intros Hne Hns. apply (Base_of_chars _ _ []); auto. Qed.

(** The number of a page does not depend on the directory the file is
    in: for a directory entry [name] (not empty, no slash, and neither [.]
    nor [..], which [filepath.Join] would clean away and which no directory
    listing holds) under any directory, the loop body of [ingestPages] does
    to the joined path what it does to [name] alone, digits in the names of
    the directories notwithstanding. *)
Theorem indexPage_ignores_directory (dir name : string) :
  name <> "" ->
  no_slash (list_ascii_of_string name) ->
  name <> "." -> name <> ".." ->
  indexPage (filepath.Join dir name)
  = match indexPage name with
    | Ok p => Ok {| filepath := filepath.Join dir name; number := number p;
                    tmpPath := tmpPath p |}
    | Error msg => Error msg
    | Panic msg => Panic msg
    end.
Proof.
  intros Hne Hns Hd Hdd. unfold indexPage.
  rewrite (Base_Join dir name Hne Hns Hd Hdd), (Base_name name Hne Hns).
  destruct (regexp.FindStringSubmatch pageNumberRegex name !! 1) as [m1|]; [|reflexivity].
  destruct (String.length m1 =? 0); [reflexivity|].
  destruct (strconv.Atoi m1); reflexivity.
Qed.

Lemma indexPage_ignores_directory_witness :
  "page7.jpg" <> ""
  /\ no_slash (list_ascii_of_string "page7.jpg")
  /\ "page7.jpg" <> "." /\ "page7.jpg" <> ".."
  /\ indexPage (filepath.Join "scans/2024/" "page7.jpg")
     = Ok {| filepath := "scans/2024/page7.jpg"; number := 7; tmpPath := "" |}.
Proof.
  assert (H1 : "page7.jpg" <> "") by discriminate.
  assert (H2 : no_slash (list_ascii_of_string "page7.jpg"))
    by (repeat constructor).
  assert (H3 : "page7.jpg" <> ".") by discriminate.
  assert (H4 : "page7.jpg" <> "..") by discriminate.
  split; [exact H1|]. split; [exact H2|]. split; [exact H3|]. split; [exact H4|].
  exact (indexPage_ignores_directory "scans/2024/" "page7.jpg" H1 H2 H3 H4).
Defined.

(** Why [.] is left out: [filepath.Join] cleans it away, and what is left is
    the name of the directory, digits and all. *)
Example indexPage_of_cleaned_dot :
  indexPage (filepath.Join "x1" ".")
  = Ok {| filepath := "x1"; number := 1; tmpPath := "" |}
  /\ (exists msg, indexPage "." = Panic msg).
Proof. split; [vm_compute; reflexivity|]. eexists. vm_compute. reflexivity. Qed.


Lemma substring_chars (s : string) : forall n m,
  list_ascii_of_string (substring n m s) = take m (drop n (list_ascii_of_string s)).
Proof.
  induction s as [|c s IH]; intros [|n] [|m]; cbn; try reflexivity.
  - now rewrite IH.
  - now rewrite IH.
  - now rewrite IH.
Qed.


Lemma Ext_loop_skip (path : string) (n k : nat) :
  (forall i, n <= i -> i < n + k ->
     exists c, list_ascii_of_string path !! i = Some c
               /\ filepath.IsPathSeparator c = false /\ Ascii.eqb c "." = false) ->
  filepath.Ext_loop path (n + k) = filepath.Ext_loop path n.
Proof.
  induction k as [|k IH]; intros Hk.
  - now rewrite Nat.add_0_r.
  - replace (n + S k) with (S (n + k)) by lia. cbn [filepath.Ext_loop].
    destruct (Hk (n + k)) as (c & Hc & Hs & Hd); [lia|lia|].
    rewrite get_list_ascii, Hc, Hs, Hd.
    apply IH. intros i H1 H2. apply Hk; lia.
Qed.

Lemma plain_lookup (pre r : list ascii) (x : ascii) (i : nat) :
  plain r -> length pre < i -> i < length pre + 1 + length r ->
  exists c, (pre ++ x :: r) !! i = Some c
            /\ filepath.IsPathSeparator c = false /\ Ascii.eqb c "." = false.
Proof.
  intros Hr H1 H2.
  destruct (r !! (i - S (length pre))) as [c|] eqn:Hc.
  - exists c. split.
    + rewrite lookup_app_r by lia.
      replace (i - length pre) with (S (i - S (length pre))) by lia. exact Hc.
    + exact (Forall_lookup_1 _ _ _ _ Hr Hc).
  - apply lookup_ge_None in Hc. lia.
Qed.

(** The extension of a path that ends in a dot and plain text. *)
Lemma Ext_dot (path : string) (pre r : list ascii) :
  list_ascii_of_string path = pre ++ "."%char :: r -> plain r ->
  filepath.Ext path = string_of_list_ascii ("."%char :: r).
Proof.
  intros Hp Hr. unfold filepath.Ext.
  assert (Hlen : String.length path = S (length pre) + length r).
  { rewrite <- length_list_ascii, Hp, length_app. cbn. lia. }
  rewrite Hlen, Ext_loop_skip.
  - cbn [filepath.Ext_loop]. rewrite get_list_ascii, Hp.
    rewrite lookup_app_r, Nat.sub_diag by lia. cbn [lookup list_lookup].
    cbn [filepath.IsPathSeparator Ascii.eqb]. cbn.
    change (String "." (string_of_list_ascii r))
      with (string_of_list_ascii ("."%char :: r)).
    apply string_of_chars_inj. rewrite substring_chars, Hp.
    rewrite drop_app_length. apply take_ge. cbn. lia.
  - intros i H1 H2. rewrite Hp. apply plain_lookup; [exact Hr|lia|lia].
Qed.

(** A path without a dot in its last element has no extension. *)
Lemma Ext_none (path : string) (pre r : list ascii) :
  list_ascii_of_string path = r
  \/ list_ascii_of_string path = pre ++ "/"%char :: r ->
  plain r ->
  filepath.Ext path = "".
Proof.
  intros [Hp|Hp] Hr; unfold filepath.Ext.
  - rewrite <- length_list_ascii, Hp.
    change (length r) with (0 + length r). rewrite Ext_loop_skip; [reflexivity|].
    intros i _ H2. rewrite Hp.
    destruct (r !! i) as [c|] eqn:Hc; [|apply lookup_ge_None in Hc; lia].
    exists c. split; [reflexivity|].
    exact (Forall_lookup_1 _ _ _ _ Hr Hc).
  - assert (Hlen : String.length path = S (length pre) + length r).
    { rewrite <- length_list_ascii, Hp, length_app. cbn. lia. }
    rewrite Hlen, Ext_loop_skip.
    + cbn [filepath.Ext_loop]. rewrite get_list_ascii, Hp.
      rewrite lookup_app_r, Nat.sub_diag by lia. reflexivity.
    + intros i H1 H2. rewrite Hp. apply plain_lookup; [exact Hr|lia|lia].
Qed.

(** Every text ends in plain text that follows a dot, a slash or nothing. *)
Lemma plain_suffix (l : list ascii) :
  plain l
  \/ (exists pre r, l = pre ++ "/"%char :: r /\ plain r)
  \/ (exists pre r, l = pre ++ "."%char :: r /\ plain r).
Proof.
  induction l as [|c l IH] using rev_ind.
  - left. constructor.
  - destruct (filepath.IsPathSeparator c) eqn:Hs.
    { right; left. exists l, []. split; [|constructor].
      apply Ascii.eqb_eq in Hs. now subst. }
    destruct (Ascii.eqb c ".") eqn:Hd.
    { right; right. exists l, []. split; [|constructor].
      apply Ascii.eqb_eq in Hd. now subst. }
    assert (Hc : plain [c]) by (repeat constructor; assumption).
    destruct IH as [IH | [(pre & r & -> & IH) | (pre & r & -> & IH)]].
    + left. apply Forall_app. split; assumption.
    + right; left. exists pre, (r ++ [c]). split.
      * now rewrite <- app_assoc.
      * apply Forall_app. split; assumption.
    + right; right. exists pre, (r ++ [c]). split.
      * now rewrite <- app_assoc.
      * apply Forall_app. split; assumption.
Qed.

Lemma Ext_shape (path : string) :
  filepath.Ext path = ""
  \/ exists pre r,
       list_ascii_of_string path = pre ++ "."%char :: r /\ plain r
       /\ filepath.Ext path = string_of_list_ascii ("."%char :: r).
Proof.
  destruct (plain_suffix (list_ascii_of_string path))
    as [H | [(pre & r & Hp & H) | (pre & r & Hp & H)]].
  - left. apply (Ext_none path [] (list_ascii_of_string path)); auto.
  - left. apply (Ext_none path pre r); auto.
  - right. exists pre, r. split; [exact Hp|]. split; [exact H|].
    apply (Ext_dot path pre r); auto.
Qed.

(** *** The walk over any tree *)

Lemma readable_errors (d : entry) :
  readable d = true <-> unreadable_errors d = [].
Proof.
  induction d as [n | n children IH | n e] using entry_ind; cbn [readable unreadable_errors].
  - tauto.
  - induction IH as [|d ds Hd _ IHds]; cbn [forallb flat_map]; [tauto|].
    rewrite andb_true_iff, Hd, IHds. split.
    + intros [-> ->]. reflexivity.
    + intros H. apply app_eq_nil in H. exact H.
  - split; discriminate.
Qed.

Lemma listable_length (d : entry) : forall path,
  length (listable d) = length (entries_under path d).
Proof.
  induction d as [nm | nm children IH | nm e] using entry_ind; intros path;
    cbn [listable entries_under length]; [reflexivity| |reflexivity].
  f_equal.
  induction IH as [|d ds Hd _ IHds]; cbn [flat_map]; [reflexivity|].
  rewrite !length_app, (Hd (filepath.Join path (entry_name d))). lia.
Qed.

Lemma listable_readable (d : entry) : forallb id (listable d) = readable d.
Proof.
  induction d as [nm | nm children IH | nm e] using entry_ind;
    cbn [listable readable forallb id andb]; [reflexivity| |reflexivity].
  induction IH as [|d ds Hd _ IHds]; cbn [flat_map forallb]; [reflexivity|].
  now rewrite forallb_app, Hd, IHds.
Qed.

Lemma through_first_false_spec (l : list bool) :
  forallb id l = false ->
  l !! (through_first_false l - 1) = Some false
  /\ forall i, i < through_first_false l - 1 -> l !! i = Some true.
Proof.
  induction l as [|b l IH]; cbn [forallb through_first_false]; [discriminate|].
  destruct b; cbn [id andb]; intros H.
  - destruct (IH H) as [Hf Ht]. clear IH.
    assert (Hpos : 0 < through_first_false l).
    { destruct l; [discriminate|]. cbn. lia. }
    replace (S (through_first_false l) - 1) with (S (through_first_false l - 1)) by lia.
    split; [exact Hf|]. intros [|i] Hi; [reflexivity|].
    cbn. apply Ht. lia.
  - split; [reflexivity|]. intros i Hi. cbn in Hi. lia.
Qed.

Lemma through_app_true (l1 l2 : list bool) :
  forallb id l1 = true ->
  through_first_false (l1 ++ l2) = length l1 + through_first_false l2.
Proof.
  induction l1 as [|b l1 IH]; cbn [forallb app through_first_false length]; [reflexivity|].
  intros H. apply andb_prop in H as [Hb H]. unfold id in Hb. subst b.
  now rewrite IH.
Qed.

Lemma through_app_false (l1 l2 : list bool) :
  forallb id l1 = false ->
  through_first_false (l1 ++ l2) = through_first_false l1.
Proof.
  induction l1 as [|b l1 IH]; cbn [forallb app through_first_false]; [discriminate|].
  destruct b; cbn [id andb]; [|reflexivity]. intros H. now rewrite IH.
Qed.

(** The walk visits the entries of the tree in order and stops at the first
    directory it cannot list. *)
Lemma walkDir_any (exts : list string) (d : entry) :
  forall path w,
  exists n,
    walkDir (walkFn exts) path d w =
    ({| sent := sent w
                ++ map fst (List.filter (accepted exts) (take n (entries_under path d)));
        skipped := skipped w
                   ++ map (fun e => "skipping: " +:+ fst e)
                        (List.filter (rejected exts) (take n (entries_under path d))) |},
     head (unreadable_errors d))
    /\ n <= length (entries_under path d)
    /\ (unreadable_errors d = [] -> n = length (entries_under path d))
    /\ n = reach d.
Proof.
  induction d as [nm | nm children IH | nm e] using entry_ind; intros path w.
  - exists 1. split; [|split; [cbn; lia|split; reflexivity]].
    cbn [walkDir entries_under IsDir walkFn List.filter accepted rejected fst snd negb andb
         take unreadable_errors head].
    destruct (slices.Contains exts (filepath.Ext path)); cbn;
      now rewrite ?app_nil_r.
  - cbn [walkDir entries_under IsDir walkFn unreadable_errors].
    assert (Hloop : forall w, exists n,
      (fix walk_children (ds : list entry) (st : walker) {struct ds} : walker * option string :=
         match ds with
         | [] => (st, None)
         | d1 :: ds' =>
             match walkDir (walkFn exts) (filepath.Join path (entry_name d1)) d1 st with
             | (st2, Some e) => (st2, Some e)
             | (st2, None) => walk_children ds' st2
             end
         end) children w
      = ({| sent := sent w
                    ++ map fst (List.filter (accepted exts)
                         (take n (flat_map (fun d1 => entries_under
                                    (filepath.Join path (entry_name d1)) d1) children)));
            skipped := skipped w
                       ++ map (fun e => "skipping: " +:+ fst e)
                            (List.filter (rejected exts)
                               (take n (flat_map (fun d1 => entries_under
                                          (filepath.Join path (entry_name d1)) d1) children))) |},
         head (flat_map unreadable_errors children))
      /\ n <= length (flat_map (fun d1 => entries_under
                                 (filepath.Join path (entry_name d1)) d1) children)
      /\ (flat_map unreadable_errors children = [] ->
          n = length (flat_map (fun d1 => entries_under
                                  (filepath.Join path (entry_name d1)) d1) children))
      /\ n = through_first_false (flat_map listable children)).
    { clear w. induction IH as [|d ds Hd _ IHds]; intros w.
      - exists 0. destruct w; cbn. now rewrite !app_nil_r.
      - destruct (Hd (filepath.Join path (entry_name d)) w) as (n1 & -> & Hn1 & Hall & Hreach).
        cbn [flat_map].
        destruct (unreadable_errors d) as [|e es] eqn:He.
        + cbn [head app]. specialize (Hall eq_refl). subst n1.
          match goal with
          | |- context [ (fix walk_children ds st {struct ds} := _) ds ?w1 ] =>
              destruct (IHds w1) as (n2 & -> & Hn2 & Hall2 & Hreach2)
          end.
          cbn [sent skipped].
          exists (length (entries_under (filepath.Join path (entry_name d)) d) + n2).
          rewrite take_app_add', firstn_all by reflexivity.
          split; [|split; [|split]].
          * now rewrite !List.filter_app, !map_app, <- !app_assoc.
          * rewrite length_app. lia.
          * intros Hnil. rewrite length_app, <- Hall2 by exact Hnil. reflexivity.
          * rewrite through_app_true, <- Hreach2.
            -- now rewrite (listable_length d (filepath.Join path (entry_name d))).
            -- rewrite listable_readable. now apply readable_errors.
        + cbn [head app]. exists n1.
          rewrite take_app_le by exact Hn1.
          split; [reflexivity|]. split; [rewrite length_app; lia|]. split; [discriminate|].
          rewrite through_app_false; [exact Hreach|].
          rewrite listable_readable. destruct (readable d) eqn:Hr; [|reflexivity].
          apply readable_errors in Hr. congruence. }
    destruct (Hloop w) as (n & -> & Hn & Hall & Hreach).
    exists (S n). cbn [take List.filter accepted rejected fst snd negb andb length].
    split; [reflexivity|]. split; [lia|]. split; [intros Hnil; now rewrite Hall|].
    unfold reach. cbn [listable through_first_false]. now rewrite Hreach.
  - exists 1. split; [|split; [cbn; lia|split; [discriminate|reflexivity]]].
    cbn. now rewrite !app_nil_r; destruct w.
Qed.

(** Whatever the tree under the search path is, the walk stops at the first
    directory that cannot be listed: the walker sends the accepted files and
    logs the other files among the entries up to that directory (the first
    [reach d] entries of the walk: all of them when every directory can be
    listed), nothing of what comes after it, and ends with that directory's
    error; it ends without an error exactly when every directory can be
    listed, and then it has gone through the whole tree. *)
Theorem walk_stops_at_first_unreadable (cfg : Config) (d : entry) :
  walkDirectorySearchPath cfg (Root d)
  = ({| sent :=
          map fst
            (List.filter (accepted (strings.Split (fileExtensions cfg) ","))
               (take (reach d) (entries_under (directorySearchPath cfg) d)));
        skipped :=
          map (fun e => "skipping: " +:+ fst e)
            (List.filter (rejected (strings.Split (fileExtensions cfg) ","))
               (take (reach d) (entries_under (directorySearchPath cfg) d))) |},
     head (unreadable_errors d))
  /\ length (listable d) = length (entries_under (directorySearchPath cfg) d)
  /\ (head (unreadable_errors d) = None <-> readable d = true)
  /\ (readable d = true -> reach d = length (entries_under (directorySearchPath cfg) d))
  /\ (readable d = false ->
      listable d !! (reach d - 1) = Some false
      /\ forall i, i < reach d - 1 -> listable d !! i = Some true).
Proof.
  unfold walkDirectorySearchPath, WalkDir.
  destruct (walkDir_any (strings.Split (fileExtensions cfg) ",") d
              (directorySearchPath cfg) {| sent := []; skipped := [] |})
    as (n & -> & Hn & Hall & ->).
  split; [reflexivity|]. split; [apply listable_length|].
  split; [rewrite readable_errors; destruct (unreadable_errors d); cbn; split; congruence|].
  split; [intros Hr; now apply Hall, readable_errors|].
  intros Hr. rewrite <- listable_readable in Hr. now apply through_first_false_spec.
Qed.

(** In [locked_tree] the walk reaches three entries, the directory that
    cannot be listed being the third: the page before it is sent, the page
    after it is not. *)
Example walk_of_locked_tree :
  reach locked_tree = 3
  /\ length (entries_under "scans" locked_tree) = 4
  /\ walkDirectorySearchPath example_cfg (Root locked_tree)
     = ({| sent := [ "scans/a1.jpg" ]; skipped := [] |},
        Some "open scans/private: permission denied").
Proof. repeat split; vm_compute; reflexivity. Qed.

Lemma Contains_elem (exts : list string) (v : string) :
  slices.Contains exts v = true -> In v exts.
Proof.
  unfold slices.Contains. rewrite existsb_exists.
  intros (x & Hin & Heq). apply String.eqb_eq in Heq. now subst.
Qed.

Lemma dotless_not_accepted (exts : list string) (e : string * bool) :
  Forall dotless exts -> accepted exts e = false.
Proof.
  intros Hall. unfold accepted.
  destruct (slices.Contains exts (filepath.Ext (fst e))) eqn:Hc;
    [|apply andb_false_r].
  exfalso. apply Contains_elem in Hc.
  rewrite List.Forall_forall in Hall. destruct (Hall _ Hc) as (c & rest & Heq & Hne).
  destruct (Ext_shape (fst e)) as [He | (pre & r & _ & _ & He)];
    rewrite He in Heq; [discriminate|].
  cbn in Heq. congruence.
Qed.

(** An extension of [-ext] written without its dot selects nothing: when no
    field of [fileExtensions] is empty or starts with a dot, the walker sends
    no path at all, whatever is under the search path. *)
Theorem walk_extension_needs_dot (cfg : Config) (fs : root) :
  Forall dotless (strings.Split (fileExtensions cfg) ",") ->
  sent (fst (walkDirectorySearchPath cfg fs)) = [].
Proof.
  intros Hall. unfold walkDirectorySearchPath, WalkDir.
  destruct fs as [e | d]; [reflexivity|].
  destruct (walkDir_any (strings.Split (fileExtensions cfg) ",") d
              (directorySearchPath cfg) {| sent := []; skipped := [] |})
    as (n & -> & _ & _).
  cbn [fst sent app].
  induction (take n (entries_under (directorySearchPath cfg) d)) as [|e l IH];
    [reflexivity|].
  cbn [List.filter]. now rewrite (dotless_not_accepted _ e Hall).
Qed.

Lemma walk_extension_needs_dot_witness :
  Forall dotless (strings.Split (fileExtensions dotless_cfg) ",")
  /\ walkDirectorySearchPath dotless_cfg (Root example_tree)
     = ({| sent := [];
           skipped := [ "skipping: scans/a3.jpg"; "skipping: scans/a1.jpg";
                        "skipping: scans/sub/a2.jpg"; "skipping: scans/sub/notes.txt";
                        "skipping: scans/b.JPG" ] |}, None)
  /\ sent (fst (walkDirectorySearchPath dotless_cfg (Root example_tree))) = [].
Proof.
  assert (H : Forall dotless (strings.Split (fileExtensions dotless_cfg) ",")).
  { repeat constructor.
    - exists "j"%char, "pg". split; [reflexivity|discriminate].
    - exists "j"%char, "peg". split; [reflexivity|discriminate]. }
  split; [exact H|]. split; [vm_compute; reflexivity|].
  exact (walk_extension_needs_dot dotless_cfg (Root example_tree) H).
Defined.

Lemma indexPage_outcome (path : string) :
  (exists p, indexPage path = Ok p) \/ (exists msg, indexPage path = Panic msg).
Proof.
  unfold indexPage.
  destruct (regexp_facts.FindStringSubmatch_shape (filepath.Base path))
    as [-> | (whole & c & -> & Hd)]; [right; eexists; reflexivity|].
  cbn [lookup list_lookup]. rewrite digit_nonempty.
  destruct (Atoi_digit c Hd) as (n & -> & Hn). left. eexists; reflexivity.
Qed.

Lemma ingest_loop_outcome (paths : list string) :
  forall acc out,
  Forall is_print out ->
  exists out', Forall is_print out'
    /\ ((exists pages, ingest_loop paths acc out = (Ok pages, out'))
        \/ (exists msg, ingest_loop paths acc out = (Panic msg, out'))).
Proof.
  induction paths as [|path paths IH]; intros acc out Hout; cbn [ingest_loop].
  - exists out. split; [exact Hout|]. left. eexists; reflexivity.
  - destruct (indexPage_outcome path) as [[p ->] | [msg ->]].
    + apply IH. apply Forall_app. split; [exact Hout|].
      repeat constructor. eexists; reflexivity.
    + exists out. split; [exact Hout|]. right. eexists; reflexivity.
Qed.

Lemma map_Println_prints (lines : list string) : Forall is_print (map Println lines).
Proof. induction lines; constructor; auto. eexists; reflexivity. Qed.

Lemma walk_fails_error (cfg : Config) (fs : root) :
  walk_fails fs -> exists e, snd (walkDirectorySearchPath cfg fs) = Some e.
Proof.
  unfold walkDirectorySearchPath, WalkDir. destruct fs as [e | d]; cbn [walk_fails].
  - intros _. exists e. reflexivity.
  - intros Hr.
    destruct (walkDir_any (strings.Split (fileExtensions cfg) ",") d
                (directorySearchPath cfg) {| sent := []; skipped := [] |})
      as (n & -> & _ & _).
    cbn [snd]. destruct (unreadable_errors d) as [|e es] eqn:He.
    + apply readable_errors in He. congruence.
    + exists e. reflexivity.
Qed.

(** When the search path is missing, or a directory under it cannot be
    listed, the run ends in a panic, whatever the tools would answer and
    however the goroutines are scheduled; all it has done by then is print:
    no directory or file was made, no command run, nothing removed. *)
Theorem main_walk_failure_crashes (env : Env) (cfg : Config) (fs : root)
    (sched : list thread) :
  has_paths cfg ->
  walk_fails fs ->
  exists msg t, main env cfg fs sched = Crashed msg t /\ Forall is_print t.
Proof.
  intros Hp Hf. unfold main. unfold has_paths in Hp. rewrite Hp.
  destruct (walk_fails_error cfg fs Hf) as [e He].
  unfold ingestPages.
  destruct (walkDirectorySearchPath cfg fs) as [w err]. cbn [snd] in He. subst err.
  destruct (ingest_loop_outcome (sent w) [] (map Println (skipped w))
              (map_Println_prints _))
    as (out & Hout & [[pages ->] | [msg ->]]).
  - exists e, out. split; [reflexivity|exact Hout].
  - exists msg, out. split; [reflexivity|exact Hout].
Qed.

Lemma main_walk_failure_crashes_witness :
  has_paths example_cfg
  /\ walk_fails (Root locked_tree)
  /\ main env_ok example_cfg (Root locked_tree) [ Main; Main ]
     = Crashed "open scans/private: permission denied"
         [ Println "found page: scans/a1.jpg" ]
  /\ exists msg t,
       main env_ok example_cfg (Root locked_tree) [ Main; Main ] = Crashed msg t
       /\ Forall is_print t.
Proof.
  assert (H1 : has_paths example_cfg) by reflexivity.
  assert (H2 : walk_fails (Root locked_tree)) by reflexivity.
  split; [exact H1|]. split; [exact H2|]. split; [vm_compute; reflexivity|].
  exact (main_walk_failure_crashes env_ok example_cfg (Root locked_tree) [ Main; Main ] H1 H2).
Defined.

(** *** The list of accepted extensions *)

Lemma Split_cons (s : string) (sep : ascii) :
  exists f fs, strings.Split s sep = f :: fs.
Proof.
  induction s as [|c s (f & fs & IH)]; cbn [strings.Split]; [eauto|].
  destruct (Ascii.eqb c sep); [eauto|]. rewrite IH. eauto.
Qed.

(** The accepted extensions are the fields of [-ext] between its commas:
    [strings.Split] always returns at least one field (the empty one for the
    empty string), no field holds the separator, and the fields with the
    separator put back between them are the string that was split. *)
Theorem Split_fields (s : string) (sep : ascii) :
  strings.Split s sep <> []
  /\ Forall (sep_free sep) (strings.Split s sep)
  /\ joined sep (strings.Split s sep) = s.
Proof.
  induction s as [|c s (Hne & Hfree & Hjoin)]; cbn [strings.Split].
  - split; [discriminate|]. split; [|reflexivity]. repeat constructor.
  - destruct (Split_cons s sep) as (f & fs & Hs). rewrite Hs in *.
    destruct (Ascii.eqb c sep) eqn:Hc.
    + apply Ascii.eqb_eq in Hc. subst c.
      split; [discriminate|]. split.
      * constructor; [constructor|exact Hfree].
      * change (joined sep ("" :: f :: fs)) with (String sep (joined sep (f :: fs))).
        now rewrite Hjoin.
    + split; [discriminate|]. apply Forall_cons in Hfree as [Hf Hfs]. split.
      * constructor; [|exact Hfs]. constructor; assumption.
      * destruct fs as [|g fs].
        -- cbn [joined] in *. now rewrite Hjoin.
        -- change (joined sep (String c f :: g :: fs))
             with (String c (joined sep (f :: g :: fs))).
           now rewrite Hjoin.
Qed.

(** Conversely, fields that do not hold the separator are read back as they
    were joined: [strings.Split] undoes the joining of any non-empty list
    of such fields, the empty field and repeated fields included. *)
Theorem Split_joined (sep : ascii) (fields : list string) :
  fields <> [] ->
  Forall (sep_free sep) fields ->
  strings.Split (joined sep fields) sep = fields.
Proof.
  intros Hne Hall. induction fields as [|f fs IH]; [congruence|].
  inversion Hall as [|? ? Hf Hfs]; subst.
  assert (Hone : forall rest, strings.Split (f +:+ String sep rest) sep
                              = f :: strings.Split rest sep).
  { intros rest. unfold sep_free in Hf. clear -Hf.
    induction f as [|c f IHf]; cbn [list_ascii_of_string] in Hf.
    - change ("" +:+ String sep rest) with (String sep rest).
      cbn [strings.Split]. now rewrite Ascii.eqb_refl.
    - change (String c f +:+ String sep rest) with (String c (f +:+ String sep rest)).
      apply Forall_cons in Hf as [Hc Hf'].
      cbn [strings.Split]. rewrite Hc, (IHf Hf'). reflexivity. }
  destruct fs as [|g fs].
  - cbn [joined]. unfold sep_free in Hf. clear -Hf.
    induction f as [|c f IHf]; cbn [strings.Split list_ascii_of_string] in *; [reflexivity|].
    apply Forall_cons in Hf as [Hc Hf']. now rewrite Hc, (IHf Hf').
  - change (joined sep (f :: g :: fs)) with (f +:+ String sep (joined sep (g :: fs))).
    rewrite Hone, IH; [reflexivity|discriminate|exact Hfs].
Qed.

Lemma Split_joined_witness :
  [ ".jpg"; ""; ".jpeg" ] <> []
  /\ Forall (sep_free ",") [ ".jpg"; ""; ".jpeg" ]
  /\ joined "," [ ".jpg"; ""; ".jpeg" ] = ".jpg,,.jpeg"
  /\ strings.Split (joined "," [ ".jpg"; ""; ".jpeg" ]) "," = [ ".jpg"; ""; ".jpeg" ].
Proof.
  assert (H1 : [ ".jpg"; ""; ".jpeg" ] <> []) by discriminate.
  assert (H2 : Forall (sep_free ",") [ ".jpg"; ""; ".jpeg" ]) by (repeat constructor).
  split; [exact H1|]. split; [exact H2|]. split; [reflexivity|].
  exact (Split_joined "," [ ".jpg"; ""; ".jpeg" ] H1 H2).
Defined.

(** *** The dispatcher under every schedule *)

Lemma dispatch_step_of (env : Env) (cfg : Config) (who : thread) (s s' : dispatch) :
  dispatch_step env cfg who s = Some s' -> step_of env cfg s who s'.
Proof.
  destruct who as [|i]; cbn [dispatch_step].
  - destruct (d_main s) as [k| |] eqn:Hm; [| |discriminate].
    + destruct (k <? length (d_pages s)) eqn:Hk; intros [= <-].
      * apply Nat.ltb_lt in Hk. now apply step_spawn.
      * apply Nat.ltb_ge in Hk. now apply step_wait with (k := k).
    + destruct (d_wg s =? 0)%Z eqn:Hz; [|discriminate]. intros [= <-].
      apply Z.eqb_eq in Hz. now apply step_return.
  - destruct (d_tasks s !! i) as [[c|]|] eqn:Hti; try discriminate.
    destruct (d_pages s !! i) as [p|] eqn:Hpi; try discriminate.
    destruct (task_step env cfg c p) as [[c' p'] t] eqn:Hstep.
    assert (Hcase : c = pcExit \/ c = pcDone \/ (c <> pcDone /\ c <> pcExit))
      by (destruct c; auto; right; right; split; discriminate).
    destruct Hcase as [-> | [-> | [Hnd Hne]]]; [discriminate| |].
    + intros [= <-]. now apply step_done with (p := p).
    + intros Heq.
      assert (Hs : s' = {| d_pages := <[i := p']> (d_pages s);
                           d_tasks := <[i := Some c']> (d_tasks s);
                           d_wg := d_wg s; d_main := d_main s;
                           d_trace := d_trace s ++ t |})
        by (destruct c; congruence).
      subst s'. now apply step_work with (c := c) (p := p).
Qed.

Lemma step_of_dispatch (env : Env) (cfg : Config) (who : thread) (s s' : dispatch) :
  step_of env cfg s who s' -> dispatch_step env cfg who s = Some s'.
Proof.
  intros [k Hm Hk | k Hm Hk | Hm Hz | i p Ht Hp | i c c' p p' t Ht Hp Hnd Hne Hstep];
    cbn [dispatch_step].
  - rewrite Hm. apply Nat.ltb_lt in Hk. now rewrite Hk.
  - rewrite Hm. apply Nat.ltb_ge in Hk. now rewrite Hk.
  - rewrite Hm. apply Z.eqb_eq in Hz. now rewrite Hz.
  - now rewrite Ht, Hp.
  - rewrite Ht, Hp, Hstep. destruct c; congruence.
Qed.

Lemma sum_list_insert (l : list (option pc)) (i : nat) (x y : option pc) :
  l !! i = Some x ->
  sum_list (map task_left (<[i := y]> l)) + task_left x
  = sum_list (map task_left l) + task_left y.
Proof.
  revert i; induction l as [|a l IH]; intros [|i]; cbn -[task_left]; try discriminate.
  - intros [= ->]. lia.
  - intros Hi. specialize (IH i Hi). unfold insert in *. lia.
Qed.

Lemma task_step_left (env : Env) (cfg : Config) (c c' : pc) (p p' : page) (t : trace) :
  c <> pcDone -> c <> pcExit ->
  task_step env cfg c p = (c', p', t) ->
  task_left (Some c') < task_left (Some c).
Proof.
  intros Hnd Hne. destruct c; try congruence; cbn [task_step].
  - destruct (createTempFile env cfg p) as [[p1 [e|]] t1]; intros [= <- <- <-]; cbn; lia.
  - destruct (convert env cfg p) as [[e|] t2]; [intros [= <- <- <-]; cbn; lia|].
    destruct (watermark_enabled cfg); intros [= <- <- <-]; cbn; lia.
  - destruct (watermark env cfg p) as [e t3]. intros [= <- <- <-]; cbn; lia.
  - intros [= <- <- <-]; cbn; lia.
Qed.

(** Every move uses up one of the steps that are left. *)
Lemma step_of_left (env : Env) (cfg : Config) (pages0 : list page) (who : thread)
    (s s' : dispatch) :
  dispatch_inv env cfg pages0 s ->
  step_of env cfg s who s' ->
  steps_left s' < steps_left s.
Proof.
  intros Hinv Hstep. unfold steps_left.
  destruct Hstep as [k Hm Hk | k Hm Hk | Hm Hz | i p Ht Hp | i c c' p p' t Ht Hp Hnd Hne Hstep];
    cbn [d_pages d_tasks d_main]; rewrite ?Hm; cbn [main_left]; rewrite ?length_insert.
  - assert (Hnone : d_tasks s !! k = Some None).
    { apply (inv_spawn _ _ _ _ Hinv k k Hm); [lia|].
      now rewrite <- (inv_len_pages _ _ _ _ Hinv). }
    pose proof (sum_list_insert _ _ _ (Some pcCreateTemp) Hnone) as Hs. cbn in Hs. lia.
  - lia.
  - lia.
  - pose proof (sum_list_insert _ _ _ (Some pcExit) Ht) as Hs. cbn in Hs. lia.
  - pose proof (sum_list_insert _ _ _ (Some c') Ht) as Hs.
    pose proof (task_step_left _ _ _ _ _ _ _ Hnd Hne Hstep). lia.
Qed.

Lemma dispatch_run_left (env : Env) (cfg : Config) (pages0 : list page)
    (sched : list thread) : forall s s',
  dispatch_inv env cfg pages0 s ->
  dispatch_run env cfg sched s = Some s' ->
  length sched + steps_left s' <= steps_left s.
Proof.
  induction sched as [|who sched IH]; intros s s' Hinv; cbn [dispatch_run length].
  - intros [= <-]. lia.
  - destruct (dispatch_step env cfg who s) as [s1|] eqn:Hs; [|discriminate].
    intros Hrun.
    pose proof (step_of_left _ _ _ _ _ _ Hinv (dispatch_step_of _ _ _ _ _ Hs)).
    pose proof (IH s1 s' (dispatch_step_inv _ _ _ _ _ _ Hinv Hs) Hrun). lia.
Qed.

Lemma sum_list_replicate (n : nat) :
  sum_list (map task_left (replicate n None)) = 5 * n.
Proof. induction n as [|n IH]; cbn; [reflexivity|]. cbn in IH. lia. Qed.

(** The steps of [genProcessedPages] are bounded: over [n] pages no schedule
    takes more than [6 n + 2] steps ([n + 2] of the function itself, at most
    five of every goroutine), each external command counting as one step of
    the goroutine that runs it.  So in a run in which every command that is
    started comes back (the runs an [Env] describes) the function cannot go
    on for ever; how long a command takes, and a command that never returns,
    are outside the statement. *)
Theorem genProcessedPages_step_bound (env : Env) (cfg : Config) (pages : list page)
    (sched : list thread) (s : dispatch) :
  dispatch_run env cfg sched (dispatch_init pages) = Some s ->
  length sched <= 6 * length pages + 2.
Proof.
  intros Hrun.
  pose proof (dispatch_run_left env cfg pages sched _ _ (dispatch_init_inv env cfg pages) Hrun)
    as Hle.
  unfold steps_left at 2 in Hle.
  cbn [dispatch_init d_pages d_tasks d_main main_left] in Hle.
  rewrite sum_list_replicate in Hle. lia.
Qed.

Lemma genProcessedPages_step_bound_witness :
  exists s,
    dispatch_run env_ok example_cfg barrier_schedule (dispatch_init [ page_a1; page_a1 ])
    = Some s
    /\ length barrier_schedule <= 6 * length [ page_a1; page_a1 ] + 2.
Proof.
  eexists. split; [vm_compute; reflexivity|].
  eapply (genProcessedPages_step_bound env_ok example_cfg [ page_a1; page_a1 ]).
  vm_compute. reflexivity.
Defined.

Lemma unstarted_init (pages : list page) : unstarted_inv (dispatch_init pages).
Proof. intros i _. exists 0. split; [reflexivity|lia]. Qed.

Lemma unstarted_step (env : Env) (cfg : Config) (pages0 : list page) (who : thread)
    (s s' : dispatch) :
  dispatch_inv env cfg pages0 s -> unstarted_inv s ->
  step_of env cfg s who s' -> unstarted_inv s'.
Proof.
  intros Hinv Hun Hstep i.
  destruct Hstep as [k Hm Hk | k Hm Hk | Hm Hz | j p Ht Hp | j c c' p p' t Ht Hp Hnd Hne Hstep];
    cbn [d_tasks d_main].
  - intros Hi. destruct (decide (k = i)) as [->|Hne].
    + rewrite list_lookup_insert_eq in Hi; [discriminate|].
      rewrite (inv_len_tasks _ _ _ _ Hinv), <- (inv_len_pages _ _ _ _ Hinv). exact Hk.
    + rewrite list_lookup_insert_ne in Hi by assumption.
      destruct (Hun i Hi) as (k0 & Hk0 & Hle). rewrite Hm in Hk0. injection Hk0 as <-.
      exists (S k). split; [reflexivity|lia].
  - intros Hi. exfalso. destruct (Hun i Hi) as (k0 & Hk0 & Hle).
    rewrite Hm in Hk0. injection Hk0 as <-.
    apply lookup_lt_Some in Hi.
    rewrite (inv_len_tasks _ _ _ _ Hinv), <- (inv_len_pages _ _ _ _ Hinv) in Hi. lia.
  - intros Hi. destruct (Hun i Hi) as (k0 & Hk0 & _). congruence.
  - intros Hi. destruct (decide (j = i)) as [->|Hne].
    + rewrite list_lookup_insert_eq in Hi; [discriminate|]. eapply lookup_lt_Some; eauto.
    + rewrite list_lookup_insert_ne in Hi by assumption. auto.
  - intros Hi. destruct (decide (j = i)) as [->|Hji].
    + rewrite list_lookup_insert_eq in Hi; [discriminate|]. eapply lookup_lt_Some; eauto.
    + rewrite list_lookup_insert_ne in Hi by assumption. auto.
Qed.

Lemma unstarted_run (env : Env) (cfg : Config) (pages0 : list page)
    (sched : list thread) : forall s s',
  dispatch_inv env cfg pages0 s -> unstarted_inv s ->
  dispatch_run env cfg sched s = Some s' -> unstarted_inv s'.
Proof.
  induction sched as [|who sched IH]; intros s s' Hinv Hun; cbn [dispatch_run].
  - now intros [= <-].
  - destruct (dispatch_step env cfg who s) as [s1|] eqn:Hs; [|discriminate].
    apply IH.
    + eapply dispatch_step_inv; eauto.
    + eapply unstarted_step; eauto using dispatch_step_of.
Qed.

Lemma pending_positive (tasks : list (option pc)) :
  0 < pending tasks -> exists i t, tasks !! i = Some t /\ is_exit t = false.
Proof.
  unfold pending. induction tasks as [|a tasks IH]; cbn; [lia|].
  destruct (is_exit a) eqn:Ha; cbn.
  - intros H. destruct (IH H) as (i & t & Hi & Ht). exists (S i), t. auto.
  - intros _. exists 0, a. auto.
Qed.

(** [genProcessedPages] cannot deadlock: in every state that a schedule can
    reach and in which the function has not returned, some thread can move. *)
Theorem genProcessedPages_no_deadlock (env : Env) (cfg : Config) (pages : list page)
    (sched : list thread) (s : dispatch) :
  dispatch_run env cfg sched (dispatch_init pages) = Some s ->
  d_main s <> mReturned ->
  exists who s', dispatch_step env cfg who s = Some s'.
Proof.
  intros Hrun Hnot.
  pose proof (dispatch_run_inv _ _ _ _ _ _ (dispatch_init_inv env cfg pages) Hrun) as Hinv.
  pose proof (unstarted_run _ _ _ _ _ _ (dispatch_init_inv env cfg pages)
                (unstarted_init pages) Hrun) as Hun.
  destruct (d_main s) as [k| |] eqn:Hm; [| |congruence].
  - exists Main. cbn [dispatch_step]. rewrite Hm.
    destruct (k <? length (d_pages s)); eexists; reflexivity.
  - destruct (Z.eq_dec (d_wg s) 0%Z) as [Hz|Hz].
    + exists Main. cbn [dispatch_step]. rewrite Hm, Hz. eexists; reflexivity.
    + destruct (pending_positive (d_tasks s)) as (i & t & Hi & Ht).
      { pose proof (inv_wg _ _ _ _ Hinv). lia. }
      destruct t as [c|]; [|destruct (Hun i Hi) as (k & Hk & _); congruence].
      destruct (lookup_lt_is_Some_2 (d_pages s) i) as [p Hp].
      { rewrite (inv_len_pages _ _ _ _ Hinv), <- (inv_len_tasks _ _ _ _ Hinv).
        eapply lookup_lt_Some; eauto. }
      exists (Task i). cbn [dispatch_step]. rewrite Hi, Hp.
      destruct (task_step env cfg c p) as [[c' p'] t'].
      destruct c; try (eexists; reflexivity). discriminate.
Qed.

Lemma genProcessedPages_no_deadlock_witness :
  exists s,
    dispatch_run env_ok example_cfg [ Main; Task 0; Main; Main ]
      (dispatch_init [ page_a1; page_a1 ]) = Some s
    /\ d_main s <> mReturned
    /\ exists who s', dispatch_step env_ok example_cfg who s = Some s'.
Proof.
  eexists. split; [vm_compute; reflexivity|]. split; [discriminate|].
  eapply (genProcessedPages_no_deadlock env_ok example_cfg [ page_a1; page_a1 ]
            [ Main; Task 0; Main; Main ]).
  - vm_compute. reflexivity.
  - discriminate.
Defined.

(** The counter of the [sync.WaitGroup] is, at every point of every
    schedule, the number of goroutines that have not yet run [wg.Done()]: it
    never falls below zero (where [wg.Done()] would panic) and never exceeds
    the number of pages. *)
Theorem WaitGroup_counts_pending (env : Env) (cfg : Config) (pages : list page)
    (sched : list thread) (s : dispatch) :
  dispatch_run env cfg sched (dispatch_init pages) = Some s ->
  d_wg s = Z.of_nat (pending (d_tasks s))
  /\ (0 <= d_wg s <= Z.of_nat (length pages))%Z.
Proof.
  intros Hrun.
  pose proof (dispatch_run_inv _ _ _ _ _ _ (dispatch_init_inv env cfg pages) Hrun) as Hinv.
  pose proof (inv_wg _ _ _ _ Hinv) as Hwg. split; [exact Hwg|].
  rewrite Hwg. split; [lia|]. apply inj_le.
  rewrite <- (inv_len_tasks _ _ _ _ Hinv). unfold pending. apply List.filter_length_le.
Qed.

Lemma WaitGroup_counts_pending_witness :
  exists s,
    dispatch_run env_ok example_cfg [ Main; Task 0; Main; Main ]
      (dispatch_init [ page_a1; page_a1 ]) = Some s
    /\ d_wg s = 2%Z
    /\ d_wg s = Z.of_nat (pending (d_tasks s))
    /\ (0 <= d_wg s <= Z.of_nat (length [ page_a1; page_a1 ]))%Z.
Proof.
  eexists. split; [vm_compute; reflexivity|]. split; [reflexivity|].
  eapply (WaitGroup_counts_pending env_ok example_cfg [ page_a1; page_a1 ]
            [ Main; Task 0; Main; Main ]).
  vm_compute. reflexivity.
Defined.

(** *** The effects of the goroutines, interleaved *)

Lemma task_rest_step (env : Env) (cfg : Config) (c c' : pc) (p p' : page) (t : trace) :
  c <> pcDone -> c <> pcExit ->
  task_step env cfg c p = (c', p', t) ->
  task_rest env cfg (Some c) p = t ++ task_rest env cfg (Some c') p'.
Proof.
  intros Hnd Hne. destruct c; try congruence; cbn [task_step task_rest].
  - unfold page_events, generate.
    destruct (createTempFile env cfg p) as [[p1 [e|]] t1]; intros [= <- <- <-];
      cbn [task_rest]; [reflexivity|].
    unfold rest_convert.
    destruct (convert env cfg p1) as [[e|] t2]; [now rewrite <- app_assoc|].
    destruct (watermark_enabled cfg); [|now rewrite <- app_assoc].
    unfold rest_watermark. destruct (watermark env cfg p1) as [e3 t3].
    now rewrite <- !app_assoc.
  - unfold rest_convert.
    destruct (convert env cfg p) as [[e|] t2]; [intros [= <- <- <-]; reflexivity|].
    destruct (watermark_enabled cfg); intros [= <- <- <-]; reflexivity.
  - unfold rest_watermark. destruct (watermark env cfg p) as [e3 t3].
    intros [= <- <- <-]; reflexivity.
  - intros [= <- <- <-]. cbn [task_rest]. now rewrite app_nil_r.
Qed.

Lemma interleaving_prefix {A : Type} (t : list A) : forall (ls : list (list A)) i l r,
  ls !! i = Some (t ++ l) ->
  interleaving (<[i := l]> ls) r ->
  interleaving ls (t ++ r).
Proof.
  induction t as [|x t IH]; intros ls i l r Hi Hr; cbn [app] in *.
  - now rewrite list_insert_id in Hr.
  - apply interleaving_cons with (i := i) (l := t ++ l); [exact Hi|].
    apply (IH _ i l).
    + apply list_lookup_insert_eq. eapply lookup_lt_Some; eauto.
    + now rewrite list_insert_insert_eq.
Qed.

Lemma In_lookup {A : Type} (l : list A) (x : A) :
  In x l <-> exists i, l !! i = Some x.
Proof. rewrite <- list_elem_of_In. apply list_elem_of_lookup. Qed.

Lemma interleaving_In {A : Type} (ls : list (list A)) (t : list A) :
  interleaving ls t ->
  forall x, In x t <-> exists l, In l ls /\ In x l.
Proof.
  induction 1 as [ls Hnil | ls i y l t Hi Ht IH]; intros x.
  - split; [intros []|]. intros (l & Hl & Hx).
    rewrite List.Forall_forall in Hnil. rewrite (Hnil l Hl) in Hx. destruct Hx.
  - assert (Hlt : i < length ls) by (eapply lookup_lt_Some; eauto).
    cbn [In]. rewrite IH. split.
    + intros [<- | (l' & Hl' & Hx)].
      * exists (y :: l). split; [|now left]. apply In_lookup. eauto.
      * apply In_lookup in Hl' as [j Hj].
        destruct (decide (i = j)) as [->|Hne].
        -- rewrite list_lookup_insert_eq in Hj by exact Hlt.
           injection Hj as <-. exists (y :: l). split; [|now right].
           apply In_lookup. eauto.
        -- rewrite list_lookup_insert_ne in Hj by assumption.
           exists l'. split; [|exact Hx]. apply In_lookup. eauto.
    + intros (l' & Hl' & Hx).
      apply In_lookup in Hl' as [j Hj].
      destruct (decide (i = j)) as [->|Hne].
      * rewrite Hi in Hj. injection Hj as <-. destruct Hx as [-> | Hx]; [now left|].
        right. exists l. split; [|exact Hx]. apply In_lookup. exists j.
        now apply list_lookup_insert_eq.
      * right. exists l'. split; [|exact Hx]. apply In_lookup. exists j.
        now rewrite list_lookup_insert_ne by assumption.
Qed.

Lemma rests_init (env : Env) (cfg : Config) (pages : list page) :
  rests env cfg (dispatch_init pages) = map (page_events env cfg) pages.
Proof.
  unfold rests. cbn [dispatch_init d_tasks d_pages].
  now rewrite zip_with_replicate_l by reflexivity.
Qed.

Lemma rests_lookup (env : Env) (cfg : Config) (s : dispatch) (i : nat)
    (t : option pc) (p : page) :
  d_tasks s !! i = Some t -> d_pages s !! i = Some p ->
  rests env cfg s !! i = Some (task_rest env cfg t p).
Proof. intros Ht Hp. unfold rests. now rewrite lookup_zip_with, Ht, Hp. Qed.

(** A goroutine whose counter moves without an effect has the same rest. *)
Lemma rests_same (env : Env) (cfg : Config) (s : dispatch) (i : nat)
    (t t' : option pc) (p : page) :
  d_tasks s !! i = Some t -> d_pages s !! i = Some p ->
  task_rest env cfg t' p = task_rest env cfg t p ->
  zip_with (task_rest env cfg) (<[i := t']> (d_tasks s)) (d_pages s) = rests env cfg s.
Proof.
  intros Ht Hp Heq.
  rewrite <- (list_insert_id (d_pages s) i p) at 1 by exact Hp.
  rewrite <- insert_zip_with, Heq.
  apply list_insert_id. now apply rests_lookup.
Qed.

(** A move adds to the trace the first part of what one goroutine had left. *)
Lemma step_of_trace (env : Env) (cfg : Config) (pages0 : list page) (who : thread)
    (s s' : dispatch) :
  dispatch_inv env cfg pages0 s ->
  step_of env cfg s who s' ->
  exists t, d_trace s' = d_trace s ++ t
            /\ forall r, interleaving (rests env cfg s') r ->
                         interleaving (rests env cfg s) (t ++ r).
Proof.
  intros Hinv Hstep.
  destruct Hstep as [k Hm Hk | k Hm Hk | Hm Hz | i p Ht Hp | i c c' p p' t Ht Hp Hnd Hne Hstep].
  - exists []. split; [cbn; now rewrite app_nil_r|]. intros r.
    assert (Hnone : d_tasks s !! k = Some None).
    { apply (inv_spawn _ _ _ _ Hinv k k Hm); [lia|].
      now rewrite <- (inv_len_pages _ _ _ _ Hinv). }
    destruct (lookup_lt_is_Some_2 (d_pages s) k Hk) as [p Hp].
    unfold rests at 1. cbn [d_tasks d_pages app].
    now rewrite (rests_same env cfg s k None (Some pcCreateTemp) p Hnone Hp).
  - exists []. split; [cbn; now rewrite app_nil_r|]. intros r Hr. exact Hr.
  - exists []. split; [cbn; now rewrite app_nil_r|]. intros r Hr. exact Hr.
  - exists []. split; [cbn; now rewrite app_nil_r|]. intros r.
    unfold rests at 1. cbn [d_tasks d_pages app].
    now rewrite (rests_same env cfg s i (Some pcDone) (Some pcExit) p Ht Hp).
  - exists t. split; [reflexivity|]. intros r.
    unfold rests at 1. cbn [d_tasks d_pages].
    rewrite <- insert_zip_with. fold (rests env cfg s). intros Hr.
    apply (interleaving_prefix t _ i (task_rest env cfg (Some c') p')); [|exact Hr].
    rewrite <- (task_rest_step _ _ _ _ _ _ _ Hnd Hne Hstep).
    exact (rests_lookup env cfg s i (Some c) p Ht Hp).
Qed.

Lemma dispatch_run_trace (env : Env) (cfg : Config) (pages0 : list page)
    (sched : list thread) : forall s s',
  dispatch_inv env cfg pages0 s ->
  dispatch_run env cfg sched s = Some s' ->
  exists t, d_trace s' = d_trace s ++ t
            /\ forall r, interleaving (rests env cfg s') r ->
                         interleaving (rests env cfg s) (t ++ r).
Proof.
  induction sched as [|who sched IH]; intros s s' Hinv; cbn [dispatch_run].
  - intros [= <-]. exists []. split; [now rewrite app_nil_r|]. intros r Hr. exact Hr.
  - destruct (dispatch_step env cfg who s) as [s1|] eqn:Hs; [|discriminate].
    intros Hrun.
    destruct (step_of_trace _ _ _ _ _ _ Hinv (dispatch_step_of _ _ _ _ _ Hs))
      as (t1 & Ht1 & H1).
    destruct (IH s1 s' (dispatch_step_inv _ _ _ _ _ _ Hinv Hs) Hrun) as (t2 & Ht2 & H2).
    exists (t1 ++ t2). split; [now rewrite Ht2, Ht1, app_assoc|].
    intros r Hr. rewrite <- app_assoc. apply H1, H2, Hr.
Qed.

Lemma rests_all_exit (env : Env) (cfg : Config) (pages0 : list page) (s : dispatch) :
  dispatch_inv env cfg pages0 s -> d_main s = mReturned ->
  Forall (fun l => l = []) (rests env cfg s).
Proof.
  intros Hinv Hm. apply List.Forall_forall. intros l Hl.
  apply In_lookup in Hl as [i Hi]. unfold rests in Hi.
  apply lookup_zip_with_Some in Hi as (t & p & -> & Ht & Hp).
  rewrite (returned_all_exit _ _ _ _ Hinv Hm i) in Ht.
  - now injection Ht as <-.
  - rewrite <- (inv_len_tasks _ _ _ _ Hinv). eapply lookup_lt_Some; eauto.
Qed.

(** What a returned run of the dispatcher has done is an interleaving of
    what the goroutines of the pages do. *)
Lemma genProcessedPages_trace (env : Env) (cfg : Config) (pages pages' : list page)
    (sched : list thread) (t : trace) :
  genProcessedPages env cfg pages sched = Some (pages', t) ->
  interleaving (map (page_events env cfg) pages) t.
Proof.
  unfold genProcessedPages.
  destruct (dispatch_run env cfg sched (dispatch_init pages)) as [s|] eqn:Hrun;
    [|discriminate].
  destruct (d_main s) eqn:Hm; try discriminate. intros [= <- <-].
  pose proof (dispatch_run_inv _ _ _ _ _ _ (dispatch_init_inv env cfg pages) Hrun) as Hinv.
  destruct (dispatch_run_trace _ _ _ _ _ _ (dispatch_init_inv env cfg pages) Hrun)
    as (t & Ht & H).
  cbn [dispatch_init d_trace app] in Ht. rewrite Ht.
  rewrite <- (app_nil_r t), <- rests_init. apply H.
  apply interleaving_nil. eapply rests_all_exit; eauto.
Qed.

Lemma concat_insert_Permutation {A : Type} (ls : list (list A)) : forall i (y : A) l,
  ls !! i = Some (y :: l) ->
  Permutation (y :: concat (<[i := l]> ls)) (concat ls).
Proof.
  induction ls as [|a ls IH]; intros [|i] y l; cbn [lookup list_lookup]; try discriminate.
  - intros [= ->]. change (<[0 := l]> ((y :: l) :: ls)) with (l :: ls). reflexivity.
  - intros Hi. change (<[S i := l]> (a :: ls)) with (a :: <[i := l]> ls).
    cbn [concat]. rewrite <- (IH i y l Hi). apply Permutation_middle.
Qed.

Lemma interleaving_Permutation {A : Type} (ls : list (list A)) (t : list A) :
  interleaving ls t -> Permutation t (concat ls).
Proof.
  induction 1 as [ls Hnil | ls i y l t Hi Ht IH].
  - induction Hnil as [|l ls -> _ IH]; [reflexivity|exact IH].
  - rewrite IH. now apply concat_insert_Permutation.
Qed.

(** Under every schedule, the effects of [genProcessedPages] are an
    interleaving of the effects of the pages' goroutines: for every page, in
    the order of the code, the effects of [p.generate()] and then the line
    that reports its result; every effect of every page occurs once, and
    nothing else does. *)
Theorem genProcessedPages_interleaves (env : Env) (cfg : Config) (pages pages' : list page)
    (sched : list thread) (t : trace) :
  genProcessedPages env cfg pages sched = Some (pages', t) ->
  interleaving (map (page_events env cfg) pages) t
  /\ Permutation t (concat (map (page_events env cfg) pages)).
Proof.
  intros Hrun. apply genProcessedPages_trace in Hrun. split; [exact Hrun|].
  now apply interleaving_Permutation.
Qed.

Lemma genProcessedPages_interleaves_witness :
  exists pages' t,
    genProcessedPages env_ok example_cfg [ page_a1; page_a1 ] barrier_schedule
    = Some (pages', t)
    /\ interleaving (map (page_events env_ok example_cfg) [ page_a1; page_a1 ]) t
    /\ Permutation t (concat (map (page_events env_ok example_cfg) [ page_a1; page_a1 ])).
Proof.
  eexists. eexists. split; [vm_compute; reflexivity|].
  eapply (genProcessedPages_interleaves env_ok example_cfg [ page_a1; page_a1 ] _
            barrier_schedule).
  vm_compute. reflexivity.
Defined.

(** *** The whole run *)

(** The pages of a returned dispatcher are the pages given, each as its own
    [generate] leaves it. *)
Lemma genProcessedPages_pages (env : Env) (cfg : Config) (pages pages' : list page)
    (sched : list thread) (t : trace) :
  genProcessedPages env cfg pages sched = Some (pages', t) ->
  pages' = map (fun p => fst (fst (generate env cfg p))) pages.
Proof.
  unfold genProcessedPages.
  destruct (dispatch_run env cfg sched (dispatch_init pages)) as [s|] eqn:Hrun;
    [|discriminate].
  destruct (d_main s) eqn:Hmain; try discriminate. intros [= <- <-].
  pose proof (dispatch_run_inv _ _ _ _ _ _ (dispatch_init_inv env cfg pages) Hrun)
    as Hinv.
  apply list_eq. intros i. rewrite list_lookup_fmap.
  destruct (pages !! i) as [p|] eqn:Hp; cbn [fmap option_fmap option_map].
  - destruct (inv_task _ _ _ _ Hinv i p Hp) as (c & p' & Hc & Hp' & Htask).
    rewrite (returned_all_exit _ _ _ _ Hinv Hmain i) in Hc
      by (eapply lookup_lt_Some; eauto).
    injection Hc as <-. cbn [task_inv] in Htask.
    destruct Htask as (err & t1 & Hg & _). now rewrite Hp', Hg.
  - apply lookup_ge_None. rewrite (inv_len_pages _ _ _ _ Hinv).
    now apply lookup_ge_None.
Qed.

Lemma generate_keeps (env : Env) (cfg : Config) (p : page) :
  filepath (fst (fst (generate env cfg p))) = filepath p
  /\ number (fst (fst (generate env cfg p))) = number p.
Proof.
  rewrite generate_page. unfold createTempFile.
  destruct (osCreateTemp _ _ _ _); split; reflexivity.
Qed.

Lemma In_report (p : page) (err : option string) (e : event) :
  In e (report p err) -> is_print e.
Proof. destruct err; cbn; intros [<- | []]; eexists; reflexivity. Qed.

Lemma In_printCommandOutput (b : string) (err : option string) (e : event) :
  In e (printCommandOutput b err) -> is_print e.
Proof. destruct err; cbn; [intros [<- | []]; eexists; reflexivity|intros []]. Qed.

(** The only file a page's goroutine makes is the one its [tmpPath] names. *)
Lemma page_events_created (env : Env) (cfg : Config) (p : page) (name : string) :
  In (CreateTemp name) (page_events env cfg p) ->
  tmpPath (fst (fst (generate env cfg p))) = name.
Proof.
  unfold page_events, generate, createTempFile, convert, watermark.
  destruct (osCreateTemp _ _ _ _) as [nm | e]; cbn [fst snd].
  - destruct (CombinedOutput env (convert_argv _ _)) as [b1 [e1|]]; cbn [fst snd].
    + cbn. intros [H | [H | [H | [H | [H | []]]]]]; congruence.
    + destruct (watermark_enabled cfg).
      * destruct (CombinedOutput env (watermark_argv _ _)) as [b2 [e2|]]; cbn;
          intuition congruence.
      * cbn. intuition congruence.
  - cbn. intuition congruence.
Qed.

(** A page's [tmpPath], after its goroutine, is what it was or names a file
    that the goroutine made. *)
Lemma tmpPath_created (env : Env) (cfg : Config) (p : page) :
  tmpPath (fst (fst (generate env cfg p))) = tmpPath p
  \/ In (CreateTemp (tmpPath (fst (fst (generate env cfg p))))) (page_events env cfg p).
Proof.
  unfold page_events, generate, createTempFile.
  destruct (osCreateTemp _ _ _ _) as [nm | e]; cbn [fst snd]; [right|left; reflexivity].
  destruct (convert env cfg (with_tmpPath p nm)) as [[e1|] t2]; cbn [fst snd].
  - cbn. auto.
  - destruct (watermark_enabled cfg); [destruct (watermark _ _ _) as [e3 t3]|]; cbn; auto.
Qed.

Lemma ingest_loop_pages (paths : list string) : forall acc out pages out',
  ingest_loop paths acc out = (Ok pages, out') ->
  exists found,
    pages = acc ++ found /\ map filepath found = paths
    /\ Forall (fun p => tmpPath p = "") found.
Proof.
  induction paths as [|path paths IH]; intros acc out pages out'; cbn [ingest_loop].
  - intros [= <- <-]. exists []. now rewrite app_nil_r.
  - destruct (indexPage path) as [p| |] eqn:Hp; try discriminate.
    intros Hl. destruct (IH _ _ _ _ Hl) as (found & -> & Hf & Ht).
    apply indexPage_Ok in Hp as (Hpath & Htmp & _).
    exists (p :: found). rewrite <- app_assoc. split; [reflexivity|].
    split; [cbn; congruence|]. constructor; assumption.
Qed.

Lemma ingest_loop_prints (paths : list string) : forall acc out r out',
  ingest_loop paths acc out = (r, out') ->
  Forall is_print out -> Forall is_print out'.
Proof.
  induction paths as [|path paths IH]; intros acc out r out'; cbn [ingest_loop].
  - now intros [= <- <-].
  - destruct (indexPage path) as [p| |]; try (now intros [= <- <-]).
    intros Hl Hout. eapply IH; [exact Hl|].
    apply Forall_app. split; [exact Hout|]. repeat constructor. eexists; reflexivity.
Qed.

Lemma ingestPages_prints (cfg : Config) (fs : root) :
  Forall is_print (snd (ingestPages cfg fs)).
Proof.
  unfold ingestPages. destruct (walkDirectorySearchPath cfg fs) as [w err].
  destruct (ingest_loop (sent w) [] (map Println (skipped w))) as [r out] eqn:Hl.
  pose proof (ingest_loop_prints _ _ _ _ _ Hl (map_Println_prints _)) as Hout.
  destruct r; [destruct err|..]; exact Hout.
Qed.

Lemma ingestPages_fresh (cfg : Config) (fs : root) (pages : list page) (t : trace) :
  ingestPages cfg fs = (Ok pages, t) -> Forall (fun p => tmpPath p = "") pages.
Proof.
  unfold ingestPages. destruct (walkDirectorySearchPath cfg fs) as [w err].
  destruct (ingest_loop (sent w) [] (map Println (skipped w))) as [[found| |] out]
    eqn:Hloop; try discriminate.
  destruct err; [discriminate|]. intros [= <- <-].
  pose proof (ingest_loop_numbers _ _ _ _ _ Hloop (List.Forall_nil _)) as Hnum.
  destruct (ingest_loop_pages _ _ _ _ _ Hloop) as (found' & -> & _ & Htmp).
  cbn [app] in *.
  destruct (pdq_main.SortFunc_spec page_cmp number
              (fun p => (- 2 ^ 62 <= number p < 2 ^ 62)%Z) page_cmp_key found')
    as [Hperm _].
  { eapply Forall_impl; [exact Hnum|]. cbn. intros p Hp. lia. }
  now rewrite <- Hperm.
Qed.

(** The pages that [ingestPages] returns are, up to their order, one page
    for every path that the walker sent, none of them with a temporary file
    yet; and the walk was complete. *)
Theorem ingestPages_one_page_per_path (cfg : Config) (fs : root) (pages : list page)
    (t : trace) :
  ingestPages cfg fs = (Ok pages, t) ->
  Permutation (map filepath pages) (sent (fst (walkDirectorySearchPath cfg fs)))
  /\ Forall (fun p => tmpPath p = "") pages
  /\ snd (walkDirectorySearchPath cfg fs) = None.
Proof.
  unfold ingestPages. destruct (walkDirectorySearchPath cfg fs) as [w err].
  destruct (ingest_loop (sent w) [] (map Println (skipped w))) as [[found| |] out]
    eqn:Hloop; try discriminate.
  destruct err; [discriminate|]. intros [= <- <-]. cbn [fst snd].
  pose proof (ingest_loop_numbers _ _ _ _ _ Hloop (List.Forall_nil _)) as Hnum.
  destruct (ingest_loop_pages _ _ _ _ _ Hloop) as (found' & -> & Hpaths & Htmp).
  cbn [app] in *.
  destruct (pdq_main.SortFunc_spec page_cmp number
              (fun p => (- 2 ^ 62 <= number p < 2 ^ 62)%Z) page_cmp_key found')
    as [Hperm _].
  { eapply Forall_impl; [exact Hnum|]. cbn. intros p Hp. lia. }
  split; [|split; [|reflexivity]].
  - rewrite <- Hpaths. apply Permutation_map. now symmetry.
  - now rewrite <- Hperm.
Qed.

Lemma ingestPages_one_page_per_path_witness :
  exists pages t,
    ingestPages example_cfg (Root example_tree) = (Ok pages, t)
    /\ map filepath pages = [ "scans/a1.jpg"; "scans/sub/a2.jpg"; "scans/a3.jpg" ]
    /\ sent (fst (walkDirectorySearchPath example_cfg (Root example_tree)))
       = [ "scans/a3.jpg"; "scans/a1.jpg"; "scans/sub/a2.jpg" ]
    /\ Permutation (map filepath pages)
         (sent (fst (walkDirectorySearchPath example_cfg (Root example_tree))))
    /\ Forall (fun p => tmpPath p = "") pages
    /\ snd (walkDirectorySearchPath example_cfg (Root example_tree)) = None.
Proof.
  eexists. eexists. split; [vm_compute; reflexivity|].
  split; [reflexivity|]. split; [vm_compute; reflexivity|].
  eapply (ingestPages_one_page_per_path example_cfg (Root example_tree)).
  vm_compute. reflexivity.
Defined.

Lemma Forall_numbers (n : Z) (l : list page) : forall l',
  map number l' = map number l ->
  Forall (fun q => (n <= number q)%Z) l ->
  Forall (fun q => (n <= number q)%Z) l'.
Proof.
  induction l as [|a l IH]; intros [|a' l']; cbn [map]; try discriminate.
  - constructor.
  - intros [= Ha Hl] Hall. inversion Hall as [|? ? H1 H2]; subst.
    constructor; [now rewrite Ha|now apply IH].
Qed.

Lemma StronglySorted_numbers (l : list page) : forall l',
  map number l' = map number l ->
  StronglySorted (fun p q => (number p <= number q)%Z) l ->
  StronglySorted (fun p q => (number p <= number q)%Z) l'.
Proof.
  induction l as [|a l IH]; intros [|a' l']; cbn [map]; try discriminate.
  - constructor.
  - intros [= Ha Hl] Hs. apply StronglySorted_inv in Hs as [Hs Hall].
    constructor; [now apply IH|].
    rewrite Ha. now apply (Forall_numbers _ l).
Qed.

(** The pages reach the bundler in the order of their numbers: whatever the
    schedule and whatever fails, the dispatcher changes neither the order of
    the slice nor the path or number of a page, so that the slice that
    [bundlePages] reads is still in ascending order of the page numbers. *)
Theorem pages_bundled_in_order (env : Env) (cfg : Config) (fs : root)
    (sched : list thread) (pages pages' : list page) (t1 t2 : trace) :
  ingestPages cfg fs = (Ok pages, t1) ->
  genProcessedPages env cfg pages sched = Some (pages', t2) ->
  map filepath pages' = map filepath pages
  /\ map number pages' = map number pages
  /\ StronglySorted (fun p q => (number p <= number q)%Z) pages'.
Proof.
  intros Hin Hgen. apply genProcessedPages_pages in Hgen. subst pages'.
  assert (Hf : map filepath (map (fun p => fst (fst (generate env cfg p))) pages)
               = map filepath pages).
  { rewrite map_map. apply map_ext. intros p. apply generate_keeps. }
  assert (Hn : map number (map (fun p => fst (fst (generate env cfg p))) pages)
               = map number pages).
  { rewrite map_map. apply map_ext. intros p. apply generate_keeps. }
  split; [exact Hf|]. split; [exact Hn|].
  apply (StronglySorted_numbers pages _ Hn).
  revert Hin. unfold ingestPages. destruct (walkDirectorySearchPath cfg fs) as [w err].
  destruct (ingest_loop (sent w) [] (map Println (skipped w))) as [[found| |] out]
    eqn:Hloop; try discriminate.
  destruct err; [discriminate|]. intros [= <- <-].
  apply (pdq_main.SortFunc_spec page_cmp number
           (fun p => (- 2 ^ 62 <= number p < 2 ^ 62)%Z) page_cmp_key).
  apply ingest_loop_numbers in Hloop; [|constructor].
  eapply Forall_impl; [exact Hloop|]. cbn. intros p Hp. lia.
Qed.

Lemma pages_bundled_in_order_witness :
  exists t1 pages' t2,
    ingestPages example_cfg (Root example_tree) = (Ok example_pages, t1)
    /\ genProcessedPages env_convert_fails example_cfg example_pages
         (sequential_schedule env_convert_fails example_cfg example_pages)
       = Some (pages', t2)
    /\ map tmpPath pages'
       = [ "work/watermarker-a1.jpg"; "work/watermarker-a2.jpg"; "work/watermarker-a3.jpg" ]
    /\ map filepath pages' = map filepath example_pages
    /\ map number pages' = map number example_pages
    /\ StronglySorted (fun p q => (number p <= number q)%Z) pages'.
Proof.
  eexists. eexists. eexists.
  split; [vm_compute; reflexivity|]. split; [vm_compute; reflexivity|].
  split; [reflexivity|].
  eapply (pages_bundled_in_order env_convert_fails example_cfg (Root example_tree)
            (sequential_schedule env_convert_fails example_cfg example_pages)
            example_pages).
  - vm_compute. reflexivity.
  - vm_compute. reflexivity.
Defined.

Lemma page_events_no_remove (env : Env) (cfg : Config) (p : page) (path : string) :
  ~ In (Remove path) (page_events env cfg p).
Proof.
  unfold page_events, generate, createTempFile, convert, watermark.
  destruct (osCreateTemp _ _ _ _) as [nm | e]; cbn [fst snd].
  - destruct (CombinedOutput env (convert_argv _ _)) as [b1 [e1|]]; cbn [fst snd].
    + cbn. intuition congruence.
    + destruct (watermark_enabled cfg).
      * destruct (CombinedOutput env (watermark_argv _ _)) as [b2 [e2|]]; cbn;
          intuition congruence.
      * cbn. intuition congruence.
  - cbn. intuition congruence.
Qed.

Lemma print_not_remove (t : trace) (path : string) :
  Forall is_print t -> ~ In (Remove path) t.
Proof.
  intros Hall Hin. rewrite List.Forall_forall in Hall.
  destruct (Hall _ Hin) as [line Heq]. discriminate.
Qed.

Lemma print_not_created (t : trace) (name : string) :
  Forall is_print t -> ~ In (CreateTemp name) t.
Proof.
  intros Hall Hin. rewrite List.Forall_forall in Hall.
  destruct (Hall _ Hin) as [line Heq]. discriminate.
Qed.

Lemma In_bundlePages (env : Env) (cfg : Config) (pages : list page) (e : event) :
  In e (snd (bundlePages env cfg pages)) ->
  e = Exec (bundle_argv cfg pages) \/ is_print e.
Proof.
  unfold bundlePages. destruct (CombinedOutput env (bundle_argv cfg pages)) as [b err].
  cbn [snd In]. intros [<- | Hin]; [now left|right].
  eapply In_printCommandOutput; eauto.
Qed.

Lemma genProcessedPages_In (env : Env) (cfg : Config) (pages pages' : list page)
    (sched : list thread) (t : trace) (e : event) :
  genProcessedPages env cfg pages sched = Some (pages', t) ->
  In e t <-> exists p, In p pages /\ In e (page_events env cfg p).
Proof.
  intros Hgen. apply genProcessedPages_trace in Hgen.
  rewrite (interleaving_In _ _ Hgen). split.
  - intros (l & Hl & He). apply in_map_iff in Hl as (p & <- & Hp). eauto.
  - intros (p & Hp & He). exists (page_events env cfg p). split; [|exact He].
    now apply in_map.
Qed.

(** [main] removes only what the run itself has made, and only at its very
    end: the effects of a run that returns are effects without any
    [os.Remove], followed by the removals; and every path removed is the name
    of a file that [os.CreateTemp] made before, in the same run, or the empty
    path (of a page whose temporary file could not be made). *)
Theorem main_removes_only_created (env : Env) (cfg : Config) (fs : root)
    (sched : list thread) (t : trace) :
  main env cfg fs sched = Returned t ->
  exists before removed,
    t = before ++ map Remove removed
    /\ (forall path, ~ In (Remove path) before)
    /\ (forall path, In path removed -> path = "" \/ In (CreateTemp path) before).
Proof.
  assert (Hnone : forall t0 : trace, (forall path, ~ In (Remove path) t0) ->
            exists before removed,
              t0 = before ++ map Remove removed
              /\ (forall path, ~ In (Remove path) before)
              /\ (forall path, In path removed ->
                  path = "" \/ In (CreateTemp path) before)).
  { intros t0 H0. exists t0, []. cbn [map]. rewrite app_nil_r.
    split; [reflexivity|]. split; [exact H0|]. intros path []. }
  unfold main.
  destruct ((String.length (directorySearchPath cfg) =? 0)
            || (String.length (outputFilePath cfg) =? 0)).
  { intros [= <-]. apply Hnone. intros path [H | []]. discriminate. }
  pose proof (ingestPages_prints cfg fs) as Hprint.
  destruct (ingestPages cfg fs) as [[pages | msg | msg] t1] eqn:Hin; cbn [snd] in Hprint;
    [| |discriminate].
  2:{ intros [= <-]. apply Hnone. intros path H.
      apply in_app_or in H as [H | [H | []]]; [|discriminate].
      now apply print_not_remove in H. }
  destruct (genProcessedPages env cfg pages sched) as [[pages' t2]|] eqn:Hgen;
    [|discriminate].
  pose proof (In_bundlePages env cfg pages') as Hb.
  assert (Hbefore : forall t3 path,
            (forall e, In e t3 -> e = Exec (bundle_argv cfg pages') \/ is_print e) ->
            ~ In (Remove path) ((t1 ++ t2 ++ [ Println "bundling..." ]) ++ t3)).
  { intros t3 path H3 H. repeat (apply in_app_or in H as [H | H]).
    - now apply print_not_remove in H.
    - apply (genProcessedPages_In _ _ _ _ _ _ _ Hgen) in H as (p & _ & H).
      now apply page_events_no_remove in H.
    - destruct H as [H | []]. discriminate.
    - destruct (H3 _ H) as [Heq | [line Heq]]; discriminate. }
  destruct (bundlePages env cfg pages') as [[e|] t3]; cbn [snd] in Hb; intros [= <-].
  - apply Hnone. intros path H. rewrite app_assoc in H.
    apply in_app_or in H as [H | [H | []]]; [|discriminate].
    now apply (Hbefore t3 path Hb).
  - exists ((t1 ++ t2 ++ [ Println "bundling..." ]) ++ t3), (map tmpPath pages').
    split; [now rewrite map_map, app_assoc|].
    split; [intros path; now apply Hbefore|].
    intros path Hp. apply in_map_iff in Hp as (p' & <- & Hp').
    rewrite (genProcessedPages_pages _ _ _ _ _ _ Hgen) in Hp'.
    apply in_map_iff in Hp' as (p & <- & Hp).
    destruct (tmpPath_created env cfg p) as [Heq | Hc].
    + left. rewrite Heq. apply ingestPages_fresh in Hin.
      rewrite List.Forall_forall in Hin. now apply Hin.
    + right. apply in_or_app. left. apply in_or_app. right.
      apply in_or_app. left.
      apply (genProcessedPages_In _ _ _ _ _ _ _ Hgen). eauto.
Qed.

Lemma main_removes_only_created_witness :
  exists t before removed,
    main env_ok example_cfg (Root (Dir "scans" [ File "a1.jpg" ]))
      (sequential_schedule env_ok example_cfg [ page_a1 ]) = Returned t
    /\ t = before ++ map Remove removed
    /\ (forall path, ~ In (Remove path) before)
    /\ (forall path, In path removed -> path = "" \/ In (CreateTemp path) before).
Proof.
  destruct (main_removes_only_created env_ok example_cfg
              (Root (Dir "scans" [ File "a1.jpg" ]))
              (sequential_schedule env_ok example_cfg [ page_a1 ])
              [ Println "found page: scans/a1.jpg"; Mkdir "work";
                CreateTemp "work/watermarker-a1.jpg";
                Exec (convert_argv example_cfg
                        (with_tmpPath page_a1 "work/watermarker-a1.jpg"));
                Exec (watermark_argv example_cfg
                        (with_tmpPath page_a1 "work/watermarker-a1.jpg"));
                Println "processed page: scans/a1.jpg"; Println "bundling...";
                Exec [ "img2pdf"; "--output"; "out.pdf"; "work/watermarker-a1.jpg" ];
                Remove "work/watermarker-a1.jpg" ])
    as (before & removed & Ht & Hb & Hr); [vm_compute; reflexivity|].
  eexists. exists before, removed.
  split; [vm_compute; reflexivity|]. split; [exact Ht|]. split; [exact Hb|exact Hr].
Defined.

Lemma temp_files_app (a : trace) : forall present b,
  temp_files present (a ++ b) = temp_files (temp_files present a) b.
Proof.
  induction a as [|e a IH]; intros present b; [reflexivity|].
  destruct e; cbn [app temp_files]; apply IH.
Qed.

Lemma In_filter_other (present : list string) (path name : string) :
  In name (filter (fun f => negb (String.eqb f path)) present) ->
  In name present /\ name <> path.
Proof.
  rewrite <- !list_elem_of_In, list_elem_of_filter. intros [Hne Hin].
  split; [exact Hin|]. intros ->. rewrite String.eqb_refl in Hne. exact Hne.
Qed.

(** A temporary file that exists after a trace was there before it or was
    made in it. *)
Lemma temp_files_origin (t : trace) : forall present name,
  In name (temp_files present t) -> In name present \/ In (CreateTemp name) t.
Proof.
  induction t as [|e t IH]; intros present name; cbn [temp_files]; [now left|].
  destruct e; intros H; apply IH in H as [H | H]; cbn [In]; auto.
  - apply in_app_or in H as [H | [<- | []]]; auto.
  - apply In_filter_other in H as [H _]. auto.
Qed.

Lemma temp_files_removed (paths : list string) : forall present,
  (forall name, In name present -> In name paths) ->
  temp_files present (map Remove paths) = [].
Proof.
  induction paths as [|q paths IH]; intros present Hall; cbn [map temp_files].
  - destruct present as [|f present]; [reflexivity|]. destruct (Hall f); now left.
  - apply IH. intros name Hn. apply In_filter_other in Hn as [Hn Hneq].
    destruct (Hall name Hn) as [<- | Hq]; [congruence|exact Hq].
Qed.

(** When bundling succeeds, no temporary file of the run is left: whatever
    the tools answered and however the goroutines were scheduled, every file
    that [os.CreateTemp] made during the run has been handed to [os.Remove]
    by the time [main] returns. *)
Theorem main_success_leaves_no_temp (env : Env) (cfg : Config) (fs : root)
    (sched : list thread) (pages pages' : list page) (t1 t2 : trace) :
  has_paths cfg ->
  ingestPages cfg fs = (Ok pages, t1) ->
  genProcessedPages env cfg pages sched = Some (pages', t2) ->
  fst (bundlePages env cfg pages') = None ->
  exists t, main env cfg fs sched = Returned t /\ temp_files [] t = [].
Proof.
  intros Hp Hin Hgen Hbundle. unfold main. unfold has_paths in Hp. rewrite Hp, Hin, Hgen.
  pose proof (In_bundlePages env cfg pages') as Hb.
  destruct (bundlePages env cfg pages') as [err t3]. cbn [fst snd] in Hbundle, Hb.
  subst err. eexists. split; [reflexivity|].
  rewrite app_assoc, temp_files_app, <- (map_map tmpPath Remove).
  apply temp_files_removed.
  intros name Hn. apply temp_files_origin in Hn as [[] | Hn].
  repeat (apply in_app_or in Hn as [Hn | Hn]).
  - pose proof (ingestPages_prints cfg fs) as Hprint. rewrite Hin in Hprint.
    now apply print_not_created in Hn.
  - apply (genProcessedPages_In _ _ _ _ _ _ _ Hgen) in Hn as (p & Hpin & Hn).
    apply page_events_created in Hn. subst name.
    rewrite (genProcessedPages_pages _ _ _ _ _ _ Hgen), map_map.
    apply in_map_iff. exists p. split; [reflexivity|exact Hpin].
  - destruct Hn as [Hn | []]. discriminate.
  - destruct (Hb _ Hn) as [Heq | [line Heq]]; discriminate.
Qed.

Lemma main_success_leaves_no_temp_witness :
  exists pages' t1 t2 t,
    has_paths example_cfg
    /\ ingestPages example_cfg (Root example_tree) = (Ok example_pages, t1)
    /\ genProcessedPages env_convert_fails example_cfg example_pages
         (sequential_schedule env_convert_fails example_cfg example_pages)
       = Some (pages', t2)
    /\ fst (bundlePages env_convert_fails example_cfg pages') = None
    /\ main env_convert_fails example_cfg (Root example_tree)
         (sequential_schedule env_convert_fails example_cfg example_pages) = Returned t
    /\ temp_files [] t = [].
Proof.
  assert (H1 : has_paths example_cfg) by reflexivity.
  destruct (main_success_leaves_no_temp env_convert_fails example_cfg (Root example_tree)
              (sequential_schedule env_convert_fails example_cfg example_pages)
              example_pages
              (map (fun p => fst (fst (generate env_convert_fails example_cfg p)))
                 example_pages)
              (snd (ingestPages example_cfg (Root example_tree)))
              (concat (map (page_events env_convert_fails example_cfg) example_pages))
              H1)
    as (t & Hmain & Htemp); [vm_compute; reflexivity..|].
  exists (map (fun p => fst (fst (generate env_convert_fails example_cfg p))) example_pages),
    (snd (ingestPages example_cfg (Root example_tree))),
    (concat (map (page_events env_convert_fails example_cfg) example_pages)), t.
  split; [exact H1|]. repeat (split; [vm_compute; reflexivity|]).
  split; [exact Hmain|exact Htemp].
Defined.

(** A run that finds no page still calls [img2pdf], with no input file: the
    dispatcher returns at once, and [bundlePages] runs
    [img2pdf --output <path>] whatever the number of pages; nothing else is
    made, run or removed. *)
Theorem main_without_pages_still_bundles (env : Env) (cfg : Config) (fs : root)
    (t1 : trace) :
  has_paths cfg ->
  ingestPages cfg fs = (Ok [], t1) ->
  exists out,
    main env cfg fs [ Main; Main ]
    = Returned (t1 ++ Println "bundling..."
                   :: Exec [ "img2pdf"; "--output"; outputFilePath cfg ] :: out)
    /\ Forall is_print out.
Proof.
  intros Hp Hin. unfold main. unfold has_paths in Hp. rewrite Hp, Hin.
  change (genProcessedPages env cfg [] [ Main; Main ]) with (Some (@nil page, @nil event)).
  unfold bundlePages, bundle_argv. cbn [map app].
  destruct (CombinedOutput env [ "img2pdf"; "--output"; outputFilePath cfg ]) as [b [e|]];
    cbn [printCommandOutput app map]; rewrite ?app_nil_r, <- app_assoc; cbn [app];
    eexists; split; try reflexivity.
  - repeat constructor; eexists; reflexivity.
  - constructor.
Qed.

Lemma main_without_pages_still_bundles_witness :
  has_paths dotless_cfg
  /\ exists t1 out,
       ingestPages dotless_cfg (Root example_tree) = (Ok [], t1)
       /\ main env_ok dotless_cfg (Root example_tree) [ Main; Main ]
          = Returned (t1 ++ Println "bundling..."
                         :: Exec [ "img2pdf"; "--output"; outputFilePath dotless_cfg ] :: out)
       /\ Forall is_print out.
Proof.
  assert (H1 : has_paths dotless_cfg) by reflexivity.
  split; [exact H1|].
  exists (snd (ingestPages dotless_cfg (Root example_tree))).
  assert (H2 : ingestPages dotless_cfg (Root example_tree)
               = (Ok [], snd (ingestPages dotless_cfg (Root example_tree))))
    by (vm_compute; reflexivity).
  destruct (main_without_pages_still_bundles env_ok dotless_cfg (Root example_tree) _ H1 H2)
    as (out & Hmain & Hout).
  exists out. split; [exact H2|]. split; [exact Hmain|exact Hout].
Defined.

Lemma page_events_exec (env : Env) (cfg : Config) (p : page) (argv : list string) :
  In (Exec argv) (page_events env cfg p) ->
  exists args, argv = "convert" :: args \/ argv = "magick" :: args.
Proof.
  unfold page_events, generate, createTempFile, convert, watermark.
  destruct (osCreateTemp _ _ _ _) as [nm | e]; cbn [fst snd].
  - destruct (CombinedOutput env (convert_argv _ _)) as [b1 [e1|]]; cbn [fst snd].
    + cbn. intros [H | [H | [[= <-] | [H | [H | []]]]]]; try discriminate.
      eexists; left; reflexivity.
    + destruct (watermark_enabled cfg).
      * destruct (CombinedOutput env (watermark_argv _ _)) as [b2 [e2|]]; cbn;
          intros H; repeat (destruct H as [H | H]; try discriminate);
          try (injection H as <-; eexists; (left; reflexivity) || (right; reflexivity));
          destruct H.
      * cbn. intros [H | [H | [[= <-] | [H | []]]]]; try discriminate.
        eexists; left; reflexivity.
  - cbn. intros [H | [H | []]]; discriminate.
Qed.

(** The only commands that [main] runs are ImageMagick's [convert] and
    [magick] and [img2pdf], whatever the files are called and whatever the
    tools answer. *)
Theorem main_runs_only_its_tools (env : Env) (cfg : Config) (fs : root)
    (sched : list thread) (t : trace) (argv : list string) :
  main env cfg fs sched = Returned t ->
  In (Exec argv) t ->
  exists args,
    argv = "convert" :: args \/ argv = "magick" :: args \/ argv = "img2pdf" :: args.
Proof.
  unfold main.
  destruct ((String.length (directorySearchPath cfg) =? 0)
            || (String.length (outputFilePath cfg) =? 0)).
  { intros [= <-] [H | []]. discriminate. }
  pose proof (ingestPages_prints cfg fs) as Hprint.
  assert (Hno : forall t0, Forall is_print t0 -> ~ In (Exec argv) t0).
  { intros t0 Hall Hin. rewrite List.Forall_forall in Hall.
    destruct (Hall _ Hin) as [line Heq]. discriminate. }
  destruct (ingestPages cfg fs) as [[pages | msg | msg] t1] eqn:Hin; cbn [snd] in Hprint;
    [| |discriminate].
  2:{ intros [= <-] H. apply in_app_or in H as [H | [H | []]]; [|discriminate].
      now apply Hno in H. }
  destruct (genProcessedPages env cfg pages sched) as [[pages' t2]|] eqn:Hgen;
    [|discriminate].
  pose proof (In_bundlePages env cfg pages') as Hb.
  assert (Hpage : In (Exec argv) t2 ->
                  exists args, argv = "convert" :: args \/ argv = "magick" :: args
                               \/ argv = "img2pdf" :: args).
  { intros H. apply (genProcessedPages_In _ _ _ _ _ _ _ Hgen) in H as (p & _ & H).
    apply page_events_exec in H as [args [H | H]]; exists args; auto. }
  assert (Hbundle : forall t3, (forall e, In e t3 -> e = Exec (bundle_argv cfg pages')
                                                     \/ is_print e) ->
                    In (Exec argv) t3 ->
                    exists args, argv = "convert" :: args \/ argv = "magick" :: args
                                 \/ argv = "img2pdf" :: args).
  { intros t3 H3 H. destruct (H3 _ H) as [[= ->] | [line Heq]]; [|discriminate].
    eexists. right; right. reflexivity. }
  destruct (bundlePages env cfg pages') as [[e|] t3]; cbn [snd] in Hb; intros [= <-] H;
    repeat (apply in_app_or in H as [H | H]); auto.
  - now apply Hno in H.
  - destruct H as [H | []]. discriminate.
  - eauto.
  - destruct H as [H | []]. discriminate.
  - now apply Hno in H.
  - destruct H as [H | []]. discriminate.
  - eauto.
  - apply in_map_iff in H as (p' & Heq & _). discriminate.
Qed.

Lemma main_runs_only_its_tools_witness :
  exists t,
    main env_ok example_cfg (Root (Dir "scans" [ File "a1.jpg" ]))
      (sequential_schedule env_ok example_cfg [ page_a1 ]) = Returned t
    /\ In (Exec (watermark_argv example_cfg
                   (with_tmpPath page_a1 "work/watermarker-a1.jpg"))) t
    /\ exists args,
         watermark_argv example_cfg (with_tmpPath page_a1 "work/watermarker-a1.jpg")
         = "convert" :: args
         \/ watermark_argv example_cfg (with_tmpPath page_a1 "work/watermarker-a1.jpg")
            = "magick" :: args
         \/ watermark_argv example_cfg (with_tmpPath page_a1 "work/watermarker-a1.jpg")
            = "img2pdf" :: args.
Proof.
  eexists. split; [vm_compute; reflexivity|].
  assert (Hin : In (Exec (watermark_argv example_cfg
                            (with_tmpPath page_a1 "work/watermarker-a1.jpg")))
                  [ Println "found page: scans/a1.jpg"; Mkdir "work";
                    CreateTemp "work/watermarker-a1.jpg";
                    Exec (convert_argv example_cfg
                            (with_tmpPath page_a1 "work/watermarker-a1.jpg"));
                    Exec (watermark_argv example_cfg
                            (with_tmpPath page_a1 "work/watermarker-a1.jpg"));
                    Println "processed page: scans/a1.jpg"; Println "bundling...";
                    Exec [ "img2pdf"; "--output"; "out.pdf"; "work/watermarker-a1.jpg" ];
                    Remove "work/watermarker-a1.jpg" ])
    by (cbn [In]; tauto).
  split; [exact Hin|].
  eapply (main_runs_only_its_tools env_ok example_cfg
            (Root (Dir "scans" [ File "a1.jpg" ]))
            (sequential_schedule env_ok example_cfg [ page_a1 ])).
  - vm_compute. reflexivity.
  - exact Hin.
Defined.

Lemma walk_sent_accepted (cfg : Config) (fs : root) :
  Forall (fun path => In (filepath.Ext path) (strings.Split (fileExtensions cfg) ","))
    (sent (fst (walkDirectorySearchPath cfg fs))).
Proof.
  unfold walkDirectorySearchPath, WalkDir. destruct fs as [e | d]; [constructor|].
  destruct (walkDir_any (strings.Split (fileExtensions cfg) ",") d
              (directorySearchPath cfg) {| sent := []; skipped := [] |})
    as (n & -> & _ & _).
  cbn [fst sent app]. apply List.Forall_forall. intros path Hin.
  apply in_map_iff in Hin as (e & <- & He). apply filter_In in He as [_ Hacc].
  unfold accepted in Hacc. apply andb_prop in Hacc as [_ Hc].
  now apply Contains_elem.
Qed.

(** Every page that [ingestPages] returns is a file with one of the accepted
    extensions, whatever the tree under the search path: the extension of
    its path, as [filepath.Ext] gives it, is a field of [-ext]. *)
Theorem ingested_pages_are_accepted (cfg : Config) (fs : root) (pages : list page)
    (t : trace) :
  ingestPages cfg fs = (Ok pages, t) ->
  Forall (fun p => In (filepath.Ext (filepath p))
                     (strings.Split (fileExtensions cfg) ",")) pages.
Proof.
  pose proof (walk_sent_accepted cfg fs) as Hsent.
  unfold ingestPages. destruct (walkDirectorySearchPath cfg fs) as [w err].
  cbn [fst] in Hsent.
  destruct (ingest_loop (sent w) [] (map Println (skipped w))) as [[found| |] out]
    eqn:Hloop; try discriminate.
  destruct err; [discriminate|]. intros [= <- <-].
  pose proof (ingest_loop_numbers _ _ _ _ _ Hloop (List.Forall_nil _)) as Hnum.
  destruct (ingest_loop_pages _ _ _ _ _ Hloop) as (found' & -> & Hpaths & _).
  cbn [app] in *.
  destruct (pdq_main.SortFunc_spec page_cmp number
              (fun p => (- 2 ^ 62 <= number p < 2 ^ 62)%Z) page_cmp_key found')
    as [Hperm _].
  { eapply Forall_impl; [exact Hnum|]. cbn. intros p Hp. lia. }
  rewrite <- Hperm. rewrite <- Hpaths in Hsent. clear -Hsent.
  induction found' as [|p l IH]; [constructor|].
  cbn [map] in Hsent. apply Forall_cons in Hsent as [Hp Hl].
  constructor; [exact Hp|now apply IH].
Qed.

Lemma ingested_pages_are_accepted_witness :
  exists t,
    ingestPages example_cfg (Root example_tree) = (Ok example_pages, t)
    /\ Forall (fun p => In (filepath.Ext (filepath p))
                          (strings.Split (fileExtensions example_cfg) ","))
         example_pages.
Proof.
  eexists. split; [vm_compute; reflexivity|].
  eapply (ingested_pages_are_accepted example_cfg (Root example_tree)).
  vm_compute. reflexivity.
Defined.

(** *** The names of the temporary files *)

Lemma LastIndexByte_none (s : string) (c : ascii) :
  Forall (fun d => Ascii.eqb d c = false) (list_ascii_of_string s) ->
  os.LastIndexByte s c = None.
Proof.
  induction s as [|d s IH]; cbn [os.LastIndexByte list_ascii_of_string]; [reflexivity|].
  intros H. apply Forall_cons in H as [Hd Hs]. now rewrite (IH Hs), Hd.
Qed.

Lemma substring_all (s : string) : substring 0 (String.length s) s = s.
Proof. induction s as [|c s IH]; cbn; [reflexivity|]. now rewrite IH. Qed.

Lemma temp_pattern (ext : string) :
  "watermarker-*" +:+ ext
  = String "w" (String "a" (String "t" (String "e" (String "r" (String "m" (String "a"
      (String "r" (String "k" (String "e" (String "r" (String "-" (String "*" ext)))))))))))).
Proof. reflexivity. Qed.

Lemma Ext_no_separator (path : string) :
  existsb filepath.IsPathSeparator (list_ascii_of_string (filepath.Ext path)) = false.
Proof.
  destruct (Ext_shape path) as [-> | (pre & r & _ & Hr & ->)]; [reflexivity|].
  rewrite list_ascii_of_string_of_list_ascii. cbn [existsb].
  change (filepath.IsPathSeparator ".") with false. cbn [orb].
  induction Hr as [|c r [Hc _] _ IH]; [reflexivity|]. cbn [existsb]. now rewrite Hc, IH.
Qed.

Lemma pattern_no_separator (path : string) :
  existsb filepath.IsPathSeparator
    (list_ascii_of_string ("watermarker-*" +:+ filepath.Ext path)) = false.
Proof.
  rewrite temp_pattern. cbn [list_ascii_of_string existsb].
  rewrite Ext_no_separator. reflexivity.
Qed.

Lemma pattern_split (path : string) :
  star_free (filepath.Ext path) ->
  os.prefixAndSuffix ("watermarker-*" +:+ filepath.Ext path)
  = inl ("watermarker-", filepath.Ext path).
Proof.
  intros Hstar. unfold os.prefixAndSuffix. rewrite pattern_no_separator.
  rewrite temp_pattern. cbn [os.LastIndexByte].
  rewrite (LastIndexByte_none _ _ Hstar). cbn.
  now rewrite Nat.sub_0_r, substring_all.
Qed.

(** The pattern that [createTempFile] hands to [os.CreateTemp] is never
    refused: it holds no path separator, whatever the path of the page, and
    when the extension of the page holds no [*] it is split into the prefix
    [watermarker-] and the extension as suffix. *)
Theorem temp_pattern_accepted (path : string) :
  exists prefix suffix,
    os.prefixAndSuffix ("watermarker-*" +:+ filepath.Ext path) = inl (prefix, suffix)
    /\ (star_free (filepath.Ext path) ->
        prefix = "watermarker-" /\ suffix = filepath.Ext path).
Proof.
  unfold os.prefixAndSuffix. rewrite pattern_no_separator.
  destruct (os.LastIndexByte ("watermarker-*" +:+ filepath.Ext path) "*") as [pos|] eqn:Hpos.
  - eexists. eexists. split; [reflexivity|]. intros Hstar.
    pose proof (pattern_split path Hstar) as Hs. unfold os.prefixAndSuffix in Hs.
    rewrite pattern_no_separator, Hpos in Hs. injection Hs as H1 H2.
    split; assumption.
  - exfalso. rewrite temp_pattern in Hpos. cbn [os.LastIndexByte] in Hpos.
    destruct (os.LastIndexByte (filepath.Ext path) "*"); discriminate.
Qed.

Lemma last_char (l : list ascii) (c : ascii) :
  l !! (length l - 1) = Some c -> exists pre, l = pre ++ [ c ].
Proof.
  destruct l as [|x l] using rev_ind; [discriminate|].
  rewrite length_app. cbn [length]. replace (length l + 1 - 1) with (length l) by lia.
  rewrite lookup_app_r, Nat.sub_diag by lia. intros [= ->]. eauto.
Qed.

(** The path that [joinPath] makes has a slash before the name. *)
Lemma joinPath_chars (dir name : string) :
  exists pre,
    list_ascii_of_string (os.joinPath dir name)
    = pre ++ "/"%char :: list_ascii_of_string name.
Proof.
  unfold os.joinPath.
  destruct (String.get (String.length dir - 1) dir) as [c|] eqn:Hc.
  - destruct ((0 <? String.length dir) && filepath.IsPathSeparator c) eqn:Hs.
    + apply andb_prop in Hs as [_ Hs]. apply Ascii.eqb_eq in Hs. subst c.
      rewrite get_list_ascii, <- length_list_ascii in Hc.
      apply last_char in Hc as [pre Hpre].
      exists pre. rewrite list_ascii_app, Hpre, <- app_assoc. reflexivity.
    + exists (list_ascii_of_string dir). now rewrite !list_ascii_app.
  - exists (list_ascii_of_string dir). now rewrite !list_ascii_app.
Qed.

Lemma digits_plain (s : list ascii) :
  Forall (fun c => regexp.is_digit c = true) s -> plain s.
Proof.
  intros Hall. eapply Forall_impl; [exact Hall|]. cbn beta. intros c Hc.
  split; [destruct (filepath.IsPathSeparator c) eqn:H|destruct (Ascii.eqb c ".") eqn:H];
    try reflexivity; apply Ascii.eqb_eq in H; subst c; discriminate.
Qed.

(** The temporary file of a page has the extension of the page's file, as
    the comment of [createTempFile] says, in a world that names temporary
    files as Go does and for an extension without a [*]: the format that
    ImageMagick writes is then the format of the source. *)
Theorem tmpPath_keeps_extension (tempDir : string) (env : Env) (cfg : Config)
    (p p' : page) (t : trace) :
  go_temp tempDir env ->
  star_free (filepath.Ext (filepath p)) ->
  createTempFile env cfg p = (p', None, t) ->
  filepath.Ext (tmpPath p') = filepath.Ext (filepath p).
Proof.
  intros Hgo Hstar. unfold createTempFile.
  destruct (osCreateTemp env (filepath p) (workDirectory cfg)
              ("watermarker-*" +:+ filepath.Ext (filepath p))) as [name|e] eqn:Hos;
    [|discriminate].
  intros [= <- _]. cbn [with_tmpPath tmpPath].
  destruct (Hgo _ _ _ _ Hos) as (random & Hdigits & Hname).
  unfold os.CreateTemp_name in Hname. rewrite (pattern_split _ Hstar) in Hname.
  injection Hname as <-.
  set (dir := if String.eqb (workDirectory cfg) "" then tempDir else workDirectory cfg).
  destruct (joinPath_chars dir "watermarker-") as [pre Hpre].
  destruct (Ext_shape (filepath p)) as [He | (pre0 & r & _ & Hr & He)]; rewrite He.
  - apply (Ext_none _ pre (list_ascii_of_string "watermarker-"
                            ++ list_ascii_of_string random)).
    + right. rewrite !list_ascii_app, Hpre, <- app_assoc. cbn [app list_ascii_of_string].
      now rewrite app_nil_r.
    + apply Forall_app. split; [repeat constructor|now apply digits_plain].
  - apply (Ext_dot _ (list_ascii_of_string (os.joinPath dir "watermarker-")
                      ++ list_ascii_of_string random) r); [|exact Hr].
    rewrite !list_ascii_app, list_ascii_of_string_of_list_ascii, <- app_assoc.
    reflexivity.
Qed.

Lemma tmpPath_keeps_extension_witness :
  go_temp "/tmp" env_go
  /\ star_free (filepath.Ext (filepath page_a1))
  /\ createTempFile env_go example_cfg page_a1
     = (with_tmpPath page_a1 "work/watermarker-4051857357.jpg", None,
        [ Mkdir "work"; CreateTemp "work/watermarker-4051857357.jpg" ])
  /\ filepath.Ext (tmpPath (with_tmpPath page_a1 "work/watermarker-4051857357.jpg"))
     = filepath.Ext (filepath page_a1).
Proof.
  assert (H1 : go_temp "/tmp" env_go).
  { intros who dir pattern name Hn. exists "4051857357".
    split; [repeat constructor|exact Hn]. }
  assert (H2 : star_free (filepath.Ext (filepath page_a1))) by (repeat constructor).
  assert (H3 : createTempFile env_go example_cfg page_a1
               = (with_tmpPath page_a1 "work/watermarker-4051857357.jpg", None,
                  [ Mkdir "work"; CreateTemp "work/watermarker-4051857357.jpg" ]))
    by (vm_compute; reflexivity).
  split; [exact H1|]. split; [exact H2|]. split; [exact H3|].
  exact (tmpPath_keeps_extension "/tmp" env_go example_cfg page_a1 _ _ H1 H2 H3).
Defined.

(** *** The command line *)

Lemma int64_small (z : Z) :
  (- 2 ^ 63 <= z < 2 ^ 63)%Z -> strconv.int64 z = z.
Proof. intros Hz. unfold strconv.int64. rewrite Z.mod_small; lia. Qed.

(** One decimal digit more in the loop of [ParseUint]. *)
Lemma uint_loop_digit (c : ascii) (k n : Z) (u : bool) (s : string) :
  Ascii.eqb c "_" = false -> regexp.is_digit c = true -> strconv.digit_value c = k ->
  (0 <= k <= 9)%Z -> (0 <= n)%Z -> (n * 10 + k <= strconv.MaxUint64)%Z ->
  strconv.uint_loop 10 n u (String c s) = strconv.uint_loop 10 (n * 10 + k) u s.
Proof.
  intros Hu Hd Hk Hk9 Hn Hmax. cbn [strconv.uint_loop]. rewrite Hu, Hd, Hk.
  unfold strconv.MaxUint64 in *.
  assert (H10 : (10 <=? k)%Z = false) by (apply Z.leb_gt; lia). rewrite H10.
  assert (Hcut : ((2 ^ 64 - 1) / 10 + 1 <=? n)%Z = false).
  { apply Z.leb_gt. change ((2 ^ 64 - 1) / 10)%Z with 1844674407370955161%Z. lia. }
  rewrite Hcut. cbv zeta.
  rewrite Z.mod_small by lia.
  assert (H1 : (n * 10 + k <? n * 10)%Z = false) by (apply Z.ltb_ge; lia).
  assert (H2 : (2 ^ 64 - 1 <? n * 10 + k)%Z = false) by (apply Z.ltb_ge; lia).
  now rewrite H1, H2.
Qed.

Lemma of_uint_acc_ge (l : Decimal.uint) : forall a, (a <= Pos.of_uint_acc l a)%positive.
Proof.
  induction l; intros a; cbn [Pos.of_uint_acc]; try lia;
    match goal with
    | |- (_ <= Pos.of_uint_acc _ ?b)%positive => specialize (IHl b); lia
    end.
Qed.

(** The loop of [ParseUint] over a decimal numeral computes its value. *)
Lemma uint_loop_decimal (l : Decimal.uint) : forall a,
  (Z.pos (Pos.of_uint_acc l a) <= strconv.MaxUint64)%Z ->
  strconv.uint_loop 10 (Z.pos a) false (NilEmpty.string_of_uint l)
  = inl (Z.pos (Pos.of_uint_acc l a), false).
Proof.
  induction l; intros a Hmax; cbn [Pos.of_uint_acc NilEmpty.string_of_uint] in *;
    [reflexivity|..];
    match goal with
    | H : (Z.pos (Pos.of_uint_acc _ ?b) <= _)%Z |- context [ String ?c _ ] =>
        let k := eval vm_compute in (strconv.digit_value c) in
        pose proof (of_uint_acc_ge l b) as Hge;
        rewrite (uint_loop_digit c k (Z.pos a) false _ eq_refl eq_refl eq_refl);
        [ replace (Z.pos a * 10 + k)%Z with (Z.pos b) by lia; apply IHl; exact H
        | lia | lia | lia ]
    end.
Qed.

(** A positive number in decimal has no leading zero. *)
Lemma to_uint_no_leading_zero (p : positive) (l : Decimal.uint) :
  Pos.to_uint p <> Decimal.D0 l.
Proof.
  intros Hd.
  pose proof (DecimalPos.Unsigned.to_of (Pos.to_uint p)) as Hnorm.
  rewrite DecimalPos.Unsigned.of_to in Hnorm. cbn [N.to_uint] in Hnorm.
  rewrite Hd in Hnorm. rewrite DecimalFacts.unorm_D0 in Hnorm.
  unfold Decimal.unorm in Hnorm.
  destruct (Decimal.nzhead l) eqn:Hl; try discriminate.
  - injection Hnorm as Hnil. subst l.
    now apply (DecimalPos.Unsigned.to_uint_nonzero p).
  - injection Hnorm as Hu. subst l.
    now apply (DecimalFacts.nzhead_nonzero (Decimal.D0 u) u).
Qed.

(** [ParseUint] reads a positive number in decimal back. *)
Lemma ParseUint_decimal (p : positive) :
  (Z.pos p <= strconv.MaxUint64)%Z ->
  strconv.ParseUint (NilEmpty.string_of_uint (Pos.to_uint p)) = (Z.pos p, None)
  /\ exists c s, NilEmpty.string_of_uint (Pos.to_uint p) = String c s
                 /\ regexp.is_digit c = true.
Proof.
  intros Hmax.
  pose proof (DecimalPos.Unsigned.of_to p) as Hof.
  pose proof (DecimalPos.Unsigned.to_uint_nonnil p) as Hnil.
  pose proof (to_uint_no_leading_zero p) as Hzero.
  destruct (Pos.to_uint p) as [|l|l|l|l|l|l|l|l|l|l]; [congruence|now destruct (Hzero l)|..];
    cbn [Pos.of_uint] in Hof; injection Hof as Hof;
    (split; [|eexists; eexists; split; reflexivity]);
    cbn [NilEmpty.string_of_uint];
    unfold strconv.ParseUint; cbn [Ascii.eqb Bool.eqb];
    match goal with
    | |- context [ strconv.uint_loop 10 0 false (String ?c _) ] =>
        let k := eval vm_compute in (strconv.digit_value c) in
        rewrite (uint_loop_digit c k 0 false _ eq_refl eq_refl eq_refl);
        [ change (0 * 10 + k)%Z with k | lia | lia | unfold strconv.MaxUint64; lia ]
    end;
    rewrite uint_loop_decimal by (rewrite Hof; exact Hmax);
    rewrite Hof; reflexivity.
Qed.

(** [strconv.ParseInt(s, 0, 64)] reads back what [%d] prints. *)
Lemma ParseInt_itoa (n : Z) : is_int n -> strconv.ParseInt (itoa n) = inl n.
Proof.
  unfold is_int, strconv.MinInt, strconv.MaxInt, itoa. intros Hn.
  destruct n as [|p|p]; cbn [Z.to_int NilZero.string_of_int].
  - vm_compute. reflexivity.
  - pose proof (DecimalPos.Unsigned.to_uint_nonnil p) as Hnil.
    destruct (ParseUint_decimal p) as (Hparse & c & s & Hs & Hc);
      [unfold strconv.MaxUint64; lia|].
    unfold NilZero.string_of_uint.
    destruct (Pos.to_uint p) eqn:Hd; [congruence|..]; rewrite <- Hd in *;
      rewrite Hs in *; unfold strconv.ParseInt;
      (assert (Hsign : match String c s with
                       | String "+" rest => (false, rest)
                       | String "-" rest => (true, rest)
                       | _ => (false, String c s)
                       end = (false, String c s))
         by (destruct c as [[] [] [] [] [] [] [] []]; try reflexivity;
             vm_compute in Hc; discriminate));
      rewrite Hsign, Hparse;
      (assert (Hlt : (2 ^ 63 <=? Z.pos p)%Z = false) by (apply Z.leb_gt; lia));
      rewrite Hlt; cbn [negb andb];
      rewrite int64_small by lia; reflexivity.
  - pose proof (DecimalPos.Unsigned.to_uint_nonnil p) as Hnil.
    destruct (ParseUint_decimal p) as (Hparse & c & s & Hs & Hc);
      [unfold strconv.MaxUint64; lia|].
    unfold NilZero.string_of_uint.
    assert (Hres : strconv.int64 (- strconv.int64 (Z.pos p)) = Z.neg p).
    { destruct (Z.eq_dec (Z.pos p) (2 ^ 63)%Z) as [Heq|Hne].
      - rewrite Heq. replace (Z.neg p) with (- 2 ^ 63)%Z by lia. reflexivity.
      - rewrite (int64_small (Z.pos p)) by lia. rewrite int64_small by lia. lia. }
    destruct (Pos.to_uint p) eqn:Hd; [congruence|..]; rewrite <- Hd in *;
      unfold strconv.ParseInt; rewrite Hparse;
      (assert (Hlt : (2 ^ 63 <? Z.pos p)%Z = false) by (apply Z.ltb_ge; lia));
      rewrite Hlt; cbn [negb andb]; rewrite Hres; reflexivity.
Qed.

Lemma intSet_itoa (n : Z) : is_int n -> flag.intSet (itoa n) = inl n.
Proof. intros Hn. unfold flag.intSet. now rewrite ParseInt_itoa. Qed.

Lemma Parse_assign (name v arg : string) (set : string -> Config -> Config + string)
    (cfg : Config) (rest : list string) :
  flag.classify arg = flag.Flag name (Some v) ->
  flag.formal name = Some set ->
  flag.Parse cfg (arg :: rest)
  = match set v cfg with
    | inl cfg' => flag.Parse cfg' rest
    | inr err => flag.Exit 2 (flag.InvalidValue v name err)
    end.
Proof. intros Hc Hf. cbn [flag.Parse]. rewrite Hc, Hf. reflexivity. Qed.

(** How [parseOne] reads an argument of the form [-name=value]. *)
Lemma classify_assign (name v : string) :
  In name flag_names ->
  flag.classify ("-" +:+ name +:+ "=" +:+ v) = flag.Flag name (Some v).
Proof.
  intros Hin. repeat (destruct Hin as [<- | Hin]; [reflexivity|]). destruct Hin.
Qed.

(** One [-name=value] of the command line is read; the variables are then
    brought back to the form of a record of values. *)
Ltac read_flag name v :=
  rewrite (Parse_assign name v ("-" +:+ name +:+ "=" +:+ v) _ _ _
             (classify_assign name v ltac:(cbn; tauto)) eq_refl);
  cbv beta iota;
  cbn [directorySearchPath fileExtensions watermarkFilePath watermarkImageScale
       outputDimensionHeight outputDimensionWidth outputFilePath workDirectory].

(** Every configuration can be given on the command line and is read back
    as given: [parseArgs] on the eight flags, each written [-name=value]
    with the numbers in decimal, sets the variables to exactly these values
    and leaves no argument.  The strings are taken as they are, whatever
    they hold (they may be empty, start with a minus or hold an equals
    sign). *)
Theorem parseArgs_reads_back (cfg : Config) :
  is_int (watermarkImageScale cfg) ->
  is_int (outputDimensionHeight cfg) ->
  is_int (outputDimensionWidth cfg) ->
  parseArgs (command_line cfg) = flag.Parsed cfg [].
Proof.
  intros Hs Hh Hw. destruct cfg as [dir ext wm size height width out work].
  cbn [watermarkImageScale outputDimensionHeight outputDimensionWidth] in Hs, Hh, Hw.
  unfold parseArgs, command_line, defaults.
  cbn [directorySearchPath fileExtensions watermarkFilePath watermarkImageScale
       outputDimensionHeight outputDimensionWidth outputFilePath workDirectory].
  generalize (intSet_itoa size Hs) (intSet_itoa height Hh) (intSet_itoa width Hw).
  generalize (itoa size) (itoa height) (itoa width). intros s h w Es Eh Ew.
  read_flag "dir" dir. read_flag "ext" ext. read_flag "watermark" wm.
  read_flag "size" s. rewrite Es.
  read_flag "height" h. rewrite Eh.
  read_flag "width" w. rewrite Ew.
  read_flag "output" out. read_flag "workdir" work.
  reflexivity.
Qed.

Lemma parseArgs_reads_back_witness :
  is_int (watermarkImageScale example_cfg)
  /\ is_int (outputDimensionHeight example_cfg)
  /\ is_int (outputDimensionWidth example_cfg)
  /\ command_line example_cfg
     = [ "-dir=scans"; "-ext=.jpg,.jpeg"; "-watermark=wm.png"; "-size=4"; "-height=1500";
         "-width=1500"; "-output=out.pdf"; "-workdir=work" ]
  /\ parseArgs (command_line example_cfg) = flag.Parsed example_cfg [].
Proof.
  assert (H1 : is_int (watermarkImageScale example_cfg)) by (split; discriminate).
  assert (H2 : is_int (outputDimensionHeight example_cfg)) by (split; discriminate).
  assert (H3 : is_int (outputDimensionWidth example_cfg)) by (split; discriminate).
  split; [exact H1|]. split; [exact H2|]. split; [exact H3|].
  split; [vm_compute; reflexivity|].
  exact (parseArgs_reads_back example_cfg H1 H2 H3).
Defined.

(** The forms of a flag agree: for each of the eight flags, [-name value],
    [--name value] and [--name=value] are read as [-name=value] is, from any
    state of the variables; the argument after [-name] is taken as the
    value whatever it looks like, even when it starts with a minus. *)
Theorem flag_forms_agree (name v : string) (cfg : Config) (rest : list string) :
  In name flag_names ->
  flag.Parse cfg (("-" +:+ name) :: v :: rest)
  = flag.Parse cfg (("-" +:+ name +:+ "=" +:+ v) :: rest)
  /\ flag.Parse cfg (("--" +:+ name) :: v :: rest)
     = flag.Parse cfg (("-" +:+ name +:+ "=" +:+ v) :: rest)
  /\ flag.Parse cfg (("--" +:+ name +:+ "=" +:+ v) :: rest)
     = flag.Parse cfg (("-" +:+ name +:+ "=" +:+ v) :: rest).
Proof.
  intros Hin.
  repeat (destruct Hin as [<- | Hin]; [repeat split; reflexivity|]). destruct Hin.
Qed.

Lemma flag_forms_agree_witness :
  In "dir" flag_names
  /\ flag.Parse defaults [ "-dir"; "-output"; "out.pdf" ]
     = flag.Parsed
         {| directorySearchPath := "-output"; fileExtensions := ".jpg,.jpeg";
            watermarkFilePath := ""; watermarkImageScale := 4;
            outputDimensionHeight := 1500; outputDimensionWidth := 1500;
            outputFilePath := ""; workDirectory := ".watermarker-workdir" |}
         [ "out.pdf" ]
  /\ flag.Parse defaults [ "-dir"; "-output"; "out.pdf" ]
     = flag.Parse defaults [ "-dir=-output"; "out.pdf" ].
Proof.
  assert (H : In "dir" flag_names) by (cbn; tauto).
  split; [exact H|]. split; [vm_compute; reflexivity|].
  exact (proj1 (flag_forms_agree "dir" "-output" defaults [ "out.pdf" ] H)).
Defined.
